(** * PyRemedy: the [ARS] binding object of [pyremedy/ars.py]

    A shallow embedding of the [ARS] class: its attributes become the record
    [ARS], its methods become computations in a state-and-exception monad
    over that record, and the vendor library behind [self.arlib] becomes an
    instrumented native layer, a record of reply functions whose every call,
    every structure it hands out and every [FreeAR...] release is appended
    to a trace. *)

From stdpp Require Import gmap strings list fin_maps sorting pretty.

Open Scope Z_scope.
Open Scope string_scope.
Open Scope list_scope.

(** ** Native data, as the [arh] structures carry it *)

(** One [ARStatusStruct]: [messageText] and [appendedText] are C strings
    that may be NULL ([None]). *)
Record ARStatusStruct := mkStatus {
  messageNum : Z;
  messageText : option string;
  appendedText : option string
}.

Definition ARStatusList := list ARStatusStruct.

(** [AREnumLimitsStruct]: the list style selects the member of the union.
    Any style other than regular and custom is what the code's final
    [else] branch sees (the query style). *)
Inductive AREnumLimitsStruct :=
| AR_ENUM_STYLE_REGULAR (regularList : list string)
| AR_ENUM_STYLE_CUSTOM (customList : list (Z * string))
| AR_ENUM_STYLE_QUERY.

(** [ARFieldLimitStruct]: the code only asks whether [dataType] is
    [AR_DATA_TYPE_ENUM] and then reads [u.enumLimits]. *)
Inductive ARFieldLimitStruct :=
| LimitEnum (enumLimits : AREnumLimitsStruct)
| LimitOther.

(** [ARValueStruct]: [dataType] with the member of the union [u] it selects;
    [charVal] is a C string that may be NULL.
    [AR_DATA_TYPE_OTHER] stands for every tag the decoder does not know. *)
Inductive ARValueStruct :=
| AR_DATA_TYPE_NULL
| AR_DATA_TYPE_CHAR (charVal : option string)
| AR_DATA_TYPE_ENUM (enumVal : Z)
| AR_DATA_TYPE_TIME (timeVal : Z)
| AR_DATA_TYPE_OTHER (dataType : Z).

Record ARFieldValueStruct := mkFieldValue {
  fieldId : Z;
  value : ARValueStruct
}.

(** [AREntryListFieldValueStruct]: the entry id list and the values. *)
Record AREntryListFieldValueStruct := mkEntry {
  entryId : list string;
  entryValues : list ARFieldValueStruct
}.

(** One [AREntryListFieldStruct] of the field-selection list. *)
Record AREntryListFieldStruct := mkFieldSel {
  sel_fieldId : Z;
  columnWidth : Z;
  separator : string
}.

Record ARControlStruct := mkControl {
  server : string;
  user : string;
  password : string
}.

(** Modelled from the spec: the error threshold of the absent [arh] module
    (the outcome code at or above which a native call has failed); the
    number is the vendor header's and no theorem depends on it. *)
Definition AR_RETURN_ERROR : Z := 2.

(** ** The instrumented native layer *)

Inductive ar_function :=
| ARInitialization | ARSetServerPort | ARTermination
| ARGetListSchema | ARGetListField | ARGetMultipleFields
| ARLoadARQualifierStruct | ARGetListEntryWithFields.

(** The kinds of structure that a native call fills and a [FreeAR...]
    function releases. *)
Inductive ar_struct :=
| KStatusList | KNameList | KInternalIdList | KBooleanList
| KFieldLimitList | KQualifierStruct | KEntryListFieldList
| KEntryListFieldValueList.

(** What the instrumented layer writes down: a call with the outcome code
    and the diagnostics it answered, a structure handed out, a structure
    released. *)
Inductive event :=
| Call (f : ar_function) (outcome : Z) (diagnostics : ARStatusList)
| Alloc (k : ar_struct)
| Free (k : ar_struct).

#[global] Instance ARStatusStruct_eq_dec : EqDecision ARStatusStruct.
Proof. solve_decision. Defined.
#[global] Instance ar_function_eq_dec : EqDecision ar_function.
Proof. solve_decision. Defined.
#[global] Instance ar_struct_eq_dec : EqDecision ar_struct.
Proof. solve_decision. Defined.
#[global] Instance event_eq_dec : EqDecision event.
Proof. solve_decision. Defined.

(** The replies of the native service.  Each entry point sees the trace of
    everything that happened on the connection so far, so a reply may
    depend on the history (a terminated session, a second call). The
    compiled qualifier is opaque to the binding; the layer hands out a
    string for it. *)
Record NativeLayer := mkNative {
  reply_ARInitialization : list event -> ARControlStruct -> Z * ARStatusList;
  reply_ARSetServerPort :
    list event -> ARControlStruct -> Z -> Z -> Z * ARStatusList;
  reply_ARTermination : list event -> Z * ARStatusList;
  reply_ARGetListSchema : list event -> Z * list string * ARStatusList;
  reply_ARGetListField : list event -> string -> Z * list Z * ARStatusList;
  reply_ARGetMultipleFields :
    list event -> string -> list Z ->
    Z * list string * list ARFieldLimitStruct * ARStatusList;
  reply_ARLoadARQualifierStruct :
    list event -> string -> string -> Z * string * ARStatusList;
  reply_ARGetListEntryWithFields :
    list event -> string -> string -> list AREntryListFieldStruct ->
    Z * list AREntryListFieldValueStruct * ARStatusList
}.

(** ** The object and its monad *)

(** A decoded value as the caller receives it: [None], a [str] (text and
    enum labels alike) or the [datetime] of an epoch second. *)
Inductive pyvalue :=
| PyNone
| PyStr (s : string)
| PyDatetime (epoch : Z).

Inductive pykey :=
| KeyStr (s : string)
| KeyInt (z : Z).

(** What a method can raise: the binding's own [ARSError], Python's
    [KeyError] from a dict subscript, and [NativeFault] for a read past the
    end of a native array (outside the vendor contract). *)
Inductive exn :=
| ARSError (msg : string)
| KeyError (key : pykey)
| NativeFault.

Inductive result (A : Type) :=
| Ok (a : A)
| Raise (e : exn).
Arguments Ok {A} a.
Arguments Raise {A} e.

Record ARS := mkARS {
  control : ARControlStruct;
  status : ARStatusList;
  errors : list (Z * string * option string);
  schema_cache : option (list string);
  field_name_cache : gmap string (gmap string Z);
  field_name_cache_rev : gmap string (gmap Z string);
  field_enum_cache : gmap string (gmap Z (gmap Z string));
  trace : list event
}.

Definition M (A : Type) : Type := ARS -> ARS * result A.

Definition ret {A} (a : A) : M A := fun s => (s, Ok a).

Definition bind {A B} (m : M A) (k : A -> M B) : M B :=
  fun s => match m s with
           | (s', Ok a) => k a s'
           | (s', Raise e) => (s', Raise e)
           end.

Definition raise {A} (e : exn) : M A := fun s => (s, Raise e).

Definition get : M ARS := fun s => (s, Ok s).

Definition modify (f : ARS -> ARS) : M unit := fun s => (f s, Ok tt).

Declare Scope ars_scope.
Delimit Scope ars_scope with ars.
Notation "'let!' x ':=' m 'in' k" := (bind m (fun x => k))
  (at level 10, x pattern, m at level 100, k at level 200) : ars_scope.
Notation "m ';;;' k" := (bind m (fun _ => k))
  (at level 100, k at level 200, right associativity) : ars_scope.
Open Scope ars_scope.

(** Attribute assignments. *)
Definition set_status (v : ARStatusList) (s : ARS) : ARS :=
  mkARS (control s) v (errors s) (schema_cache s) (field_name_cache s)
        (field_name_cache_rev s) (field_enum_cache s) (trace s).
Definition set_errors (v : list (Z * string * option string)) (s : ARS) : ARS :=
  mkARS (control s) (status s) v (schema_cache s) (field_name_cache s)
        (field_name_cache_rev s) (field_enum_cache s) (trace s).
Definition set_schema_cache (v : option (list string)) (s : ARS) : ARS :=
  mkARS (control s) (status s) (errors s) v (field_name_cache s)
        (field_name_cache_rev s) (field_enum_cache s) (trace s).
Definition set_field_name_cache (v : gmap string (gmap string Z)) (s : ARS) : ARS :=
  mkARS (control s) (status s) (errors s) (schema_cache s) v
        (field_name_cache_rev s) (field_enum_cache s) (trace s).
Definition set_field_name_cache_rev (v : gmap string (gmap Z string)) (s : ARS) : ARS :=
  mkARS (control s) (status s) (errors s) (schema_cache s) (field_name_cache s)
        v (field_enum_cache s) (trace s).
Definition set_field_enum_cache (v : gmap string (gmap Z (gmap Z string))) (s : ARS) : ARS :=
  mkARS (control s) (status s) (errors s) (schema_cache s) (field_name_cache s)
        (field_name_cache_rev s) v (trace s).
Definition log (es : list event) (s : ARS) : ARS :=
  mkARS (control s) (status s) (errors s) (schema_cache s) (field_name_cache s)
        (field_name_cache_rev s) (field_enum_cache s) (trace s ++ es).

(** A native call: the trace records the call and one allocation for each
    structure the call fills, the status list last; [self.status] now
    holds the call's diagnostics. *)
Definition native_call (f : ar_function) (outs : list ar_struct)
    (r : Z) (st : ARStatusList) : M unit :=
  modify (fun s =>
            set_status st (log (Call f r st :: map Alloc (outs ++ [KStatusList])) s)).

(** [self.arlib.FreeAR...(byref(x), arh.FALSE)]. *)
Definition free (k : ar_struct) : M unit := modify (log [Free k]).

Definition FreeARStatusList : M unit :=
  modify (fun s => set_status [] (log [Free KStatusList] s)).
Definition FreeARNameList : M unit := free KNameList.
Definition FreeARInternalIdList : M unit := free KInternalIdList.
Definition FreeARBooleanList : M unit := free KBooleanList.
Definition FreeARQualifierStruct : M unit := free KQualifierStruct.
Definition FreeAREntryListFieldList : M unit := free KEntryListFieldList.
Definition FreeAREntryListFieldValueList : M unit := free KEntryListFieldValueList.

(** ** [_update_errors] *)

(** [str(x)] of a C string: [str(None)] is the text [None]. *)
Definition py_str (x : option string) : string :=
  match x with Some s => s | None => "None" end.

(** [if x:] on a C string: NULL and the empty string are false. *)
Definition truthy (x : option string) : bool :=
  match x with
  | Some EmptyString => false
  | Some _ => true
  | None => false
  end.

Definition error_tuple (r : ARStatusStruct) : Z * string * option string :=
  (messageNum r, py_str (messageText r),
   if truthy (appendedText r) then Some (py_str (appendedText r)) else None).

Definition _update_errors : M unit :=
  modify (fun s => set_errors (map error_tuple (status s)) s).

(** Python's [d[k]]: a missing key raises [KeyError]. *)
Definition subscript {K V} `{Countable K} (d : gmap K V) (k : K)
    (key : pykey) : M V :=
  match d !! k with
  | Some v => ret v
  | None => raise (KeyError key)
  end.

(** [{i: n for n, i in d.iteritems()}]. The order in which a Python 2 dict
    is walked is arbitrary; the order of [map_fold] stands for it. *)
Definition invert_dict (d : gmap string Z) : gmap Z string :=
  map_fold (fun n i acc => <[i := n]> acc) ∅ d.

(** Byte-wise order of [str], as [sorted] uses it. *)
Definition str_le (a b : string) : Prop := String.leb a b = true.
#[global] Instance str_le_dec : RelDecision str_le.
Proof. intros a b. unfold str_le. apply _. Defined.

Definition sorted_keys (d : gmap string Z) : list string :=
  merge_sort str_le (map fst (map_to_list d)).

(** The locals of the decoding loop of [query]. [entry_values] is one dict
    object per entry and every tuple appended to [entries] holds a
    reference to it, so the dicts live in a heap of their own and the
    tuples hold indices into it. *)
Record locals := mkLocals {
  entries : list (string * nat);
  heap : list (gmap string pyvalue)
}.

Definition new_dict (l : locals) : locals :=
  mkLocals (entries l) (heap l ++ [∅]).
Definition dict_setitem (ref : nat) (k : string) (v : pyvalue) (l : locals) : locals :=
  mkLocals (entries l) (alter (insert k v) ref (heap l)).
Definition entries_append (x : string * nat) (l : locals) : locals :=
  mkLocals (entries l ++ [x]) (heap l).

(** What the caller sees in the returned list: each tuple with the dict
    its reference points to. *)
Definition deref (l : locals) : list (string * gmap string pyvalue) :=
  map (fun x => (fst x, default ∅ (heap l !! snd x))) (entries l).

(** ** The methods of [ARS] *)

(** [ret >= arh.AR_RETURN_ERROR] *)
Definition failed (r : Z) : bool := (AR_RETURN_ERROR <=? r)%Z.

Section Methods.

Variable arlib : NativeLayer.

Definition new_ARS (server user password : string) : ARS :=
  mkARS (mkControl server user password) [] [] None ∅ ∅ ∅ [].

(** [__init__]: the attributes are created, then the session is initialised
    and, if asked for, the port is set. *)
Definition __init__ (server user password : string) (port rpc_program_number : Z)
    : ARS * result unit :=
  (let! s := get in
   let '(r, st) := reply_ARInitialization arlib (trace s) (control s) in
   native_call ARInitialization [] r st ;;;
   if failed r then
     _update_errors ;;;
     FreeARStatusList ;;;
     raise (ARSError ("Enable to perform initialisation against server " +:+ server))
   else
     FreeARStatusList ;;;
     if bool_decide (port ≠ 0) || bool_decide (rpc_program_number ≠ 0) then
       let! s := get in
       let '(r, st) :=
         reply_ARSetServerPort arlib (trace s) (control s) port rpc_program_number in
       native_call ARSetServerPort [] r st ;;;
       if failed r then
         _update_errors ;;;
         FreeARStatusList ;;;
         raise (ARSError ("Unable to set the port to " +:+ pretty port
                          +:+ " and RPC program number to "
                          +:+ pretty rpc_program_number
                          +:+ " for server " +:+ server))
       else FreeARStatusList
     else ret tt)
  (new_ARS server user password).

Definition terminate : M unit :=
  let! s := get in
  let '(r, st) := reply_ARTermination arlib (trace s) in
  native_call ARTermination [] r st ;;;
  if failed r then
    _update_errors ;;;
    FreeARStatusList ;;;
    raise (ARSError "Enable to terminate the server connection")
  else FreeARStatusList.

Definition schemas : M (list string) :=
  let! s := get in
  match schema_cache s with
  | Some cached => ret cached
  | None =>
    let '(r, schema_list, st) := reply_ARGetListSchema arlib (trace s) in
    native_call ARGetListSchema [KNameList] r st ;;;
    if failed r then
      _update_errors ;;;
      FreeARNameList ;;;
      FreeARStatusList ;;;
      raise (ARSError "Unable to obtain a list of schemas")
    else
      modify (set_schema_cache (Some schema_list)) ;;;
      FreeARNameList ;;;
      FreeARStatusList ;;;
      ret schema_list
  end.

(** [self.field_name_cache[schema][field_name] = field_id] *)
Definition store_field_name (schema field_name : string) (field_id : Z) : M unit :=
  let! s := get in
  let! d := subscript (field_name_cache s) schema (KeyStr schema) in
  modify (set_field_name_cache
            (<[schema := <[field_name := field_id]> d]> (field_name_cache s))).

(** [self.field_enum_cache[schema][field_id] = {}] *)
Definition init_field_enum (schema : string) (field_id : Z) : M unit :=
  let! s := get in
  let! d := subscript (field_enum_cache s) schema (KeyStr schema) in
  modify (set_field_enum_cache
            (<[schema := <[field_id := ∅]> d]> (field_enum_cache s))).

(** [self.field_enum_cache[schema][field_id][enum_id] = enum_value] *)
Definition store_enum (schema : string) (field_id enum_id : Z)
    (enum_value : string) : M unit :=
  let! s := get in
  let! d := subscript (field_enum_cache s) schema (KeyStr schema) in
  let! e := subscript d field_id (KeyInt field_id) in
  modify (set_field_enum_cache
            (<[schema := <[field_id := <[enum_id := enum_value]> e]> d]>
               (field_enum_cache s))).

(** [for j in range(regular_list.numItems)]: the ordinal is the position. *)
Fixpoint regular_loop (schema : string) (field_id j : Z)
    (nameList : list string) : M unit :=
  match nameList with
  | [] => ret tt
  | enum_value :: rest =>
    store_enum schema field_id j enum_value ;;;
    regular_loop schema field_id (j + 1) rest
  end.

(** [for j in range(custom_list.numItems)]: explicit number and name. *)
Fixpoint custom_loop (schema : string) (field_id : Z)
    (enumItemList : list (Z * string)) : M unit :=
  match enumItemList with
  | [] => ret tt
  | (itemNumber, itemName) :: rest =>
    store_enum schema field_id itemNumber itemName ;;;
    custom_loop schema field_id rest
  end.

(** [for i in range(field_id_list.numItems)] over the id list of
    [ARGetListField] and the name and limit arrays of
    [ARGetMultipleFields], read at the same index. *)
Fixpoint fields_loop (schema : string) (internalIdList : list Z)
    (nameList : list string) (fieldLimitList : list ARFieldLimitStruct)
    : M unit :=
  match internalIdList with
  | [] => ret tt
  | field_id :: ids =>
    match nameList, fieldLimitList with
    | field_name :: names, limit :: limits =>
      store_field_name schema field_name field_id ;;;
      match limit with
      | LimitEnum enumLimits =>
        init_field_enum schema field_id ;;;
        match enumLimits with
        | AR_ENUM_STYLE_REGULAR regular_list =>
          regular_loop schema field_id 0 regular_list
        | AR_ENUM_STYLE_CUSTOM custom_list =>
          custom_loop schema field_id custom_list
        | AR_ENUM_STYLE_QUERY =>
          FreeARInternalIdList ;;;
          FreeARBooleanList ;;;
          FreeARNameList ;;;
          FreeARStatusList ;;;
          raise (ARSError ("The field id " +:+ pretty field_id +:+ " for schema "
                           +:+ schema +:+ " is a query enum which is not "
                           +:+ "supported by PyRemedy"))
        end
      | LimitOther => ret tt
      end ;;;
      fields_loop schema ids names limits
    | _, _ => raise NativeFault
    end
  end.

Definition update_fields (schema : string) : M unit :=
  let! s := get in
  if bool_decide (is_Some (field_name_cache s !! schema))
     && bool_decide (is_Some (field_enum_cache s !! schema))
  then ret tt
  else
    let '(r, field_id_list, st) := reply_ARGetListField arlib (trace s) schema in
    native_call ARGetListField [KInternalIdList] r st ;;;
    if failed r then
      _update_errors ;;;
      FreeARInternalIdList ;;;
      FreeARStatusList ;;;
      raise (ARSError ("Unable to obtain field ids for schema " +:+ schema))
    else
      FreeARStatusList ;;;
      let! s := get in
      let '(r, field_name_list, field_limits_list, st) :=
        reply_ARGetMultipleFields arlib (trace s) schema field_id_list in
      native_call ARGetMultipleFields
                  [KBooleanList; KNameList; KFieldLimitList] r st ;;;
      if failed r then
        _update_errors ;;;
        FreeARInternalIdList ;;;
        FreeARBooleanList ;;;
        FreeARNameList ;;;
        FreeARStatusList ;;;
        raise (ARSError ("Unable to obtain field information for schema "
                         +:+ schema))
      else
        modify (fun s => set_field_name_cache (<[schema := ∅]> (field_name_cache s)) s) ;;;
        modify (fun s => set_field_name_cache_rev (<[schema := ∅]> (field_name_cache_rev s)) s) ;;;
        modify (fun s => set_field_enum_cache (<[schema := ∅]> (field_enum_cache s)) s) ;;;
        fields_loop schema field_id_list field_name_list field_limits_list ;;;
        FreeARInternalIdList ;;;
        FreeARBooleanList ;;;
        FreeARNameList ;;;
        FreeARStatusList ;;;
        let! s := get in
        let! d := subscript (field_name_cache s) schema (KeyStr schema) in
        modify (set_field_name_cache_rev
                  (<[schema := invert_dict d]> (field_name_cache_rev s))).

Definition fields (schema : string) : M (list string) :=
  update_fields schema ;;;
  let! s := get in
  let! d := subscript (field_name_cache s) schema (KeyStr schema) in
  ret (sorted_keys d).

(** The validation loop at the head of [query]: the first requested name
    that is not a key of [self.field_name_cache[schema]] stops the call. *)
Fixpoint validate_fields (schema : string) (fields : list string) : M unit :=
  match fields with
  | [] => ret tt
  | field :: rest =>
    let! s := get in
    let! d := subscript (field_name_cache s) schema (KeyStr schema) in
    if bool_decide (is_Some (d !! field)) then validate_fields schema rest
    else raise (ARSError ("A field with name " +:+ field
                          +:+ " does not exist in schema " +:+ schema))
  end.

(** Filling the malloc'ed [fieldsList]. *)
Fixpoint build_field_list (schema : string) (fields : list string)
    : M (list AREntryListFieldStruct) :=
  match fields with
  | [] => ret []
  | field :: rest =>
    let! s := get in
    let! d := subscript (field_name_cache s) schema (KeyStr schema) in
    let! field_id := subscript d field (KeyStr field) in
    let! tl := build_field_list schema rest in
    ret (mkFieldSel field_id 1 " " :: tl)
  end.

(** The four releases that end [query] on its success path and precede
    the [raise] on its guarded failure paths. *)
Definition release_query : M unit :=
  FreeARQualifierStruct ;;;
  FreeAREntryListFieldList ;;;
  FreeAREntryListFieldValueList ;;;
  FreeARStatusList.

(** [for j in range(values_list.numItems)]: decode one value into the
    entry's dict, then append the tuple to [entries] (the append is part
    of this loop's body). *)
Fixpoint values_loop (schema entry_id : string) (entry_values : nat)
    (fieldValueList : list ARFieldValueStruct) (l : locals) : M locals :=
  match fieldValueList with
  | [] => ret l
  | fv :: rest =>
    let field_id := fieldId fv in
    let! s := get in
    let! rev := subscript (field_name_cache_rev s) schema (KeyStr schema) in
    let! field_name := subscript rev field_id (KeyInt field_id) in
    let! decoded :=
      match value fv with
      | AR_DATA_TYPE_NULL => ret PyNone
      | AR_DATA_TYPE_CHAR charVal => ret (PyStr (py_str charVal))
      | AR_DATA_TYPE_ENUM enumVal =>
        let! es := subscript (field_enum_cache s) schema (KeyStr schema) in
        let! e := subscript es field_id (KeyInt field_id) in
        let! label := subscript e enumVal (KeyInt enumVal) in
        ret (PyStr label)
      | AR_DATA_TYPE_TIME timeVal => ret (PyDatetime timeVal)
      | AR_DATA_TYPE_OTHER _ =>
        release_query ;;;
        raise (ARSError ("An unknown data type was encountered for field name "
                         +:+ field_name +:+ " on schema " +:+ schema))
      end in
    values_loop schema entry_id entry_values rest
      (entries_append (entry_id, entry_values)
         (dict_setitem entry_values field_name decoded l))
  end.

(** [for i in range(entry_list.numItems)] *)
Fixpoint entries_loop (schema : string)
    (entryList : list AREntryListFieldValueStruct) (l : locals) : M locals :=
  match entryList with
  | [] => ret l
  | entry :: rest =>
    match entryId entry with
    | [entry_id] =>
      let entry_values := length (heap l) in
      let! l := values_loop schema entry_id entry_values (entryValues entry)
                            (new_dict l) in
      entries_loop schema rest l
    | _ =>
      release_query ;;;
      raise (ARSError ("One or more entries contained multiple IDs that are "
                       +:+ "not supported by PyRemedy"))
    end
  end.

Definition query (schema qual : string) (fields : list string)
    : M (list (string * gmap string pyvalue)) :=
  update_fields schema ;;;
  validate_fields schema fields ;;;
  let! s := get in
  let '(r, qualifier, st) :=
    reply_ARLoadARQualifierStruct arlib (trace s) schema qual in
  native_call ARLoadARQualifierStruct [KQualifierStruct] r st ;;;
  if failed r then
    _update_errors ;;;
    FreeARQualifierStruct ;;;
    FreeARStatusList ;;;
    raise (ARSError ("Unable to load the qualifier using the provided "
                     +:+ "qualification string for schema " +:+ schema))
  else
    FreeARStatusList ;;;
    modify (log [Alloc KEntryListFieldList]) ;;;
    let! field_list := build_field_list schema fields in
    let! s := get in
    let '(r, entry_list, st) :=
      reply_ARGetListEntryWithFields arlib (trace s) schema qualifier field_list in
    native_call ARGetListEntryWithFields [KEntryListFieldValueList] r st ;;;
    if failed r then
      _update_errors ;;;
      release_query ;;;
      raise (ARSError ("Unable to obtain a list of entries using the provided "
                       +:+ "qualification string for schema " +:+ schema))
    else
      let! l := entries_loop schema entry_list (mkLocals [] []) in
      release_query ;;;
      ret (deref l).

End Methods.

(** ** Counting on the trace *)

Definition is_alloc (e : event) : bool :=
  match e with Alloc _ => true | _ => false end.
Definition is_free (e : event) : bool :=
  match e with Free _ => true | _ => false end.
Definition is_call (e : event) : bool :=
  match e with Call _ _ _ => true | _ => false end.

Definition allocations (t : list event) : nat := length (List.filter is_alloc t).
Definition releases (t : list event) : nat := length (List.filter is_free t).
Definition round_trips (t : list event) : nat := length (List.filter is_call t).

Definition allocated (k : ar_struct) (t : list event) : nat :=
  length (List.filter (fun e => bool_decide (e = Alloc k)) t).
Definition released (k : ar_struct) (t : list event) : nat :=
  length (List.filter (fun e => bool_decide (e = Free k)) t).
Definition calls_to (f : ar_function) (t : list event) : nat :=
  length (List.filter (fun e => match e with
                           | Call g _ _ => bool_decide (g = f)
                           | _ => false
                           end) t).

(** The events that a call appended: the trace after it without the trace
    before it. *)
Definition appended (s s' : ARS) : list event :=
  drop (length (trace s)) (trace s').

(** The diagnostics that a stretch of the trace leaves recorded, starting
    from the diagnostics [e] recorded before it: a failing native call
    replaces them by its decoded status list, nothing else touches them. *)
Definition diag (t : list event) (e : list (Z * string * option string))
    : list (Z * string * option string) :=
  foldl (fun acc ev =>
           match ev with
           | Call _ r st => if failed r then map error_tuple st else acc
           | _ => acc
           end) e t.

(** The public operations, to quantify over them. *)
Inductive operation :=
| OpTerminate
| OpSchemas
| OpFields (schema : string)
| OpQuery (schema qual : string) (fields : list string)
| OpUpdateFields (schema : string).

Inductive outcome :=
| Returned
| Raised (e : exn).

Definition forget {A} (r : result A) : outcome :=
  match r with Ok _ => Returned | Raise e => Raised e end.

Definition run (arlib : NativeLayer) (op : operation) (s : ARS) : ARS * outcome :=
  match op with
  | OpTerminate => let (s', r) := terminate arlib s in (s', forget r)
  | OpSchemas => let (s', r) := schemas arlib s in (s', forget r)
  | OpFields schema => let (s', r) := fields arlib schema s in (s', forget r)
  | OpQuery schema qual fs =>
    let (s', r) := query arlib schema qual fs s in (s', forget r)
  | OpUpdateFields schema =>
    let (s', r) := update_fields arlib schema s in (s', forget r)
  end.

(** ** A fake native layer

    A server with one form, [HPD:Help Desk], whose data fields are
    [Entry ID] (id 1, text) and [Status] (id 7, an enumeration).  The
    variations below change one reply each. *)

Definition fake_layer (schema_reply : Z * list string * ARStatusList)
    (limits : list ARFieldLimitStruct)
    (entry_list : list AREntryListFieldValueStruct) : NativeLayer :=
  mkNative
    (fun _ _ => (0, []))
    (fun _ _ _ _ => (0, []))
    (fun _ => (0, []))
    (fun _ => schema_reply)
    (fun _ _ => (0, [1; 7], []))
    (fun _ _ _ => (0, ["Entry ID"; "Status"], limits, []))
    (fun _ _ qual => (0, qual, []))
    (fun _ _ _ _ => (0, entry_list, [])).

Definition regular_status : list ARFieldLimitStruct :=
  [LimitOther; LimitEnum (AR_ENUM_STYLE_REGULAR ["New"; "Closed"])].

(** One ticket, with its id and a status of ordinal 1. *)
Definition help_desk : NativeLayer :=
  fake_layer (0, ["HPD:Help Desk"], []) regular_status
    [mkEntry ["000001"]
       [mkFieldValue 1 (AR_DATA_TYPE_CHAR (Some "000001"));
        mkFieldValue 7 (AR_DATA_TYPE_ENUM 1)]].

(** The ticket's status ordinal is 5, which the metadata does not list. *)
Definition help_desk_stale_enum : NativeLayer :=
  fake_layer (0, ["HPD:Help Desk"], []) regular_status
    [mkEntry ["000001"] [mkFieldValue 7 (AR_DATA_TYPE_ENUM 5)]].

(** [Status] is a query-style enumeration. *)
Definition help_desk_query_enum : NativeLayer :=
  fake_layer (0, ["HPD:Help Desk"], [])
    [LimitOther; LimitEnum AR_ENUM_STYLE_QUERY] [].

(** The schema listing fails with one diagnostic. *)
Definition help_desk_no_listing : NativeLayer :=
  fake_layer (2, [], [mkStatus 90 (Some "Cannot establish a network connection") None])
    regular_status [].

(** The metadata lists a second field, id 8, that is also named
    [Status]. *)
Definition help_desk_duplicate_name : NativeLayer :=
  mkNative
    (fun _ _ => (0, []))
    (fun _ _ _ _ => (0, []))
    (fun _ => (0, []))
    (fun _ => (0, ["HPD:Help Desk"], []))
    (fun _ _ => (0, [1; 7; 8], []))
    (fun _ _ _ => (0, ["Entry ID"; "Status"; "Status"],
                   [LimitOther; LimitOther; LimitOther], []))
    (fun _ _ qual => (0, qual, []))
    (fun _ _ _ _ => (0, [], [])).

(** A server that cannot be reached: the initialisation fails with one
    diagnostic. *)
Definition unreachable : NativeLayer :=
  mkNative
    (fun _ _ => (2, [mkStatus 90 (Some "Cannot establish a network connection")
                              (Some "remedy")]))
    (fun _ _ _ _ => (0, []))
    (fun _ => (0, []))
    (fun _ => (0, [], []))
    (fun _ _ => (0, [], []))
    (fun _ _ _ => (0, [], [], []))
    (fun _ _ qual => (0, qual, []))
    (fun _ _ _ _ => (0, [], [])).

(** The help desk, refusing the port override with one diagnostic. *)
Definition help_desk_no_port : NativeLayer :=
  mkNative
    (fun _ _ => (0, []))
    (fun _ _ _ _ => (2, [mkStatus 91 (Some "RPC call failed") None]))
    (fun _ => (0, []))
    (fun _ => (0, ["HPD:Help Desk"], []))
    (fun _ _ => (0, [1; 7], []))
    (fun _ _ _ => (0, ["Entry ID"; "Status"], regular_status, []))
    (fun _ _ qual => (0, qual, []))
    (fun _ _ _ _ => (0, [], [])).

(** The help desk with the two metadata replies of one's choosing. *)
Definition help_desk_fields (list_reply : Z * list Z * ARStatusList)
    (fields_reply : Z * list string * list ARFieldLimitStruct * ARStatusList)
    : NativeLayer :=
  mkNative
    (fun _ _ => (0, []))
    (fun _ _ _ _ => (0, []))
    (fun _ => (0, []))
    (fun _ => (0, ["HPD:Help Desk"], []))
    (fun _ _ => list_reply)
    (fun _ _ _ => fields_reply)
    (fun _ _ qual => (0, qual, []))
    (fun _ _ _ _ => (0, [], [])).

(** The diagnostic of a form that the server does not know. *)
Definition no_such_form : ARStatusList :=
  [mkStatus 303 (Some "Form does not exist on server") (Some "HPD:Help Desk")].

(** The help desk with a third field, [Priority] (id 9), a custom
    enumeration. *)
Definition help_desk_priority : NativeLayer :=
  help_desk_fields
    (0, [1; 7; 9], [])
    (0, ["Entry ID"; "Status"; "Priority"],
     [LimitOther; LimitEnum (AR_ENUM_STYLE_REGULAR ["New"; "Closed"]);
      LimitEnum (AR_ENUM_STYLE_CUSTOM [(5, "Urgent"); (1, "Low")])], []).

(** The help desk with the two replies of [query] of one's choosing. *)
Definition help_desk_query (qualifier_reply : Z * string * ARStatusList)
    (entries_reply : Z * list AREntryListFieldValueStruct * ARStatusList)
    : NativeLayer :=
  mkNative
    (fun _ _ => (0, []))
    (fun _ _ _ _ => (0, []))
    (fun _ => (0, []))
    (fun _ => (0, ["HPD:Help Desk"], []))
    (fun _ _ => (0, [1; 7], []))
    (fun _ _ _ => (0, ["Entry ID"; "Status"], regular_status, []))
    (fun _ _ _ => qualifier_reply)
    (fun _ _ _ _ => entries_reply).

(** The diagnostic of a qualification that does not parse. *)
Definition bad_qualification : ARStatusList :=
  [mkStatus 1587 (Some "Error in the qualification") (Some "at position 4")].

(** A ticket whose second value has a data type (2, an integer) that the
    decoding does not know. *)
Definition ticket_with_integer : AREntryListFieldValueStruct :=
  mkEntry ["000002"]
    [mkFieldValue 1 (AR_DATA_TYPE_CHAR (Some "000002"));
     mkFieldValue 7 (AR_DATA_TYPE_OTHER 2)].

(** Two tickets that decode. *)
Definition ticket_one : AREntryListFieldValueStruct :=
  mkEntry ["000001"]
    [mkFieldValue 1 (AR_DATA_TYPE_CHAR (Some "000001"));
     mkFieldValue 7 (AR_DATA_TYPE_ENUM 1)].

Definition ticket_three : AREntryListFieldValueStruct :=
  mkEntry ["000003"] [mkFieldValue 7 (AR_DATA_TYPE_ENUM 0)].

(** The events of a successful [ARInitialization] in the constructor. *)
Definition initialization_events (r : Z) (st : ARStatusList) : list event :=
  [Call ARInitialization r st; Alloc KStatusList; Free KStatusList].

(** The object right after [ARS("remedy", "Demo", "secret")] on a layer. *)
Definition connect (arlib : NativeLayer) : ARS :=
  fst (__init__ arlib "remedy" "Demo" "secret" 0 0).

(** The fake help desk, connected; then with its fields loaded; then
    terminated. *)
Definition desk : ARS := connect help_desk.
Definition desk_loaded : ARS := fst (update_fields help_desk "HPD:Help Desk" desk).
Definition desk_listed : ARS := fst (schemas help_desk desk).
Definition desk_terminated : ARS := fst (terminate help_desk desk).

(** ** Vocabulary of the statements *)

(** [tracked P s s']: the trace of [s'] extends that of [s] by events that
    all satisfy [P], and the diagnostics of [s'] are what that extension
    leaves of the diagnostics of [s]. *)
Definition tracked (P : event -> bool) (s s' : ARS) : Prop :=
  exists t, trace s' = trace s ++ t
            /\ forallb P t = true
            /\ errors s' = diag t (errors s).

Definition tracks {A} (P : event -> bool) (m : M A) : Prop :=
  forall s, tracked P s (fst (m s)).

(** An invariant of the object that a computation keeps. *)
Definition preserves {A} (I : ARS -> Prop) (m : M A) : Prop :=
  forall s, I s -> I (fst (m s)).

(** A schema counts as loaded when both dicts that [update_fields] tests
    hold it. *)
Definition cached (schema : string) (s : ARS) : Prop :=
  is_Some (field_name_cache s !! schema)
  /\ is_Some (field_enum_cache s !! schema).

(** Computable forms of the tests that the methods make on the caches. *)
Definition cachedb (schema : string) (s : ARS) : bool :=
  bool_decide (is_Some (field_name_cache s !! schema))
  && bool_decide (is_Some (field_enum_cache s !! schema)).

Definition in_field_cache (s : ARS) (schema field : string) : bool :=
  match field_name_cache s !! schema with
  | Some d => bool_decide (is_Some (d !! field))
  | None => false
  end.

(** The text of the error for a requested field that the schema lacks. *)
Definition no_such_field (field schema : string) : exn :=
  ARSError ("A field with name " +:+ field
            +:+ " does not exist in schema " +:+ schema).

(** The native entry point that an operation turns to first, if any:
    none when [schemas], [fields] or [update_fields] find their answer in
    the cache, or when [query] on a cached schema is asked for a field the
    cache does not hold. *)
Definition first_call (op : operation) (s : ARS) : option ar_function :=
  match op with
  | OpTerminate => Some ARTermination
  | OpSchemas =>
    match schema_cache s with Some _ => None | None => Some ARGetListSchema end
  | OpFields schema | OpUpdateFields schema =>
    if cachedb schema s then None else Some ARGetListField
  | OpQuery schema _ fs =>
    if cachedb schema s then
      if forallb (in_field_cache s schema) fs
      then Some ARLoadARQualifierStruct else None
    else Some ARGetListField
  end.

(** The field-selection list that [query] builds for the requested names. *)
Definition field_selection (cache : gmap string (gmap string Z))
    (schema : string) (fs : list string) : list AREntryListFieldStruct :=
  match cache !! schema with
  | Some d => omap (fun f => (fun i => mkFieldSel i 1 " ") <$> d !! f) fs
  | None => []
  end.

(** A returned value that the decoding loop gets through: its field id is
    in the reverse dict and its tag is NULL, CHAR or TIME, or ENUM with an
    ordinal that the enum table of the field holds. *)
Definition value_decodes (s : ARS) (schema : string)
    (fv : ARFieldValueStruct) : bool :=
  match field_name_cache_rev s !! schema with
  | Some rev =>
    bool_decide (is_Some (rev !! fieldId fv))
    && match value fv with
       | AR_DATA_TYPE_NULL | AR_DATA_TYPE_CHAR _ | AR_DATA_TYPE_TIME _ => true
       | AR_DATA_TYPE_ENUM enumVal =>
         match field_enum_cache s !! schema with
         | Some es =>
           match es !! fieldId fv with
           | Some e => bool_decide (is_Some (e !! enumVal))
           | None => false
           end
         | None => false
         end
       | AR_DATA_TYPE_OTHER _ => false
       end
  | None => false
  end.

(** A returned entry that the decoding loop gets through. *)
Definition entry_decodes (s : ARS) (schema : string)
    (e : AREntryListFieldValueStruct) : bool :=
  bool_decide (length (entryId e) = 1%nat)
  && forallb (value_decodes s schema) (entryValues e).

(** The events of [query] between the end of [update_fields] and the entry
    retrieval, when the qualifier compiles. *)
Definition qualifier_events (r : Z) (st : ARStatusList) : list event :=
  [Call ARLoadARQualifierStruct r st; Alloc KQualifierStruct;
   Alloc KStatusList; Free KStatusList; Alloc KEntryListFieldList].

(** The four releases of [release_query]. *)
Definition query_releases : list event :=
  [Free KQualifierStruct; Free KEntryListFieldList;
   Free KEntryListFieldValueList; Free KStatusList].

(** The events of a successful entry retrieval, and the object as the
    decoding loop of [query] finds it: as [update_fields] left it, with
    the events of the two native calls of [query] on the trace and the
    status list of the retrieval. *)
Definition retrieval_events (r : Z) (st : ARStatusList) : list event :=
  [Call ARGetListEntryWithFields r st; Alloc KEntryListFieldValueList;
   Alloc KStatusList].

Definition at_decoding (s1 : ARS) (r1 : Z) (st1 : ARStatusList)
    (r2 : Z) (st2 : ARStatusList) : ARS :=
  set_status st2 (log (qualifier_events r1 st1 ++ retrieval_events r2 st2) s1).

Definition multiple_ids : exn :=
  ARSError ("One or more entries contained multiple IDs that are "
            +:+ "not supported by PyRemedy").

(** The forward dict that the loop of [update_fields] builds from the
    name and id arrays: the entries in order, a later one replacing an
    earlier one of the same name. *)
Definition loaded_names (d : gmap string Z) (names : list string)
    (ids : list Z) : gmap string Z :=
  foldl (fun acc p => <[fst p := snd p]> acc) d (zip names ids).

(** A field limit that [update_fields] can load: anything but a
    query-style enumeration. *)
Definition supported (l : ARFieldLimitStruct) : bool :=
  match l with
  | LimitEnum AR_ENUM_STYLE_QUERY => false
  | _ => true
  end.

(** The events of a successful [ARGetListField] in [update_fields], and
    of the successful [ARGetMultipleFields] with the releases that end the
    method. *)
Definition list_field_events (r : Z) (st : ARStatusList) : list event :=
  [Call ARGetListField r st; Alloc KInternalIdList; Alloc KStatusList;
   Free KStatusList].

Definition multiple_fields_events (r : Z) (st : ARStatusList) : list event :=
  [Call ARGetMultipleFields r st; Alloc KBooleanList; Alloc KNameList;
   Alloc KFieldLimitList; Alloc KStatusList;
   Free KInternalIdList; Free KBooleanList; Free KNameList; Free KStatusList].

(** The entries of [schema] in the three dicts are the same in [s'] as in
    [s]. *)
Definition same_entries (schema : string) (s s' : ARS) : Prop :=
  field_name_cache s' !! schema = field_name_cache s !! schema
  /\ field_name_cache_rev s' !! schema = field_name_cache_rev s !! schema
  /\ field_enum_cache s' !! schema = field_enum_cache s !! schema.

(** The (ordinal, label) pairs of an enumeration in the order in which the
    loops of [update_fields] store them: for the regular style the labels
    with their positions, for the custom style the items as listed. *)
Definition enum_items (el : AREnumLimitsStruct) : list (Z * string) :=
  match el with
  | AR_ENUM_STYLE_REGULAR regular_list =>
    imap (fun k label => (Z.of_nat k, label)) regular_list
  | AR_ENUM_STYLE_CUSTOM custom_list => custom_list
  | AR_ENUM_STYLE_QUERY => []
  end.

(** The dict those stores build, starting from the empty dict. *)
Definition enum_table (el : AREnumLimitsStruct) : gmap Z string :=
  foldl (fun acc p => <[fst p := snd p]> acc) ∅ (enum_items el).

(** The enum table of a schema as the loop of [update_fields] builds it
    from the id and limit arrays: one dict per enumeration field. *)
Definition loaded_enums (es : gmap Z (gmap Z string)) (ids : list Z)
    (limits : list ARFieldLimitStruct) : gmap Z (gmap Z string) :=
  foldl (fun acc p =>
           match snd p with
           | LimitEnum el => <[fst p := enum_table el]> acc
           | LimitOther => acc
           end) es (zip ids limits).

(** What the decoding loop of [query] makes of one returned value: the
    name of the field, from the reverse dict, and the decoded value; none
    when a dict lacks a key or the tag is not one of the four. *)
Definition decode (s : ARS) (schema : string) (fv : ARFieldValueStruct)
    : option (string * pyvalue) :=
  match field_name_cache_rev s !! schema with
  | Some rev =>
    match rev !! fieldId fv with
    | Some field_name =>
      match value fv with
      | AR_DATA_TYPE_NULL => Some (field_name, PyNone)
      | AR_DATA_TYPE_CHAR charVal => Some (field_name, PyStr (py_str charVal))
      | AR_DATA_TYPE_ENUM enumVal =>
        match field_enum_cache s !! schema with
        | Some es =>
          match es !! fieldId fv with
          | Some e =>
            match e !! enumVal with
            | Some label => Some (field_name, PyStr label)
            | None => None
            end
          | None => None
          end
        | None => None
        end
      | AR_DATA_TYPE_TIME timeVal => Some (field_name, PyDatetime timeVal)
      | AR_DATA_TYPE_OTHER _ => None
      end
    | None => None
    end
  | None => None
  end.

(** The dict of an entry: its values stored one after the other under
    their field names. *)
Definition store_value (s : ARS) (schema : string)
    (d : gmap string pyvalue) (fv : ARFieldValueStruct) : gmap string pyvalue :=
  match decode s schema fv with
  | Some (field_name, v) => <[field_name := v]> d
  | None => d
  end.

Definition entry_dict (s : ARS) (schema : string)
    (vals : list ARFieldValueStruct) : gmap string pyvalue :=
  foldl (store_value s schema) ∅ vals.

(** The tuples that [query] returns for one entry: the entry's id with the
    entry's dict, once for each of its values. *)
Definition returned_tuples (s : ARS) (schema : string)
    (e : AREntryListFieldValueStruct) : list (string * gmap string pyvalue) :=
  replicate (length (entryValues e))
            (default EmptyString (head (entryId e)),
             entry_dict s schema (entryValues e)).

(** The text of the error for a value of a data type that [query] does not
    decode. *)
Definition unknown_data_type (field_name schema : string) : exn :=
  ARSError ("An unknown data type was encountered for field name "
            +:+ field_name +:+ " on schema " +:+ schema).

(** The events each method can append. *)

Definition terminate_events (e : event) : bool :=
  match e with
  | Call ARTermination _ _ => true
  | Alloc KStatusList | Free KStatusList => true
  | _ => false
  end.

Definition schemas_events (e : event) : bool :=
  match e with
  | Call ARGetListSchema _ _ => true
  | Alloc KNameList | Alloc KStatusList => true
  | Free KNameList | Free KStatusList => true
  | _ => false
  end.

Definition update_fields_events (e : event) : bool :=
  match e with
  | Call ARGetListField _ _ | Call ARGetMultipleFields _ _ => true
  | Alloc KInternalIdList | Alloc KBooleanList | Alloc KNameList
  | Alloc KFieldLimitList | Alloc KStatusList => true
  | Free KInternalIdList | Free KBooleanList | Free KNameList
  | Free KStatusList => true
  | _ => false
  end.

Definition query_events (e : event) : bool :=
  update_fields_events e ||
  match e with
  | Call ARLoadARQualifierStruct _ _ | Call ARGetListEntryWithFields _ _ => true
  | Alloc KQualifierStruct | Alloc KEntryListFieldList
  | Alloc KEntryListFieldValueList => true
  | Free KQualifierStruct | Free KEntryListFieldList
  | Free KEntryListFieldValueList => true
  | _ => false
  end.


(** * Reasoning about the monad *)

Lemma bind_Ok {A B} (m : M A) (k : A -> M B) s s' a :
  m s = (s', Ok a) -> bind m k s = k a s'.
Proof. intros H. unfold bind. by rewrite H. Qed.

Lemma bind_Raise {A B} (m : M A) (k : A -> M B) s s' e :
  m s = (s', Raise e) -> bind m k s = (s', Raise e).
Proof. intros H. unfold bind. by rewrite H. Qed.

Lemma bind_inv {A B} (m : M A) (k : A -> M B) s s2 r :
  bind m k s = (s2, r) ->
  (exists s1 a, m s = (s1, Ok a) /\ k a s1 = (s2, r))
  \/ (exists e, m s = (s2, Raise e) /\ r = Raise e).
Proof.
  unfold bind. destruct (m s) as [s1 [a|e]]; intros H.
  - left. eauto.
  - right. inversion H; subst. eauto.
Qed.

(** ** What the methods do without the native layer *)

Lemma cachedb_cached schema s : cachedb schema s = true <-> cached schema s.
Proof.
  unfold cachedb, cached. rewrite andb_true_iff.
  by rewrite !bool_decide_eq_true.
Qed.

Lemma update_fields_cached arlib schema s :
  cached schema s -> update_fields arlib schema s = (s, Ok tt).
Proof.
  intros [H1 H2]. unfold update_fields, bind, get. simpl.
  by rewrite !bool_decide_eq_true_2.
Qed.

Lemma validate_fields_pure schema fs s :
  fst (validate_fields schema fs s) = s.
Proof.
  induction fs as [|f fs IH]; simpl; [done|].
  unfold bind, get, subscript. simpl.
  destruct (field_name_cache s !! schema) as [d|]; simpl; [| done].
  destruct (bool_decide _); [apply IH | done].
Qed.

Lemma validate_fields_Ok schema fs s :
  forallb (in_field_cache s schema) fs = true ->
  cached schema s ->
  validate_fields schema fs s = (s, Ok tt).
Proof.
  intros Hall [[d Hd] _].
  induction fs as [|f fs IH]; simpl in *; [done|].
  apply andb_prop in Hall as [Hf Hall].
  unfold bind, get, subscript. simpl. rewrite Hd. simpl.
  unfold in_field_cache in Hf. rewrite Hd in Hf. rewrite Hf. by apply IH.
Qed.

Lemma validate_fields_missing schema fs s :
  forallb (in_field_cache s schema) fs = false ->
  cached schema s ->
  exists f, f ∈ fs /\ in_field_cache s schema f = false
            /\ validate_fields schema fs s = (s, Raise (no_such_field f schema)).
Proof.
  intros Hall [[d Hd] _].
  induction fs as [|f fs IH]; simpl in *; [done|].
  unfold bind, get, subscript. simpl. rewrite Hd. simpl.
  destruct (in_field_cache s schema f) eqn:Hf; simpl in Hall.
  - destruct (IH Hall) as (g & Hg & Hgc & Hv). exists g.
    unfold in_field_cache in Hf. rewrite Hd in Hf. rewrite Hf.
    split_and!; [by right | done | done].
  - exists f. unfold in_field_cache in Hf. rewrite Hd in Hf. rewrite Hf.
    split_and!; [by left | | done].
    unfold in_field_cache. by rewrite Hd.
Qed.

(** ** Tracking the trace and the diagnostics through a computation *)

Section Tracking.

Variable P : event -> bool.

#[local] Abbreviation tracked := (tracked P).
#[local] Abbreviation tracks := (tracks P).

Lemma diag_app t1 t2 e : diag (t1 ++ t2) e = diag t2 (diag t1 e).
Proof. unfold diag. apply foldl_app. Qed.

Lemma tracked_refl s : tracked s s.
Proof. exists []. by rewrite app_nil_r. Qed.

Lemma tracked_trans s1 s2 s3 : tracked s1 s2 -> tracked s2 s3 -> tracked s1 s3.
Proof.
  intros (t1 & Ht1 & HP1 & He1) (t2 & Ht2 & HP2 & He2).
  exists (t1 ++ t2). split_and!.
  - by rewrite Ht2, Ht1, app_assoc.
  - rewrite forallb_app. by rewrite HP1, HP2.
  - by rewrite diag_app, <- He1.
Qed.

Lemma tracks_ret {A} (a : A) : tracks (ret a).
Proof. intros s. apply tracked_refl. Qed.

Lemma tracks_raise {A} e : tracks (@raise A e).
Proof. intros s. apply tracked_refl. Qed.

Lemma tracks_get : tracks get.
Proof. intros s. apply tracked_refl. Qed.

Lemma tracks_bind {A B} (m : M A) (k : A -> M B) :
  tracks m -> (forall a, tracks (k a)) -> tracks (bind m k).
Proof.
  intros Hm Hk s. unfold bind. specialize (Hm s).
  destruct (m s) as [s1 [a|e]]; simpl in *; [|done].
  eapply tracked_trans; [done | apply Hk].
Qed.

Lemma tracks_subscript {K V} `{Countable K} (d : gmap K V) k key :
  tracks (subscript d k key).
Proof. intros s. unfold subscript. destruct (d !! k); apply tracked_refl. Qed.

(** An assignment to an attribute other than [errors] and the trace. *)
Lemma tracks_modify_quiet (f : ARS -> ARS) :
  (forall s, trace (f s) = trace s) -> (forall s, errors (f s) = errors s) ->
  tracks (modify f).
Proof.
  intros Ht He s. exists []. simpl. by rewrite Ht, He, app_nil_r.
Qed.

Lemma tracks_free k : P (Free k) = true -> tracks (free k).
Proof. intros HP s. exists [Free k]. simpl. by rewrite HP. Qed.

Lemma tracks_FreeARStatusList :
  P (Free KStatusList) = true -> tracks FreeARStatusList.
Proof. intros HP s. exists [Free KStatusList]. simpl. by rewrite HP. Qed.

Lemma tracks_malloc k : P (Alloc k) = true -> tracks (modify (log [Alloc k])).
Proof. intros HP s. exists [Alloc k]. simpl. by rewrite HP. Qed.

(** The guard around every native call: the call, then on failure
    [_update_errors] before anything else. *)
Lemma tracks_guard {A} f outs r st (on_error on_success : M A) :
  forallb P (Call f r st :: map Alloc (outs ++ [KStatusList])) = true ->
  tracks on_error -> tracks on_success ->
  tracks (native_call f outs r st ;;;
          if failed r then (_update_errors ;;; on_error) else on_success).
Proof.
  intros HP He Hs s. unfold bind at 1. simpl.
  set (t := Call f r st :: map Alloc (outs ++ [KStatusList])) in *.
  set (s1 := set_status st (log t s)).
  assert (Hdiag : forall e, diag t e = if failed r then map error_tuple st else e).
  { intros e. unfold t. simpl. generalize (outs ++ [KStatusList]).
    generalize (if failed r then map error_tuple st else e).
    intros e' l. revert e'. induction l; simpl; auto. }
  assert (Ht : trace s1 = trace s ++ t) by done.
  assert (He1 : errors s1 = errors s) by done.
  destruct (failed r) eqn:Hr.
  - unfold bind at 1. simpl. fold s1.
    eapply tracked_trans; [| apply He].
    exists t. split_and!; [done | done |].
    rewrite Hdiag. done.
  - fold s1. eapply tracked_trans; [| apply Hs].
    exists t. split_and!; [done | done |].
    rewrite Hdiag. done.
Qed.

End Tracking.

Lemma tracks_mono {A} (P Q : event -> bool) (m : M A) :
  (forall e, P e = true -> Q e = true) -> tracks P m -> tracks Q m.
Proof.
  intros HPQ Hm s. destruct (Hm s) as (t & Ht & HP & He).
  exists t. split_and!; [done | | done].
  apply forallb_forall. intros e Hin.
  apply HPQ. by eapply forallb_forall in HP.
Qed.

Ltac track_step :=
  match goal with
  | |- tracks _ (bind (native_call _ _ _ _) _) =>
    apply tracks_guard; [reflexivity | |]
  | |- tracks _ (bind _ _) => apply tracks_bind; [| intros ?]
  | |- tracks _ (ret _) => apply tracks_ret
  | |- tracks _ (raise _) => apply tracks_raise
  | |- tracks _ get => apply tracks_get
  | |- tracks _ (subscript _ _ _) => apply tracks_subscript
  | |- tracks _ FreeARStatusList => apply tracks_FreeARStatusList; reflexivity
  | |- tracks _ (free _) => apply tracks_free; reflexivity
  | |- tracks _ (modify (log [Alloc _])) => apply tracks_malloc; reflexivity
  | |- tracks _ (modify _) =>
    apply tracks_modify_quiet; intros ?; reflexivity
  | |- tracks _ (match ?x with _ => _ end) => destruct x
  end.

Ltac track := repeat track_step.

Section TrackedMethods.

Variable arlib : NativeLayer.

Lemma tracks_terminate : tracks terminate_events (terminate arlib).
Proof. unfold terminate. track. Qed.

Lemma tracks_schemas : tracks schemas_events (schemas arlib).
Proof.
  unfold schemas, FreeARNameList. track.
Qed.

Lemma tracks_store_enum P schema field_id enum_id enum_value :
  tracks P (store_enum schema field_id enum_id enum_value).
Proof. unfold store_enum. track. Qed.

Lemma tracks_regular_loop P schema field_id names :
  forall j, tracks P (regular_loop schema field_id j names).
Proof.
  induction names as [|n names IH]; intros j; simpl; [track|].
  apply tracks_bind; [apply tracks_store_enum | intros _; apply IH].
Qed.

Lemma tracks_custom_loop P schema field_id items :
  tracks P (custom_loop schema field_id items).
Proof.
  induction items as [|[num name] items IH]; simpl; [track|].
  apply tracks_bind; [apply tracks_store_enum | intros _; apply IH].
Qed.

Lemma tracks_fields_loop schema ids :
  forall names limits,
    tracks update_fields_events (fields_loop schema ids names limits).
Proof.
  induction ids as [|i ids IH]; intros names limits; simpl; [track|].
  destruct names as [|n names]; [track|].
  destruct limits as [|l limits]; [track|].
  apply tracks_bind; [unfold store_field_name; track | intros _].
  apply tracks_bind; [| intros _; apply IH].
  destruct l as [[regular_list|custom_list|]|]; [| | |track].
  - apply tracks_bind; [unfold init_field_enum; track | intros _].
    apply tracks_regular_loop.
  - apply tracks_bind; [unfold init_field_enum; track | intros _].
    apply tracks_custom_loop.
  - unfold init_field_enum, FreeARInternalIdList, FreeARBooleanList,
      FreeARNameList. track.
Qed.

(** What follows a successful [ARGetListField] in [update_fields]. *)
Ltac track_update_fields_tail :=
  apply tracks_bind; [track | intros _];
  apply tracks_bind; [track | intros ?];
  destruct (reply_ARGetMultipleFields _ _ _ _) as [[[? ?] ?] ?];
  apply tracks_guard; [reflexivity | track |];
  do 3 (apply tracks_bind; [track | intros _]);
  apply tracks_bind; [apply tracks_fields_loop | intros _];
  track.

Lemma tracks_update_fields schema :
  tracks update_fields_events (update_fields arlib schema).
Proof.
  unfold update_fields, FreeARInternalIdList, FreeARBooleanList,
    FreeARNameList.
  apply tracks_bind; [track | intros s].
  destruct (_ && _); [track|].
  destruct (reply_ARGetListField _ _ _) as [[r ids] st].
  apply tracks_guard; [reflexivity | track |].
  track_update_fields_tail.
Qed.

(** *** The first event of a call *)

Lemma guard_first_event {A} P f outs r st (on_error on_success : M A) s :
  tracks P on_error -> tracks P on_success ->
  exists t,
    trace (fst ((native_call f outs r st ;;;
                 if failed r then (_update_errors ;;; on_error)
                 else on_success) s))
    = trace s ++ Call f r st :: t.
Proof.
  intros He Hs. unfold bind at 1. simpl.
  set (s1 := set_status st (log _ s)).
  assert (Ht : trace s1 = trace s ++ Call f r st :: map Alloc (outs ++ [KStatusList]))
    by done.
  destruct (failed r).
  - unfold bind at 1. simpl.
    match goal with
    | |- context [on_error ?s2] => destruct (He s2) as (t & Ht' & _)
    end.
    rewrite Ht'. simpl. rewrite <- app_assoc. simpl. eauto.
  - destruct (Hs s1) as (t & Ht' & _).
    rewrite Ht', Ht, <- app_assoc. simpl. eauto.
Qed.

Lemma bind_first_event {A B} P (m : M A) (k : A -> M B) s c t :
  trace (fst (m s)) = trace s ++ c :: t ->
  (forall a, tracks P (k a)) ->
  exists t', trace (fst (bind m k s)) = trace s ++ c :: t'.
Proof.
  intros Hm Hk. unfold bind.
  destruct (m s) as [s1 [a|e]]; simpl in *; [| eauto].
  destruct (Hk a s1) as (t' & Ht' & _).
  rewrite Ht', Hm, <- app_assoc. simpl. eauto.
Qed.

Lemma terminate_first_event s :
  exists r st t,
    trace (fst (terminate arlib s)) = trace s ++ Call ARTermination r st :: t.
Proof.
  unfold terminate. unfold bind at 1, get at 1.
  destruct (reply_ARTermination _ _) as [r st]. exists r, st.
  eapply (guard_first_event terminate_events); track.
Qed.

Lemma schemas_first_event s :
  schema_cache s = None ->
  exists r st t,
    trace (fst (schemas arlib s)) = trace s ++ Call ARGetListSchema r st :: t.
Proof.
  intros Hc. unfold schemas. unfold bind at 1, get at 1. rewrite Hc.
  destruct (reply_ARGetListSchema _ _) as [[r names] st]. exists r, st.
  unfold FreeARNameList.
  eapply (guard_first_event schemas_events); track.
Qed.

Lemma update_fields_first_event schema s :
  ~ cached schema s ->
  exists r st t,
    trace (fst (update_fields arlib schema s))
    = trace s ++ Call ARGetListField r st :: t.
Proof.
  intros Hc. unfold update_fields. unfold bind at 1, get at 1.
  destruct (_ && _) eqn:E.
  { exfalso. apply Hc. apply andb_prop in E as [E1 E2].
    split; by eapply bool_decide_eq_true_1. }
  destruct (reply_ARGetListField _ _ _) as [[r ids] st]. exists r, st.
  unfold FreeARInternalIdList, FreeARBooleanList, FreeARNameList.
  eapply (guard_first_event update_fields_events); [track |].
  track_update_fields_tail.
Qed.

Lemma tracks_fields schema :
  tracks update_fields_events (fields arlib schema).
Proof.
  unfold fields.
  apply tracks_bind; [apply tracks_update_fields | intros _]. track.
Qed.

Lemma tracks_validate_fields P schema fs :
  tracks P (validate_fields schema fs).
Proof.
  induction fs as [|f fs IH]; simpl; [track|].
  apply tracks_bind; [track | intros s].
  apply tracks_bind; [track | intros d].
  destruct (bool_decide _); [apply IH | track].
Qed.

Lemma tracks_build_field_list P schema fs :
  tracks P (build_field_list schema fs).
Proof.
  induction fs as [|f fs IH]; simpl; [track|].
  do 3 (apply tracks_bind; [track | intros ?]).
  apply tracks_bind; [apply IH | intros ?]. track.
Qed.

Lemma tracks_release_query : tracks query_events release_query.
Proof.
  unfold release_query, FreeARQualifierStruct, FreeAREntryListFieldList,
    FreeAREntryListFieldValueList. track.
Qed.

Lemma tracks_values_loop schema entry_id ref vals :
  forall l, tracks query_events (values_loop schema entry_id ref vals l).
Proof.
  induction vals as [|fv vals IH]; intros l; simpl; [track|].
  do 3 (apply tracks_bind; [track | intros ?]).
  apply tracks_bind; [| intros ?; apply IH].
  destruct (value fv); try solve [track].
  apply tracks_bind; [apply tracks_release_query | intros _]. track.
Qed.

Lemma tracks_entries_loop schema es :
  forall l, tracks query_events (entries_loop schema es l).
Proof.
  induction es as [|e es IH]; intros l; simpl; [track|].
  destruct (entryId e) as [|entry_id [|? ?]].
  - apply tracks_bind; [apply tracks_release_query | intros _]. track.
  - apply tracks_bind; [apply tracks_values_loop | intros ?]. apply IH.
  - apply tracks_bind; [apply tracks_release_query | intros _]. track.
Qed.

(** What follows a successful [ARLoadARQualifierStruct] in [query]. *)
Ltac track_query_tail :=
  apply tracks_bind; [track | intros _];
  apply tracks_bind; [track | intros _];
  apply tracks_bind; [apply tracks_build_field_list | intros ?];
  apply tracks_bind; [track | intros ?];
  destruct (reply_ARGetListEntryWithFields _ _ _ _ _) as [[? ?] ?];
  apply tracks_guard; [reflexivity | |];
  [ apply tracks_bind; [apply tracks_release_query | intros _]; track
  | apply tracks_bind; [apply tracks_entries_loop | intros ?];
    apply tracks_bind; [apply tracks_release_query | intros _]; track ].

Lemma tracks_query schema qual fs :
  tracks query_events (query arlib schema qual fs).
Proof.
  unfold query.
  apply tracks_bind; [| intros _].
  { eapply tracks_mono; [| apply tracks_update_fields].
    intros e He. unfold query_events. by rewrite He. }
  apply tracks_bind; [apply tracks_validate_fields | intros _].
  apply tracks_bind; [track | intros s].
  destruct (reply_ARLoadARQualifierStruct _ _ _ _) as [[r q] st].
  unfold FreeARQualifierStruct.
  apply tracks_guard; [reflexivity | track |].
  track_query_tail.
Qed.

Lemma fields_first_event schema s :
  ~ cached schema s ->
  exists r st t,
    trace (fst (fields arlib schema s))
    = trace s ++ Call ARGetListField r st :: t.
Proof.
  intros Hc. destruct (update_fields_first_event schema s Hc) as (r & st & t & Ht).
  exists r, st. unfold fields.
  eapply (bind_first_event update_fields_events); [done | intros _]. track.
Qed.

Lemma query_first_event_uncached schema qual fs s :
  ~ cached schema s ->
  exists r st t,
    trace (fst (query arlib schema qual fs s))
    = trace s ++ Call ARGetListField r st :: t.
Proof.
  intros Hc. destruct (update_fields_first_event schema s Hc) as (r & st & t & Ht).
  exists r, st. unfold query.
  eapply (bind_first_event query_events); [done | intros _].
  apply tracks_bind; [apply tracks_validate_fields | intros _].
  apply tracks_bind; [track | intros ?].
  destruct (reply_ARLoadARQualifierStruct _ _ _ _) as [[? ?] ?].
  unfold FreeARQualifierStruct.
  apply tracks_guard; [reflexivity | track |].
  track_query_tail.
Qed.

Lemma query_first_event_cached schema qual fs s :
  cached schema s ->
  forallb (in_field_cache s schema) fs = true ->
  exists r st t,
    trace (fst (query arlib schema qual fs s))
    = trace s ++ Call ARLoadARQualifierStruct r st :: t.
Proof.
  intros Hc Hfs. unfold query.
  rewrite (bind_Ok _ _ _ _ _ (update_fields_cached arlib schema s Hc)).
  rewrite (bind_Ok _ _ _ _ _ (validate_fields_Ok schema fs s Hfs Hc)).
  unfold bind at 1, get at 1.
  destruct (reply_ARLoadARQualifierStruct _ _ _ _) as [[r q] st]. exists r, st.
  unfold FreeARQualifierStruct.
  eapply (guard_first_event query_events); [track |].
  track_query_tail.
Qed.

Lemma query_unknown_field_cached schema qual fs s :
  cached schema s ->
  forallb (in_field_cache s schema) fs = false ->
  exists f, f ∈ fs /\ in_field_cache s schema f = false
            /\ query arlib schema qual fs s = (s, Raise (no_such_field f schema)).
Proof.
  intros Hc Hfs.
  destruct (validate_fields_missing schema fs s Hfs Hc) as (f & Hf & Hfc & Hv).
  exists f. split_and!; [done | done |]. unfold query.
  rewrite (bind_Ok _ _ _ _ _ (update_fields_cached arlib schema s Hc)).
  by rewrite (bind_Raise _ _ _ _ _ Hv).
Qed.

End TrackedMethods.

Section Preserves.

Variable I : ARS -> Prop.

Lemma preserves_ret {A} (a : A) : preserves I (ret a).
Proof. by intros s. Qed.

Lemma preserves_raise {A} e : preserves I (@raise A e).
Proof. by intros s. Qed.

Lemma preserves_get : preserves I get.
Proof. by intros s. Qed.

Lemma preserves_bind {A B} (m : M A) (k : A -> M B) :
  preserves I m -> (forall a, preserves I (k a)) -> preserves I (bind m k).
Proof.
  intros Hm Hk s Hs. unfold bind. specialize (Hm s Hs).
  destruct (m s) as [s1 [a|e]]; simpl in *; [by apply Hk | done].
Qed.

Lemma preserves_subscript {K V} `{Countable K} (d : gmap K V) k key :
  preserves I (subscript d k key).
Proof. intros s. unfold subscript. by destruct (d !! k). Qed.

Lemma preserves_modify (f : ARS -> ARS) :
  (forall s, I s -> I (f s)) -> preserves I (modify f).
Proof. intros Hf s. apply Hf. Qed.

End Preserves.

Ltac keep_step :=
  match goal with
  | |- preserves _ (bind _ _) => apply preserves_bind; [| intros ?]
  | |- preserves _ (ret _) => apply preserves_ret
  | |- preserves _ (raise _) => apply preserves_raise
  | |- preserves _ get => apply preserves_get
  | |- preserves _ (subscript _ _ _) => apply preserves_subscript
  | |- preserves _ (match ?x with _ => _ end) => destruct x
  end.

Ltac keep := repeat keep_step.

Lemma cached_insert_name schema schema' d s :
  cached schema s ->
  cached schema (set_field_name_cache (<[schema' := d]> (field_name_cache s)) s).
Proof.
  intros [H1 H2]. split; simpl; [| done].
  apply lookup_insert_is_Some. destruct (decide (schema' = schema)); auto.
Qed.

Lemma cached_insert_enum schema schema' d s :
  cached schema s ->
  cached schema (set_field_enum_cache (<[schema' := d]> (field_enum_cache s)) s).
Proof.
  intros [H1 H2]. split; simpl; [done |].
  apply lookup_insert_is_Some. destruct (decide (schema' = schema)); auto.
Qed.

Lemma preserves_cached_free schema k : preserves (cached schema) (free k).
Proof. intros s H. exact H. Qed.

Lemma preserves_cached_FreeARStatusList schema :
  preserves (cached schema) FreeARStatusList.
Proof. intros s H. exact H. Qed.

Lemma preserves_cached_store_enum schema sc field_id enum_id enum_value :
  preserves (cached schema) (store_enum sc field_id enum_id enum_value).
Proof.
  intros s Hs. unfold store_enum, bind, get, subscript, modify, ret. simpl.
  destruct (field_enum_cache s !! sc) as [d|]; simpl; [| done].
  destruct (d !! field_id) as [e|]; simpl; [| done].
  by apply cached_insert_enum.
Qed.

Lemma preserves_cached_regular_loop schema sc field_id names :
  forall j, preserves (cached schema) (regular_loop sc field_id j names).
Proof.
  induction names as [|n names IH]; intros j; simpl; [keep|].
  apply preserves_bind; [apply preserves_cached_store_enum | intros _; apply IH].
Qed.

Lemma preserves_cached_custom_loop schema sc field_id items :
  preserves (cached schema) (custom_loop sc field_id items).
Proof.
  induction items as [|[num name] items IH]; simpl; [keep|].
  apply preserves_bind; [apply preserves_cached_store_enum | intros _; apply IH].
Qed.

Lemma preserves_cached_fields_loop schema sc ids :
  forall names limits,
    preserves (cached schema) (fields_loop sc ids names limits).
Proof.
  induction ids as [|i ids IH]; intros names limits; simpl; [keep|].
  destruct names as [|n names]; [keep|].
  destruct limits as [|l limits]; [keep|].
  apply preserves_bind; [| intros _].
  { intros s Hs. unfold store_field_name, bind, get, subscript, modify. simpl.
    destruct (field_name_cache s !! sc) as [d|]; simpl; [| done].
    by apply cached_insert_name. }
  apply preserves_bind; [| intros _; apply IH].
  assert (preserves (cached schema) (init_field_enum sc i)) as Hinit.
  { intros s Hs. unfold init_field_enum, bind, get, subscript, modify. simpl.
    destruct (field_enum_cache s !! sc) as [d|]; simpl; [| done].
    by apply cached_insert_enum. }
  destruct l as [[regular_list|custom_list|]|]; [| | |keep].
  - apply preserves_bind; [done | intros _].
    apply preserves_cached_regular_loop.
  - apply preserves_bind; [done | intros _].
    apply preserves_cached_custom_loop.
  - apply preserves_bind; [done | intros _].
    repeat (apply preserves_bind;
            [first [apply preserves_cached_free
                   | apply preserves_cached_FreeARStatusList] | intros _]).
    keep.
Qed.

Section Idempotence.

Variable arlib : NativeLayer.

Lemma update_fields_Ok_cached schema s s1 :
  update_fields arlib schema s = (s1, Ok tt) -> cached schema s1.
Proof.
  unfold update_fields. unfold bind at 1, get at 1.
  destruct (bool_decide (is_Some (field_name_cache s !! schema))) eqn:E1;
    [destruct (bool_decide (is_Some (field_enum_cache s !! schema))) eqn:E2|];
    simpl.
  { intros [= <-]. split; by eapply bool_decide_eq_true_1. }
  all: destruct (reply_ARGetListField _ _ _) as [[r ids] st].
  all: unfold bind at 1; simpl.
  all: destruct (failed r); [by unfold bind; simpl|].
  all: unfold bind at 1; simpl.
  all: unfold bind at 1; simpl.
  all: destruct (reply_ARGetMultipleFields _ _ _ _) as [[[r2 names] limits] st2].
  all: unfold bind at 1; simpl.
  all: destruct (failed r2); [by unfold bind; simpl|].
  all: do 3 (unfold bind at 1; simpl).
  all: match goal with
       | |- context [fields_loop ?sc ?i ?n ?l] =>
         pose proof (preserves_cached_fields_loop schema sc i n l) as Hloop
       end.
  all: match goal with
       | |- (bind _ _) ?s0 = _ -> _ =>
         specialize (Hloop s0); intros Hrun;
         apply bind_inv in Hrun as [(s2 & [] & Hl & Hrun) | (e & _ & [=])]
       end.
  all: rewrite Hl in Hloop; simpl in Hloop.
  all: assert (cached schema s2) as Hc
      by (apply Hloop; split; simpl; rewrite lookup_insert_eq; eauto).
  all: revert Hrun; unfold FreeARInternalIdList, FreeARBooleanList,
         FreeARNameList, FreeARStatusList, free.
  all: do 5 (unfold bind at 1; simpl).
  all: unfold subscript; simpl.
  all: destruct Hc as [[d Hd] He]; rewrite Hd.
  all: unfold bind, ret, modify; simpl.
  all: intros [= <-]; split; simpl; [by rewrite Hd | done].
Qed.

End Idempotence.

(** * The claims *)

(** ** Releases (C1, C5) *)

(** C1 (the code departs from it). Loading the fields of a form on a fresh
    connection, with every native call succeeding: [ARGetMultipleFields]
    fills a field-limit list, and the call ends without releasing it; six
    structures were handed out and five released. *)
Theorem update_fields_leaks_field_limit_list :
  let s0 := connect help_desk in
  let s1 := fst (update_fields help_desk "HPD:Help Desk" s0) in
  snd (update_fields help_desk "HPD:Help Desk" s0) = Ok tt
  /\ appended s0 s1 =
     [Call ARGetListField 0 []; Alloc KInternalIdList; Alloc KStatusList;
      Free KStatusList;
      Call ARGetMultipleFields 0 []; Alloc KBooleanList; Alloc KNameList;
      Alloc KFieldLimitList; Alloc KStatusList;
      Free KInternalIdList; Free KBooleanList; Free KNameList;
      Free KStatusList]
  /\ allocated KFieldLimitList (appended s0 s1) = 1%nat
  /\ released KFieldLimitList (appended s0 s1) = 0%nat
  /\ allocations (appended s0 s1) = 6%nat
  /\ releases (appended s0 s1) = 5%nat.
Proof. vm_compute. repeat split. Qed.

(** C5 (the code departs from it). A value tagged ENUM whose ordinal 5 is
    not in the enum table does stop the query, but with Python's
    [KeyError], not an [ARSError], and none of the four structures of the
    query is released. *)
Theorem query_unknown_ordinal_raises_KeyError_unreleased :
  let s0 := connect help_desk_stale_enum in
  let s1 := fst (query help_desk_stale_enum "HPD:Help Desk" "1=1" ["Status"] s0) in
  snd (query help_desk_stale_enum "HPD:Help Desk" "1=1" ["Status"] s0)
  = Raise (KeyError (KeyInt 5))
  /\ allocated KQualifierStruct (appended s0 s1) = 1%nat
  /\ released KQualifierStruct (appended s0 s1) = 0%nat
  /\ allocated KEntryListFieldList (appended s0 s1) = 1%nat
  /\ released KEntryListFieldList (appended s0 s1) = 0%nat
  /\ allocated KEntryListFieldValueList (appended s0 s1) = 1%nat
  /\ released KEntryListFieldValueList (appended s0 s1) = 0%nat
  /\ last (appended s0 s1) = Some (Alloc KStatusList).
Proof. vm_compute. repeat split. Qed.

(** ** The result of [query] (C2) *)

(** C2 (the code departs from it). One ticket comes back with two field
    values; the returned list holds two tuples for it, one per value, both
    with the ticket's complete dict. *)
Theorem query_returns_one_tuple_per_value :
  let s0 := connect help_desk in
  snd (query help_desk "HPD:Help Desk" "1=1" ["Entry ID"; "Status"] s0)
  = Ok [("000001", {["Entry ID" := PyStr "000001"; "Status" := PyStr "Closed"]});
        ("000001", {["Entry ID" := PyStr "000001"; "Status" := PyStr "Closed"]})].
Proof. vm_compute. reflexivity. Qed.

(** ** The caches (C3) *)

(** C3 (the code departs from it). [update_fields] stops at the query-style
    enumeration of field 7 after it has entered both fields in the forward
    dict; the reverse dict stays empty, the enum table holds an empty
    entry, and the next [update_fields] and [fields] take this for a loaded
    schema. *)
Theorem update_fields_failure_leaves_partial_cache :
  let s0 := connect help_desk_query_enum in
  let s1 := fst (update_fields help_desk_query_enum "HPD:Help Desk" s0) in
  snd (update_fields help_desk_query_enum "HPD:Help Desk" s0)
  = Raise (ARSError "The field id 7 for schema HPD:Help Desk is a query enum which is not supported by PyRemedy")
  /\ field_name_cache s1 !! "HPD:Help Desk" = Some {["Entry ID" := 1; "Status" := 7]}
  /\ field_name_cache_rev s1 !! "HPD:Help Desk" = Some ∅
  /\ field_enum_cache s1 !! "HPD:Help Desk" = Some {[7 := ∅]}
  /\ update_fields help_desk_query_enum "HPD:Help Desk" s1 = (s1, Ok tt)
  /\ fields help_desk_query_enum "HPD:Help Desk" s1 = (s1, Ok ["Entry ID"; "Status"]).
Proof. vm_compute. repeat split. Qed.

(** ** Counting over what a call appended *)

Lemma appended_app s s' t : trace s' = trace s ++ t -> appended s s' = t.
Proof. intros H. unfold appended. rewrite H. apply drop_app_length. Qed.

Lemma appended_same s : appended s s = [].
Proof. apply appended_app. by rewrite app_nil_r. Qed.

Lemma filter_excluded (P q : event -> bool) t :
  forallb P t = true -> (forall e, P e = true -> q e = false) ->
  List.filter q t = [].
Proof.
  intros HP Hq. induction t as [|e t IH]; simpl in *; [done|].
  apply andb_prop in HP as [He Ht]. rewrite (Hq e He). by apply IH.
Qed.

Lemma run_fst arlib op s :
  fst (run arlib op s) =
  match op with
  | OpTerminate => fst (terminate arlib s)
  | OpSchemas => fst (schemas arlib s)
  | OpFields schema => fst (fields arlib schema s)
  | OpQuery schema qual fs => fst (query arlib schema qual fs s)
  | OpUpdateFields schema => fst (update_fields arlib schema s)
  end.
Proof.
  destruct op; simpl.
  - by destruct (terminate arlib s).
  - by destruct (schemas arlib s).
  - by destruct (fields arlib schema s).
  - by destruct (query arlib schema qual fields0 s).
  - by destruct (update_fields arlib schema s).
Qed.

Lemma run_tracked arlib op s :
  tracked (fun _ => true) s (fst (run arlib op s)).
Proof.
  rewrite run_fst.
  destruct op.
  - by apply (tracks_mono terminate_events), tracks_terminate.
  - by apply (tracks_mono schemas_events), tracks_schemas.
  - by apply (tracks_mono update_fields_events), tracks_fields.
  - by apply (tracks_mono query_events), tracks_query.
  - by apply (tracks_mono update_fields_events), tracks_update_fields.
Qed.

(** ** Diagnostics (C4) *)

(** C4 (the code departs from it). [schemas()] fails and records its
    diagnostic; the [terminate()] that follows completes, its own status
    list is empty, and [errors] still holds the diagnostic of [schemas()],
    although the attribute is to hold the errors that occurred on the last
    call. *)
Lemma diagnostics_survive_a_successful_call :
  let s0 := connect help_desk_no_listing in
  let s1 := fst (schemas help_desk_no_listing s0) in
  let s2 := fst (terminate help_desk_no_listing s1) in
  snd (schemas help_desk_no_listing s0)
  = Raise (ARSError "Unable to obtain a list of schemas")
  /\ errors s1 = [(90, "Cannot establish a network connection", None)]
  /\ snd (terminate help_desk_no_listing s1) = Ok tt
  /\ appended s1 s2 = [Call ARTermination 0 []; Alloc KStatusList; Free KStatusList]
  /\ errors s2 = [(90, "Cannot establish a network connection", None)].
Proof. vm_compute. repeat split. Qed.

(** The mechanism behind it, for every operation and state: the recorded
    diagnostics after an operation are what the events of that operation
    leave of the diagnostics recorded before it.  A native call that
    failed replaces them by its decoded status list; an operation in which
    no native call failed never clears them. *)
Theorem diagnostics_are_those_of_the_last_failed_native_call
    (arlib : NativeLayer) (op : operation) (s : ARS) :
  let s' := fst (run arlib op s) in
  trace s' = trace s ++ appended s s'
  /\ errors s' = diag (appended s s') (errors s).
Proof.
  simpl. destruct (run_tracked arlib op s) as (t & Ht & _ & He).
  by rewrite (appended_app _ _ _ Ht).
Qed.

(** ** Termination (C6) *)

(** C6, as stated, fails: after a completed [terminate()], [schemas()] and
    a second [terminate()] are passed to the native layer and return. *)
Lemma operations_after_terminate_are_not_rejected :
  let s0 := connect help_desk in
  let s1 := fst (terminate help_desk s0) in
  snd (terminate help_desk s0) = Ok tt
  /\ snd (schemas help_desk s1) = Ok ["HPD:Help Desk"]
  /\ appended s1 (fst (schemas help_desk s1))
     = [Call ARGetListSchema 0 []; Alloc KNameList; Alloc KStatusList;
        Free KNameList; Free KStatusList]
  /\ snd (terminate help_desk s1) = Ok tt
  /\ appended s1 (fst (terminate help_desk s1))
     = [Call ARTermination 0 []; Alloc KStatusList; Free KStatusList].
Proof. vm_compute. repeat split. Qed.

Lemma terminate_Ok_inv arlib s s1 :
  terminate arlib s = (s1, Ok tt) ->
  exists r st,
    s1 = set_status [] (log [Call ARTermination r st; Alloc KStatusList;
                             Free KStatusList] s).
Proof.
  unfold terminate, bind, get. simpl.
  destruct (reply_ARTermination _ _) as [r st]. simpl.
  destruct (failed r); simpl; [done|].
  intros [= <-]. exists r, st.
  unfold set_status, log. simpl. by rewrite <- app_assoc.
Qed.

(** C6, amended. A completed [terminate()] leaves no mark on the instance
    besides the emptied status list and the three events of its native
    call, and a subsequent operation is handled as on a live connection:
    it starts with the native call that [first_call] names, or, when there
    is none, it is answered from the caches alone ([schemas],
    [update_fields] and [fields] return; [query] raises its unknown-field
    error). *)
Theorem terminate_leaves_the_instance_in_use
    (arlib : NativeLayer) (s s1 : ARS) (op : operation) :
  terminate arlib s = (s1, Ok tt) ->
  (exists r st,
      s1 = set_status [] (log [Call ARTermination r st; Alloc KStatusList;
                               Free KStatusList] s))
  /\ match first_call op s1 with
     | Some f =>
       exists r st t, appended s1 (fst (run arlib op s1)) = Call f r st :: t
     | None =>
       fst (run arlib op s1) = s1
       /\ match op with
          | OpQuery schema _ fs =>
            exists f, f ∈ fs /\ in_field_cache s1 schema f = false
                      /\ snd (run arlib op s1) = Raised (no_such_field f schema)
          | _ => snd (run arlib op s1) = Returned
          end
     end.
Proof.
  intros Hterm. split; [by apply (terminate_Ok_inv arlib)|]. clear Hterm s.
  destruct op as [| |schema|schema qual fs|schema]; simpl.
  - destruct (terminate_first_event arlib s1) as (r & st & t & Ht).
    exists r, st, t. destruct (terminate arlib s1). by apply appended_app.
  - destruct (schema_cache s1) as [c|] eqn:Hc.
    + unfold schemas, bind, get. simpl. by rewrite Hc.
    + destruct (schemas_first_event arlib s1 Hc) as (r & st & t & Ht).
      exists r, st, t. destruct (schemas arlib s1). by apply appended_app.
  - destruct (cachedb schema s1) eqn:Hc.
    + apply cachedb_cached in Hc. unfold fields.
      rewrite (bind_Ok _ _ _ _ _ (update_fields_cached arlib schema s1 Hc)).
      destruct Hc as [[d Hd] _].
      unfold bind, get, subscript. simpl. by rewrite Hd.
    + assert (~ cached schema s1) as Hn
          by (rewrite <- cachedb_cached; congruence).
      destruct (fields_first_event arlib schema s1 Hn) as (r & st & t & Ht).
      exists r, st, t. destruct (fields arlib schema s1). by apply appended_app.
  - destruct (cachedb schema s1) eqn:Hc.
    + apply cachedb_cached in Hc.
      destruct (forallb (in_field_cache s1 schema) fs) eqn:Hfs.
      * destruct (query_first_event_cached arlib schema qual fs s1 Hc Hfs)
          as (r & st & t & Ht).
        exists r, st, t. destruct (query arlib schema qual fs s1).
        by apply appended_app.
      * destruct (query_unknown_field_cached arlib schema qual fs s1 Hc Hfs)
          as (f & Hf & Hfc & Hq).
        rewrite Hq. simpl. split; [done|]. by exists f.
    + assert (~ cached schema s1) as Hn
          by (rewrite <- cachedb_cached; congruence).
      destruct (query_first_event_uncached arlib schema qual fs s1 Hn)
        as (r & st & t & Ht).
      exists r, st, t. destruct (query arlib schema qual fs s1).
      by apply appended_app.
  - destruct (cachedb schema s1) eqn:Hc.
    + apply cachedb_cached in Hc.
      by rewrite (update_fields_cached arlib schema s1 Hc).
    + assert (~ cached schema s1) as Hn
          by (rewrite <- cachedb_cached; congruence).
      destruct (update_fields_first_event arlib schema s1 Hn)
        as (r & st & t & Ht).
      exists r, st, t. destruct (update_fields arlib schema s1).
      by apply appended_app.
Qed.

Lemma terminate_leaves_the_instance_in_use_witness :
  terminate help_desk desk = (desk_terminated, Ok tt)
  /\ ((exists r st,
         desk_terminated
         = set_status [] (log [Call ARTermination r st; Alloc KStatusList;
                               Free KStatusList] desk))
      /\ match first_call OpSchemas desk_terminated with
         | Some f =>
           exists r st t,
             appended desk_terminated
                      (fst (run help_desk OpSchemas desk_terminated))
             = Call f r st :: t
         | None =>
           fst (run help_desk OpSchemas desk_terminated) = desk_terminated
           /\ snd (run help_desk OpSchemas desk_terminated) = Returned
         end).
Proof.
  assert (H : terminate help_desk desk = (desk_terminated, Ok tt))
    by (vm_compute; reflexivity).
  split; [exact H |].
  exact (terminate_leaves_the_instance_in_use
           help_desk desk desk_terminated OpSchemas H).
Defined.

(** ** Validation of the requested fields (C7) *)

(** C7. When the fields of the schema are loaded and one of the requested
    names is not a key of the schema's field cache, [query] raises the
    error that names a missing field and the schema, and ends in the very
    state in which [update_fields] left the object: nothing of the query
    itself was allocated, and neither the qualifier compilation nor the
    entry retrieval was called. *)
Theorem query_rejects_unknown_field_before_any_request
    (arlib : NativeLayer) (schema qual : string) (fs : list string)
    (s s1 : ARS) (f : string) :
  update_fields arlib schema s = (s1, Ok tt) ->
  f ∈ fs ->
  in_field_cache s1 schema f = false ->
  exists g,
    g ∈ fs /\ in_field_cache s1 schema g = false
    /\ query arlib schema qual fs s
       = (s1, Raise (ARSError ("A field with name " +:+ g
                               +:+ " does not exist in schema " +:+ schema)))
    /\ calls_to ARLoadARQualifierStruct (appended s s1) = 0%nat
    /\ calls_to ARGetListEntryWithFields (appended s s1) = 0%nat
    /\ allocated KQualifierStruct (appended s s1) = 0%nat
    /\ allocated KEntryListFieldList (appended s s1) = 0%nat
    /\ allocated KEntryListFieldValueList (appended s s1) = 0%nat.
Proof.
  intros Hup Hf Hfc.
  pose proof (update_fields_Ok_cached arlib schema s s1 Hup) as Hc.
  assert (forallb (in_field_cache s1 schema) fs = false) as Hfs.
  { destruct (forallb _ fs) eqn:E; [| done].
    rewrite forallb_forall in E. rewrite <- Hfc. symmetry. apply E.
    by apply list_elem_of_In. }
  destruct (validate_fields_missing schema fs s1 Hfs Hc) as (g & Hg & Hgc & Hv).
  exists g. split_and!; [done | done | ..].
  { unfold query. rewrite (bind_Ok _ _ _ _ _ Hup).
    by rewrite (bind_Raise _ _ _ _ _ Hv). }
  all: destruct (tracks_update_fields arlib schema s) as (t & Ht & HP & _).
  all: rewrite Hup in Ht; simpl in Ht; rewrite (appended_app _ _ _ Ht).
  all: unfold calls_to, allocated.
  all: rewrite (filter_excluded update_fields_events _ t HP); [done |].
  all: by intros [[]| []| []].
Qed.

Lemma query_rejects_unknown_field_before_any_request_witness :
  update_fields help_desk "HPD:Help Desk" desk = (desk_loaded, Ok tt)
  /\ "Priority" ∈ ["Entry ID"; "Priority"]
  /\ in_field_cache desk_loaded "HPD:Help Desk" "Priority" = false
  /\ exists g,
      g ∈ ["Entry ID"; "Priority"]
      /\ in_field_cache desk_loaded "HPD:Help Desk" g = false
      /\ query help_desk "HPD:Help Desk" "1=1" ["Entry ID"; "Priority"] desk
         = (desk_loaded,
            Raise (ARSError ("A field with name " +:+ g
                             +:+ " does not exist in schema "
                             +:+ "HPD:Help Desk")))
      /\ calls_to ARLoadARQualifierStruct (appended desk desk_loaded) = 0%nat
      /\ calls_to ARGetListEntryWithFields (appended desk desk_loaded) = 0%nat
      /\ allocated KQualifierStruct (appended desk desk_loaded) = 0%nat
      /\ allocated KEntryListFieldList (appended desk desk_loaded) = 0%nat
      /\ allocated KEntryListFieldValueList (appended desk desk_loaded) = 0%nat.
Proof.
  assert (H1 : update_fields help_desk "HPD:Help Desk" desk = (desk_loaded, Ok tt))
    by (vm_compute; reflexivity).
  assert (H2 : "Priority" ∈ ["Entry ID"; "Priority"])
    by (apply list_elem_of_In; simpl; auto).
  assert (H3 : in_field_cache desk_loaded "HPD:Help Desk" "Priority" = false)
    by (vm_compute; reflexivity).
  split_and!; [exact H1 | exact H2 | exact H3 |].
  exact (query_rejects_unknown_field_before_any_request
           help_desk "HPD:Help Desk" "1=1" ["Entry ID"; "Priority"]
           desk desk_loaded "Priority" H1 H2 H3).
Defined.

(** ** Cache hits (C9) *)

Lemma schemas_cached arlib s l :
  schema_cache s = Some l -> schemas arlib s = (s, Ok l).
Proof. intros H. unfold schemas, bind, get. simpl. by rewrite H. Qed.

Lemma schemas_Ok_cached arlib s s1 l :
  schemas arlib s = (s1, Ok l) -> schema_cache s1 = Some l.
Proof.
  unfold schemas, bind, get. simpl.
  destruct (schema_cache s) as [c|] eqn:Hc.
  { by intros [= <- <-]. }
  destruct (reply_ARGetListSchema _ _) as [[r names] st]. simpl.
  destruct (failed r); simpl; [done|].
  by intros [= <- <-].
Qed.

(** C9. Once [update_fields] has returned for a schema, calling it again
    returns at once in the same state: no event is appended to the trace
    (no round trip) and the three dicts are as they were.  Likewise, once
    [schemas] has returned a list, calling it again returns that list in
    the same state. *)
Theorem second_call_is_answered_from_the_cache
    (arlib : NativeLayer) (schema : string) (s s1 : ARS)
    (s' s1' : ARS) (l : list string) :
  (update_fields arlib schema s = (s1, Ok tt) ->
   update_fields arlib schema s1 = (s1, Ok tt)
   /\ round_trips (appended s1 (fst (update_fields arlib schema s1))) = 0%nat)
  /\ (schemas arlib s' = (s1', Ok l) ->
      schemas arlib s1' = (s1', Ok l)
      /\ round_trips (appended s1' (fst (schemas arlib s1'))) = 0%nat).
Proof.
  split.
  - intros H. apply update_fields_Ok_cached in H.
    rewrite (update_fields_cached arlib schema s1 H). simpl.
    by rewrite appended_same.
  - intros H. apply schemas_Ok_cached in H.
    rewrite (schemas_cached arlib s1' l H). simpl.
    by rewrite appended_same.
Qed.

Lemma second_call_is_answered_from_the_cache_witness :
  (update_fields help_desk "HPD:Help Desk" desk_loaded = (desk_loaded, Ok tt)
   /\ round_trips (appended desk_loaded
                     (fst (update_fields help_desk "HPD:Help Desk" desk_loaded)))
      = 0%nat)
  /\ (schemas help_desk desk_listed = (desk_listed, Ok ["HPD:Help Desk"])
      /\ round_trips (appended desk_listed (fst (schemas help_desk desk_listed)))
         = 0%nat).
Proof.
  destruct (second_call_is_answered_from_the_cache
              help_desk "HPD:Help Desk" desk desk_loaded
              desk desk_listed ["HPD:Help Desk"]) as [Hu Hs].
  split.
  - apply Hu. vm_compute. reflexivity.
  - apply Hs. vm_compute. reflexivity.
Defined.

(** ** The decoding loop of [query] (C8) *)

Lemma build_field_list_Ok schema fs s :
  forallb (in_field_cache s schema) fs = true ->
  cached schema s ->
  build_field_list schema fs s
  = (s, Ok (field_selection (field_name_cache s) schema fs)).
Proof.
  intros Hall [[d Hd] _]. unfold field_selection. rewrite Hd.
  induction fs as [|f fs IH]; simpl in *; [done|].
  apply andb_prop in Hall as [Hf Hall].
  unfold in_field_cache in Hf. rewrite Hd in Hf.
  apply bool_decide_eq_true_1 in Hf as [i Hi].
  unfold bind at 1, get at 1. simpl.
  unfold bind at 1, subscript at 1. rewrite Hd. simpl.
  unfold bind at 1, subscript at 1. rewrite Hi. simpl.
  unfold bind at 1. rewrite (IH Hall). done.
Qed.

Lemma release_query_run s :
  release_query s = (set_status [] (log query_releases s), Ok tt).
Proof.
  unfold release_query, bind, FreeARQualifierStruct, FreeAREntryListFieldList,
    FreeAREntryListFieldValueList, FreeARStatusList, free, modify. simpl.
  unfold set_status, log. simpl. by rewrite <- !app_assoc.
Qed.

Lemma values_loop_Ok schema entry_id ref vals s :
  forallb (value_decodes s schema) vals = true ->
  forall l, exists l', values_loop schema entry_id ref vals l s = (s, Ok l').
Proof.
  induction vals as [|fv vals IH]; intros Hall l; simpl in *; [by eexists|].
  apply andb_prop in Hall as [Hfv Hall].
  unfold value_decodes in Hfv.
  destruct (field_name_cache_rev s !! schema) as [rev|] eqn:Hrev; [| done].
  apply andb_prop in Hfv as [Hname Hval].
  apply bool_decide_eq_true_1 in Hname as [name Hname].
  unfold bind at 1, get at 1. simpl.
  unfold bind at 1, subscript at 1. rewrite Hrev. simpl.
  unfold bind at 1, subscript at 1. rewrite Hname. simpl.
  destruct (value fv) as [|c|o|t|tag]; try done.
  - unfold bind at 1. simpl. apply (IH Hall).
  - unfold bind at 1. simpl. apply (IH Hall).
  - destruct (field_enum_cache s !! schema) as [es|] eqn:Hes; [| done].
    destruct (es !! fieldId fv) as [e|] eqn:He; [| done].
    apply bool_decide_eq_true_1 in Hval as [label Hlabel].
    unfold bind at 1. unfold bind at 1, subscript at 1. rewrite Hes. simpl.
    unfold bind at 1, subscript at 1. rewrite He. simpl.
    unfold bind at 1, subscript at 1. rewrite Hlabel. simpl.
    apply (IH Hall).
  - unfold bind at 1. simpl. apply (IH Hall).
Qed.

Lemma entries_loop_Ok schema es s :
  forallb (entry_decodes s schema) es = true ->
  forall l, exists l', entries_loop schema es l s = (s, Ok l').
Proof.
  induction es as [|e es IH]; intros Hall l; simpl in *; [by eexists|].
  apply andb_prop in Hall as [He Hall].
  apply andb_prop in He as [Hid Hvals].
  apply bool_decide_eq_true_1 in Hid.
  destruct (entryId e) as [|entry_id [|? ?]]; try done.
  destruct (values_loop_Ok schema entry_id (length (heap l)) _ s Hvals
                           (new_dict l)) as [l' Hl'].
  rewrite (bind_Ok _ _ _ _ _ Hl'). apply (IH Hall).
Qed.

Lemma entries_loop_stops schema before bad after s :
  forallb (entry_decodes s schema) before = true ->
  length (entryId bad) ≠ 1%nat ->
  forall l,
    entries_loop schema (before ++ bad :: after) l s
    = (set_status [] (log query_releases s), Raise multiple_ids).
Proof.
  induction before as [|e es IH]; intros Hall Hbad l; simpl in *.
  - destruct (entryId bad) as [|entry_id [|? ?]]; try done.
    all: by rewrite (bind_Ok _ _ _ _ _ (release_query_run s)).
  - apply andb_prop in Hall as [He Hall].
    apply andb_prop in He as [Hid Hvals].
    apply bool_decide_eq_true_1 in Hid.
    destruct (entryId e) as [|entry_id [|? ?]]; try done.
    destruct (values_loop_Ok schema entry_id (length (heap l)) _ s Hvals
                             (new_dict l)) as [l' Hl'].
    rewrite (bind_Ok _ _ _ _ _ Hl'). by apply IH.
Qed.

Section Decoding.

Variable arlib : NativeLayer.

(** [query] up to its decoding loop, when nothing fails on the way. *)
Lemma query_reaches_decoding schema qual fs s s1 r1 q st1 r2 entry_list st2 :
  update_fields arlib schema s = (s1, Ok tt) ->
  forallb (in_field_cache s1 schema) fs = true ->
  reply_ARLoadARQualifierStruct arlib (trace s1) schema qual = (r1, q, st1) ->
  failed r1 = false ->
  reply_ARGetListEntryWithFields arlib (trace s1 ++ qualifier_events r1 st1)
    schema q (field_selection (field_name_cache s1) schema fs)
  = (r2, entry_list, st2) ->
  failed r2 = false ->
  query arlib schema qual fs s
  = (let! l := entries_loop schema entry_list (mkLocals [] []) in
     release_query ;;; ret (deref l)) (at_decoding s1 r1 st1 r2 st2).
Proof.
  intros Hup Hfs Hq Hr1 Hget Hr2.
  pose proof (update_fields_Ok_cached arlib schema s s1 Hup) as Hc.
  unfold query. rewrite (bind_Ok _ _ _ _ _ Hup).
  rewrite (bind_Ok _ _ _ _ _ (validate_fields_Ok schema fs s1 Hfs Hc)).
  unfold bind at 1, get at 1. rewrite Hq.
  unfold bind at 1. simpl. rewrite Hr1.
  unfold bind at 1. simpl.
  unfold bind at 1. simpl.
  match goal with
  | |- bind (build_field_list _ _) _ ?s2 = _ =>
    assert (Hb : build_field_list schema fs s2
                 = (s2, Ok (field_selection (field_name_cache s1) schema fs)))
      by (apply (build_field_list_Ok schema fs s2); [exact Hfs | exact Hc])
  end.
  rewrite (bind_Ok _ _ _ _ _ Hb).
  unfold bind at 1, get at 1. simpl.
  rewrite <- !app_assoc. simpl.
  unfold qualifier_events in Hget. rewrite Hget.
  unfold bind at 1. simpl. rewrite Hr2.
  unfold at_decoding, set_status, log. simpl.
  by rewrite <- !app_assoc.
Qed.

End Decoding.

(** C8. When [query] gets as far as its decoding loop and a returned entry
    has an identifier count other than one, every entry before it having
    been decoded, then [query] raises the error of the binding for such
    entries, and what it appended to the trace ends with the release of
    the qualifier, the field-selection list, the entry list and the status
    list, each once, after the two allocations they answer. *)
Theorem query_releases_all_before_raising_on_entry_ids
    (arlib : NativeLayer) (schema qual : string) (fs : list string)
    (s s1 : ARS) (r1 : Z) (q : string) (st1 : ARStatusList)
    (r2 : Z) (st2 : ARStatusList)
    (before after : list AREntryListFieldValueStruct)
    (bad : AREntryListFieldValueStruct) :
  update_fields arlib schema s = (s1, Ok tt) ->
  forallb (in_field_cache s1 schema) fs = true ->
  reply_ARLoadARQualifierStruct arlib (trace s1) schema qual = (r1, q, st1) ->
  failed r1 = false ->
  reply_ARGetListEntryWithFields arlib (trace s1 ++ qualifier_events r1 st1)
    schema q (field_selection (field_name_cache s1) schema fs)
  = (r2, before ++ bad :: after, st2) ->
  failed r2 = false ->
  forallb (entry_decodes s1 schema) before = true ->
  length (entryId bad) ≠ 1%nat ->
  exists s2,
    query arlib schema qual fs s
    = (s2, Raise (ARSError ("One or more entries contained multiple IDs "
                            +:+ "that are not supported by PyRemedy")))
    /\ appended s1 s2
       = qualifier_events r1 st1 ++ retrieval_events r2 st2
         ++ [Free KQualifierStruct; Free KEntryListFieldList;
             Free KEntryListFieldValueList; Free KStatusList]
    /\ Forall (fun k => allocated k (appended s1 s2) = 1%nat
                        /\ released k (appended s1 s2) = 1%nat)
              [KQualifierStruct; KEntryListFieldList; KEntryListFieldValueList].
Proof.
  intros Hup Hfs Hq Hr1 Hget Hr2 Hbefore Hbad.
  rewrite (query_reaches_decoding arlib schema qual fs s s1 r1 q st1 r2 _ st2
             Hup Hfs Hq Hr1 Hget Hr2).
  eexists. split.
  - apply bind_Raise. by apply entries_loop_stops.
  - assert (appended s1 (set_status [] (log query_releases
                                            (at_decoding s1 r1 st1 r2 st2)))
            = qualifier_events r1 st1 ++ retrieval_events r2 st2
              ++ query_releases) as ->.
    { apply appended_app. simpl. by rewrite <- !app_assoc. }
    split; [done|].
    repeat constructor.
Qed.

Lemma query_releases_all_before_raising_on_entry_ids_witness :
  exists s2,
    query (fake_layer (0, ["HPD:Help Desk"], []) regular_status
             [mkEntry ["000001"] [mkFieldValue 1 (AR_DATA_TYPE_CHAR (Some "000001"))];
              mkEntry ["000002"; "000003"] []])
          "HPD:Help Desk" "1=1" ["Entry ID"] desk
    = (s2, Raise (ARSError ("One or more entries contained multiple IDs "
                            +:+ "that are not supported by PyRemedy")))
    /\ appended desk_loaded s2
       = qualifier_events 0 [] ++ retrieval_events 0 []
         ++ [Free KQualifierStruct; Free KEntryListFieldList;
             Free KEntryListFieldValueList; Free KStatusList]
    /\ Forall (fun k => allocated k (appended desk_loaded s2) = 1%nat
                        /\ released k (appended desk_loaded s2) = 1%nat)
              [KQualifierStruct; KEntryListFieldList; KEntryListFieldValueList].
Proof.
  apply (query_releases_all_before_raising_on_entry_ids
           _ "HPD:Help Desk" "1=1" ["Entry ID"] desk desk_loaded
           0 "1=1" [] 0 []
           [mkEntry ["000001"] [mkFieldValue 1 (AR_DATA_TYPE_CHAR (Some "000001"))]]
           []
           (mkEntry ["000002"; "000003"] [])).
  - vm_compute. reflexivity.
  - vm_compute. reflexivity.
  - reflexivity.
  - reflexivity.
  - reflexivity.
  - reflexivity.
  - vm_compute. reflexivity.
  - simpl. lia.
Defined.

(** ** Loading the fields of a schema (C10) *)

Lemma set_field_enum_cache_id s : set_field_enum_cache (field_enum_cache s) s = s.
Proof. by destruct s. Qed.

Lemma set_field_name_cache_id s : set_field_name_cache (field_name_cache s) s = s.
Proof. by destruct s. Qed.

Lemma store_field_name_run schema n i s d :
  field_name_cache s !! schema = Some d ->
  store_field_name schema n i s
  = (set_field_name_cache (<[schema := <[n := i]> d]> (field_name_cache s)) s,
     Ok tt).
Proof.
  intros Hd. unfold store_field_name, bind, get, subscript. simpl.
  by rewrite Hd.
Qed.

Lemma init_field_enum_run schema fid s es :
  field_enum_cache s !! schema = Some es ->
  init_field_enum schema fid s
  = (set_field_enum_cache (<[schema := <[fid := ∅]> es]> (field_enum_cache s)) s,
     Ok tt).
Proof.
  intros Hd. unfold init_field_enum, bind, get, subscript. simpl.
  by rewrite Hd.
Qed.

Lemma store_enum_run schema fid o v s es e :
  field_enum_cache s !! schema = Some es ->
  es !! fid = Some e ->
  store_enum schema fid o v s
  = (set_field_enum_cache
       (<[schema := <[fid := <[o := v]> e]> es]> (field_enum_cache s)) s,
     Ok tt).
Proof.
  intros Hd He. unfold store_enum, bind, get, subscript. simpl.
  rewrite Hd. simpl. by rewrite He.
Qed.

Lemma regular_loop_run schema fid names :
  forall j s es,
    field_enum_cache s !! schema = Some es ->
    is_Some (es !! fid) ->
    exists E es',
      regular_loop schema fid j names s = (set_field_enum_cache E s, Ok tt)
      /\ E !! schema = Some es' /\ is_Some (es' !! fid).
Proof.
  induction names as [|n names IH]; intros j s es Hes [e He]; simpl.
  - exists (field_enum_cache s), es.
    rewrite set_field_enum_cache_id. eauto.
  - rewrite (bind_Ok _ _ _ _ _ (store_enum_run schema fid j n s es e Hes He)).
    edestruct (IH (j + 1)) as (E & es' & Hrun & HE & Hfid);
      [| | rewrite Hrun; exists E, es'; split_and!; [done | done | done]].
    + simpl. apply lookup_insert_eq.
    + rewrite lookup_insert_eq. eauto.
Qed.

Lemma custom_loop_run schema fid items :
  forall s es,
    field_enum_cache s !! schema = Some es ->
    is_Some (es !! fid) ->
    exists E es',
      custom_loop schema fid items s = (set_field_enum_cache E s, Ok tt)
      /\ E !! schema = Some es' /\ is_Some (es' !! fid).
Proof.
  induction items as [|[num name] items IH]; intros s es Hes [e He]; simpl.
  - exists (field_enum_cache s), es.
    rewrite set_field_enum_cache_id. eauto.
  - rewrite (bind_Ok _ _ _ _ _ (store_enum_run schema fid num name s es e Hes He)).
    edestruct IH as (E & es' & Hrun & HE & Hfid);
      [| | rewrite Hrun; exists E, es'; split_and!; [done | done | done]].
    + simpl. apply lookup_insert_eq.
    + rewrite lookup_insert_eq. eauto.
Qed.

Lemma fields_loop_run schema ids :
  forall names limits s d,
    field_name_cache s !! schema = Some d ->
    is_Some (field_enum_cache s !! schema) ->
    length names = length ids ->
    length limits = length ids ->
    forallb supported limits = true ->
    exists E,
      fields_loop schema ids names limits s
      = (set_field_enum_cache E
           (set_field_name_cache
              (<[schema := loaded_names d names ids]> (field_name_cache s)) s),
         Ok tt)
      /\ is_Some (E !! schema).
Proof.
  induction ids as [|i ids IH]; intros names limits s d Hd Hes Hn Hl Hsup.
  - simpl. exists (field_enum_cache s). split; [| done].
    destruct names; [| done]. unfold loaded_names. simpl.
    rewrite (insert_id _ _ _ Hd).
    by rewrite set_field_name_cache_id, set_field_enum_cache_id.
  - destruct names as [|n names]; [done|].
    destruct limits as [|l limits]; [done|].
    simpl in Hn, Hl, Hsup. apply andb_prop in Hsup as [Hsl Hsup].
    injection Hn as Hn. injection Hl as Hl.
    simpl fields_loop.
    rewrite (bind_Ok _ _ _ _ _ (store_field_name_run schema n i s d Hd)).
    set (s1 := set_field_name_cache _ s).
    assert (Hd1 : field_name_cache s1 !! schema = Some (<[n := i]> d))
      by apply lookup_insert_eq.
    destruct Hes as [es Hes].
    assert (Hes1 : field_enum_cache s1 !! schema = Some es) by done.
    assert (exists E2, (match l with
                        | LimitEnum enumLimits =>
                          init_field_enum schema i ;;;
                          match enumLimits with
                          | AR_ENUM_STYLE_REGULAR regular_list =>
                            regular_loop schema i 0 regular_list
                          | AR_ENUM_STYLE_CUSTOM custom_list =>
                            custom_loop schema i custom_list
                          | AR_ENUM_STYLE_QUERY =>
                            FreeARInternalIdList ;;;
                            FreeARBooleanList ;;;
                            FreeARNameList ;;;
                            FreeARStatusList ;;;
                            raise (ARSError ("The field id " +:+ pretty i
                                             +:+ " for schema " +:+ schema
                                             +:+ " is a query enum which is not "
                                             +:+ "supported by PyRemedy"))
                          end
                        | LimitOther => ret tt
                        end) s1 = (set_field_enum_cache E2 s1, Ok tt)
                       /\ is_Some (E2 !! schema)) as (E2 & Hrun2 & HE2).
    { destruct l as [[regular_list|custom_list|]|]; [| | done |].
      - rewrite (bind_Ok _ _ _ _ _ (init_field_enum_run schema i s1 es Hes1)).
        edestruct (regular_loop_run schema i regular_list 0)
          as (E & es' & Hrun & HE & _);
          [| | rewrite Hrun; exists E; split; [done | eauto]].
        + simpl. apply lookup_insert_eq.
        + rewrite lookup_insert_eq. eauto.
      - rewrite (bind_Ok _ _ _ _ _ (init_field_enum_run schema i s1 es Hes1)).
        edestruct (custom_loop_run schema i custom_list)
          as (E & es' & Hrun & HE & _);
          [| | rewrite Hrun; exists E; split; [done | eauto]].
        + simpl. apply lookup_insert_eq.
        + rewrite lookup_insert_eq. eauto.
      - exists (field_enum_cache s1).
        rewrite set_field_enum_cache_id. split; [done | eauto]. }
    rewrite (bind_Ok _ _ _ _ _ Hrun2).
    destruct (IH names limits (set_field_enum_cache E2 s1) (<[n := i]> d))
      as (E & Hrun & HE); [done | done | done | done | done |].
    rewrite Hrun. exists E. split; [| done].
    unfold s1, loaded_names. simpl.
    by rewrite insert_insert_eq.
Qed.

Section Loading.

Variable arlib : NativeLayer.

(** [update_fields] on a schema that is not cached, when both native calls
    succeed, the three arrays have one length and no field is a
    query-style enumeration. *)
Lemma update_fields_loads schema s r1 ids st1 r2 names limits st2 :
  ~ cached schema s ->
  reply_ARGetListField arlib (trace s) schema = (r1, ids, st1) ->
  failed r1 = false ->
  reply_ARGetMultipleFields arlib (trace s ++ list_field_events r1 st1) schema ids
  = (r2, names, limits, st2) ->
  failed r2 = false ->
  length names = length ids ->
  length limits = length ids ->
  forallb supported limits = true ->
  exists s1,
    update_fields arlib schema s = (s1, Ok tt)
    /\ field_name_cache s1
       = <[schema := loaded_names ∅ names ids]> (field_name_cache s)
    /\ field_name_cache_rev s1
       = <[schema := invert_dict (loaded_names ∅ names ids)]>
           (field_name_cache_rev s)
    /\ trace s1
       = trace s ++ list_field_events r1 st1 ++ multiple_fields_events r2 st2
    /\ errors s1 = errors s.
Proof.
  intros Hc H1 Hr1 H2 Hr2 Hn Hl Hsup.
  unfold update_fields. unfold bind at 1, get at 1.
  change (bool_decide (is_Some (field_name_cache s !! schema))
          && bool_decide (is_Some (field_enum_cache s !! schema)))
    with (cachedb schema s).
  destruct (cachedb schema s) eqn:E; [by apply cachedb_cached in E|].
  rewrite H1.
  unfold bind at 1. simpl. rewrite Hr1.
  unfold bind at 1. simpl.
  unfold bind at 1, get at 1. simpl.
  rewrite <- app_assoc. simpl.
  unfold list_field_events in H2. rewrite H2.
  unfold bind at 1. simpl. rewrite Hr2.
  do 3 (unfold bind at 1; simpl).
  match goal with
  | |- context [bind (fields_loop _ _ _ _) _ ?s2] =>
    destruct (fields_loop_run schema ids names limits s2 ∅)
      as (E' & Hrun & HE');
      [apply lookup_insert_eq
      | simpl; rewrite lookup_insert_eq; eauto
      | done | done | done |]
  end.
  rewrite (bind_Ok _ _ _ _ _ Hrun).
  unfold FreeARInternalIdList, FreeARBooleanList, FreeARNameList,
    FreeARStatusList, free.
  do 4 (unfold bind at 1; simpl).
  unfold bind at 1, get at 1. simpl.
  unfold bind at 1, subscript at 1. rewrite lookup_insert_eq.
  eexists. split; [reflexivity|]. simpl.
  rewrite !insert_insert_eq. split_and!; [done | done | | done].
  by rewrite <- !app_assoc.
Qed.

End Loading.

(** *** The forward dict: the last entry of a name stays *)

Lemma loaded_names_other (d : gmap string Z) (l : list (string * Z)) n :
  (forall x, x ∈ l -> fst x ≠ n) ->
  foldl (fun acc p => <[fst p := snd p]> acc) d l !! n = d !! n.
Proof.
  revert d. induction l as [|x l IH]; intros d Hl; simpl; [done|].
  rewrite IH.
  - apply lookup_insert_ne. apply Hl. by left.
  - intros y Hy. apply Hl. by right.
Qed.

Lemma loaded_names_last (d : gmap string Z) (l : list (string * Z)) p n i :
  l !! p = Some (n, i) ->
  (forall q x, (p < q)%nat -> l !! q = Some x -> fst x ≠ n) ->
  foldl (fun acc p => <[fst p := snd p]> acc) d l !! n = Some i.
Proof.
  revert d p. induction l as [|x l IH]; intros d p Hp Hlast; [done|].
  destruct p as [|p]; simpl in *.
  - injection Hp as ->. simpl. rewrite loaded_names_other.
    + apply lookup_insert_eq.
    + intros y Hy. apply list_elem_of_lookup in Hy as [q Hq].
      apply (Hlast (S q)); [lia | done].
  - apply (IH _ p); [done|].
    intros q y Hq Hy. apply (Hlast (S q)); [lia | done].
Qed.

Lemma loaded_names_origin (d : gmap string Z) (l : list (string * Z)) n i :
  foldl (fun acc p => <[fst p := snd p]> acc) d l !! n = Some i ->
  d !! n = Some i \/ (n, i) ∈ l.
Proof.
  revert d. induction l as [|[m j] l IH]; intros d H; simpl in *; [by left|].
  destruct (IH _ H) as [Hd | Hl].
  - destruct (decide (m = n)) as [->|Hne].
    + rewrite lookup_insert_eq in Hd. injection Hd as ->. right. by left.
    + rewrite lookup_insert_ne in Hd by done. by left.
  - right. by right.
Qed.

(** *** The reverse dict *)

Lemma invert_dict_sound d i n :
  invert_dict d !! i = Some n -> d !! n = Some i.
Proof.
  unfold invert_dict. revert i n.
  apply (map_fold_weak_ind
           (fun acc m => forall i n, acc !! i = Some n -> m !! n = Some i)).
  - intros i n H. by rewrite lookup_empty in H.
  - intros k x m r Hk IH i n H.
    destruct (decide (x = i)) as [->|Hne].
    + rewrite lookup_insert_eq in H. injection H as <-. apply lookup_insert_eq.
    + rewrite lookup_insert_ne in H by done.
      specialize (IH i n H).
      rewrite lookup_insert_ne; [done|]. intros ->. congruence.
Qed.

Lemma invert_dict_complete d i n :
  d !! n = Some i -> is_Some (invert_dict d !! i).
Proof.
  unfold invert_dict. revert i n.
  apply (map_fold_weak_ind
           (fun acc m => forall i n, m !! n = Some i -> is_Some (acc !! i))).
  - intros i n H. by rewrite lookup_empty in H.
  - intros k x m r Hk IH i n H.
    destruct (decide (x = i)) as [->|Hne].
    + rewrite lookup_insert_eq. eauto.
    + rewrite lookup_insert_ne by done.
      destruct (decide (k = n)) as [->|Hkn].
      * rewrite lookup_insert_eq in H. congruence.
      * rewrite lookup_insert_ne in H by done. by apply (IH i n).
Qed.

(** *** [fields] on a loaded schema *)

Lemma fields_cached arlib schema s d :
  cached schema s ->
  field_name_cache s !! schema = Some d ->
  fields arlib schema s = (s, Ok (sorted_keys d)).
Proof.
  intros Hc Hd. unfold fields.
  rewrite (bind_Ok _ _ _ _ _ (update_fields_cached arlib schema s Hc)).
  unfold bind, get, subscript. simpl. by rewrite Hd.
Qed.

Lemma sorted_keys_once d n i :
  d !! n = Some i -> count_occ String.string_dec (sorted_keys d) n = 1%nat.
Proof.
  intros Hd. apply NoDup_count_occ'.
  - apply NoDup_ListNoDup. unfold sorted_keys.
    rewrite merge_sort_Permutation. apply NoDup_fst_map_to_list.
  - apply list_elem_of_In. unfold sorted_keys.
    rewrite merge_sort_Permutation.
    apply list_elem_of_fmap. exists (n, i). split; [done|].
    by apply elem_of_map_to_list.
Qed.

Lemma zip_lookup_Some (names : list string) (ids : list Z) p n i :
  names !! p = Some n -> ids !! p = Some i -> zip names ids !! p = Some (n, i).
Proof.
  revert ids p. induction names as [|m names IH]; intros [|j ids] [|p]; try done.
  - simpl. by intros [= ->] [= ->].
  - simpl. apply IH.
Qed.

Lemma zip_lookup_inv (names : list string) (ids : list Z) p x :
  zip names ids !! p = Some x ->
  names !! p = Some (fst x) /\ ids !! p = Some (snd x).
Proof.
  revert ids p. induction names as [|m names IH]; intros [|j ids] [|p]; try done.
  - simpl. by intros [= <-].
  - simpl. apply IH.
Qed.

(** C10. The native layer lists distinct field ids, and the name [n]
    stands at the positions [p1 < p2] of the name array, [p2] being the
    last position that holds it.  Then, the native calls succeeding and no
    field being a query-style enumeration, [update_fields] returns without
    an error; the forward dict maps [n] to the id listed at [p2]; the id
    listed at [p1] is not a key of the reverse dict, which maps the id at
    [p2] back to [n]; and [fields] lists [n] exactly once. *)
Theorem duplicate_field_name_keeps_the_last_id
    (arlib : NativeLayer) (schema : string) (s : ARS)
    (r1 : Z) (ids : list Z) (st1 : ARStatusList)
    (r2 : Z) (names : list string) (limits : list ARFieldLimitStruct)
    (st2 : ARStatusList) (p1 p2 : nat) (n : string) (i1 i2 : Z) :
  ~ cached schema s ->
  reply_ARGetListField arlib (trace s) schema = (r1, ids, st1) ->
  failed r1 = false ->
  reply_ARGetMultipleFields arlib (trace s ++ list_field_events r1 st1) schema ids
  = (r2, names, limits, st2) ->
  failed r2 = false ->
  length names = length ids ->
  length limits = length ids ->
  forallb supported limits = true ->
  NoDup ids ->
  names !! p1 = Some n -> ids !! p1 = Some i1 ->
  names !! p2 = Some n -> ids !! p2 = Some i2 ->
  (p1 < p2)%nat ->
  (forall q, (p2 < q)%nat -> names !! q ≠ Some n) ->
  exists s1 d rev,
    update_fields arlib schema s = (s1, Ok tt)
    /\ field_name_cache s1 !! schema = Some d
    /\ d !! n = Some i2
    /\ field_name_cache_rev s1 !! schema = Some rev
    /\ rev !! i1 = None
    /\ rev !! i2 = Some n
    /\ exists l, fields arlib schema s1 = (s1, Ok l)
                 /\ count_occ String.string_dec l n = 1%nat.
Proof.
  intros Hc H1 Hr1 H2 Hr2 Hn Hl Hsup Hnd Hn1 Hi1 Hn2 Hi2 Hlt Hlast.
  destruct (update_fields_loads arlib schema s r1 ids st1 r2 names limits st2
              Hc H1 Hr1 H2 Hr2 Hn Hl Hsup)
    as (s1 & Hup & Hfwd & Hrev & _ & _).
  set (d := loaded_names ∅ names ids) in *.
  assert (Hd : d !! n = Some i2).
  { apply (loaded_names_last _ _ p2); [by apply zip_lookup_Some|].
    intros q x Hq Hx Hname. apply zip_lookup_inv in Hx as [Hx _].
    apply (Hlast q Hq). by rewrite Hx, Hname. }
  assert (Horigin : forall m j, d !! m = Some j ->
                                exists q, names !! q = Some m /\ ids !! q = Some j).
  { intros m j Hm. apply loaded_names_origin in Hm as [Hm | Hm].
    - by rewrite lookup_empty in Hm.
    - apply list_elem_of_lookup in Hm as [q Hq].
      apply zip_lookup_inv in Hq. eauto. }
  assert (Hne : i1 ≠ i2).
  { intros ->. pose proof (NoDup_lookup _ _ _ _ Hnd Hi1 Hi2). lia. }
  exists s1, d, (invert_dict d). split_and!.
  - done.
  - rewrite Hfwd. apply lookup_insert_eq.
  - done.
  - rewrite Hrev. apply lookup_insert_eq.
  - destruct (invert_dict d !! i1) as [m|] eqn:Hm; [| done].
    apply invert_dict_sound in Hm.
    destruct (Horigin m i1 Hm) as (q & Hqn & Hqi).
    pose proof (NoDup_lookup _ _ _ _ Hnd Hqi Hi1) as ->.
    assert (m = n) as -> by congruence. congruence.
  - destruct (invert_dict_complete d i2 n Hd) as [m Hm].
    rewrite Hm. f_equal.
    apply invert_dict_sound in Hm.
    destruct (Horigin m i2 Hm) as (q & Hqn & Hqi).
    pose proof (NoDup_lookup _ _ _ _ Hnd Hqi Hi2) as ->. congruence.
  - exists (sorted_keys d). split.
    + apply fields_cached.
      * by apply (update_fields_Ok_cached arlib schema s).
      * rewrite Hfwd. apply lookup_insert_eq.
    + by apply (sorted_keys_once d n i2).
Qed.

Lemma duplicate_field_name_keeps_the_last_id_witness :
  exists s1 d rev,
    update_fields help_desk_duplicate_name "HPD:Help Desk"
                  (connect help_desk_duplicate_name) = (s1, Ok tt)
    /\ field_name_cache s1 !! "HPD:Help Desk" = Some d
    /\ d !! "Status" = Some 8
    /\ field_name_cache_rev s1 !! "HPD:Help Desk" = Some rev
    /\ rev !! 7 = None
    /\ rev !! 8 = Some "Status"
    /\ exists l, fields help_desk_duplicate_name "HPD:Help Desk" s1 = (s1, Ok l)
                 /\ count_occ String.string_dec l "Status" = 1%nat.
Proof.
  apply (duplicate_field_name_keeps_the_last_id
           help_desk_duplicate_name "HPD:Help Desk"
           (connect help_desk_duplicate_name)
           0 [1; 7; 8] [] 0 ["Entry ID"; "Status"; "Status"]
           [LimitOther; LimitOther; LimitOther] [] 1 2 "Status" 7 8).
  - intros [H _]. vm_compute in H. destruct H as [x H]. discriminate H.
  - reflexivity.
  - reflexivity.
  - reflexivity.
  - reflexivity.
  - reflexivity.
  - reflexivity.
  - reflexivity.
  - apply (bool_decide_eq_true_1 (NoDup [1; 7; 8])). vm_compute. reflexivity.
  - reflexivity.
  - reflexivity.
  - reflexivity.
  - reflexivity.
  - lia.
  - intros [|[|[|q]]] Hq; simpl; [lia | lia | lia | discriminate].
Defined.

(** ** What the departures look like in general *)

(** No operation ever releases a field-limit list. *)
Lemma field_limit_list_is_never_released arlib op s :
  released KFieldLimitList (appended s (fst (run arlib op s))) = 0%nat.
Proof.
  assert (tracked query_events s (fst (run arlib op s))
          \/ tracked terminate_events s (fst (run arlib op s))
          \/ tracked schemas_events s (fst (run arlib op s))) as H.
  { rewrite run_fst. destruct op.
    - right. left. apply tracks_terminate.
    - right. right. apply tracks_schemas.
    - left. apply (tracks_mono update_fields_events); [| apply tracks_fields].
      intros e He. unfold query_events. by rewrite He.
    - left. apply tracks_query.
    - left. apply (tracks_mono update_fields_events);
        [| apply tracks_update_fields].
      intros e He. unfold query_events. by rewrite He. }
  unfold released.
  destruct H as [(t & Ht & HP & _) | [(t & Ht & HP & _) | (t & Ht & HP & _)]].
  all: rewrite (appended_app _ _ _ Ht).
  all: erewrite filter_excluded; [done | exact HP |].
  all: by intros [[]| []| []].
Qed.

(** The tuples that the decoding loop appends carry, for each entry, its
    id once per field value. *)
Lemma values_loop_entries schema entry_id ref vals :
  forall l s s' l',
    values_loop schema entry_id ref vals l s = (s', Ok l') ->
    map fst (entries l') = map fst (entries l) ++ replicate (length vals) entry_id.
Proof.
  induction vals as [|fv vals IH]; intros l s s' l' H; simpl in H.
  - injection H as _ <-. simpl. by rewrite app_nil_r.
  - apply bind_inv in H as [(s1 & a & _ & H) | (e & _ & [=])].
    apply bind_inv in H as [(s2 & rev & _ & H) | (e & _ & [=])].
    apply bind_inv in H as [(s3 & name & _ & H) | (e & _ & [=])].
    apply bind_inv in H as [(s4 & v & _ & H) | (e & _ & [=])].
    apply IH in H. rewrite H. simpl.
    rewrite map_app, <- app_assoc. done.
Qed.

Lemma entries_loop_entries schema es :
  forall l s s' l',
    entries_loop schema es l s = (s', Ok l') ->
    map fst (entries l')
    = map fst (entries l)
      ++ flat_map (fun e => replicate (length (entryValues e))
                                      (default "" (head (entryId e)))) es.
Proof.
  induction es as [|e es IH]; intros l s s' l' H; simpl in H.
  - injection H as _ <-. simpl. by rewrite app_nil_r.
  - destruct (entryId e) as [|entry_id [|? ?]] eqn:Hid.
    + apply bind_inv in H as [(s1 & a & _ & [=]) | (x & _ & [=])].
    + apply bind_inv in H as [(s1 & l1 & Hv & H) | (x & _ & [=])].
      apply values_loop_entries in Hv. apply IH in H.
      rewrite H, Hv. simpl. rewrite Hid. simpl. by rewrite <- app_assoc.
    + apply bind_inv in H as [(s1 & a & _ & [=]) | (x & _ & [=])].
Qed.

(** Whenever [query] returns, the list it returns holds, for each entry
    that the native layer returned, as many tuples as the entry has field
    values (none for an entry without values). *)
Lemma query_returns_a_tuple_per_field_value
    arlib schema qual fs s s1 r1 q st1 r2 entry_list st2 s2 res :
  update_fields arlib schema s = (s1, Ok tt) ->
  forallb (in_field_cache s1 schema) fs = true ->
  reply_ARLoadARQualifierStruct arlib (trace s1) schema qual = (r1, q, st1) ->
  failed r1 = false ->
  reply_ARGetListEntryWithFields arlib (trace s1 ++ qualifier_events r1 st1)
    schema q (field_selection (field_name_cache s1) schema fs)
  = (r2, entry_list, st2) ->
  failed r2 = false ->
  query arlib schema qual fs s = (s2, Ok res) ->
  map fst res
  = flat_map (fun e => replicate (length (entryValues e))
                                 (default "" (head (entryId e)))) entry_list.
Proof.
  intros Hup Hfs Hq Hr1 Hget Hr2.
  rewrite (query_reaches_decoding arlib schema qual fs s s1 r1 q st1 r2 _ st2
             Hup Hfs Hq Hr1 Hget Hr2).
  intros H.
  apply bind_inv in H as [(s3 & l & Hloop & H) | (e & _ & [=])].
  rewrite (bind_Ok _ _ _ _ _ (release_query_run s3)) in H.
  injection H as _ <-.
  apply entries_loop_entries in Hloop. simpl in Hloop.
  unfold deref. rewrite map_map. simpl. exact Hloop.
Qed.

(** * Further properties of the methods *)

(** ** The constructor *)

(** X1. When the initialisation call fails, the constructor raises the
    error that names the server, having recorded the diagnostics of the
    call and released the status list; the port is not set, whatever
    overrides were given, and nothing is cached. *)
Theorem constructor_fails_with_the_initialisation
    (arlib : NativeLayer) (server user password : string)
    (port rpc_program_number : Z) (r : Z) (st : ARStatusList) :
  reply_ARInitialization arlib [] (mkControl server user password) = (r, st) ->
  failed r = true ->
  exists s,
    __init__ arlib server user password port rpc_program_number
    = (s, Raise (ARSError ("Enable to perform initialisation against server "
                           +:+ server)))
    /\ errors s = map error_tuple st
    /\ trace s = [Call ARInitialization r st; Alloc KStatusList; Free KStatusList]
    /\ schema_cache s = None
    /\ field_name_cache s = ∅ /\ field_name_cache_rev s = ∅
    /\ field_enum_cache s = ∅.
Proof.
  intros Hinit Hr. unfold __init__, bind, get. simpl.
  rewrite Hinit. simpl. rewrite Hr. simpl.
  eexists. split; [reflexivity|]. simpl. by repeat split.
Qed.

Lemma constructor_fails_with_the_initialisation_witness :
  exists s,
    __init__ unreachable "remedy" "Demo" "secret" 2020 0
    = (s, Raise (ARSError ("Enable to perform initialisation against server "
                           +:+ "remedy")))
    /\ errors s
       = map error_tuple
             [mkStatus 90 (Some "Cannot establish a network connection")
                       (Some "remedy")]
    /\ trace s
       = [Call ARInitialization 2
               [mkStatus 90 (Some "Cannot establish a network connection")
                         (Some "remedy")];
          Alloc KStatusList; Free KStatusList]
    /\ schema_cache s = None
    /\ field_name_cache s = ∅ /\ field_name_cache_rev s = ∅
    /\ field_enum_cache s = ∅.
Proof.
  apply (constructor_fails_with_the_initialisation
           unreachable "remedy" "Demo" "secret" 2020 0).
  - reflexivity.
  - reflexivity.
Defined.

(** X2. Without overrides (port and RPC program number both 0) a
    successful initialisation is all the constructor does: it returns, the
    port-setting call is not made, and the object starts with no recorded
    error and empty caches. *)
Theorem constructor_without_overrides_only_initialises
    (arlib : NativeLayer) (server user password : string)
    (r : Z) (st : ARStatusList) :
  reply_ARInitialization arlib [] (mkControl server user password) = (r, st) ->
  failed r = false ->
  exists s,
    __init__ arlib server user password 0 0 = (s, Ok tt)
    /\ trace s = initialization_events r st
    /\ errors s = []
    /\ schema_cache s = None
    /\ field_name_cache s = ∅ /\ field_name_cache_rev s = ∅
    /\ field_enum_cache s = ∅.
Proof.
  intros Hinit Hr. unfold __init__, bind, get. simpl.
  rewrite Hinit. simpl. rewrite Hr. simpl.
  eexists. split; [reflexivity|]. simpl. by repeat split.
Qed.

Lemma constructor_without_overrides_only_initialises_witness :
  exists s,
    __init__ help_desk "remedy" "Demo" "secret" 0 0 = (s, Ok tt)
    /\ trace s = initialization_events 0 []
    /\ errors s = []
    /\ schema_cache s = None
    /\ field_name_cache s = ∅ /\ field_name_cache_rev s = ∅
    /\ field_enum_cache s = ∅.
Proof.
  apply (constructor_without_overrides_only_initialises
           help_desk "remedy" "Demo" "secret" 0 []).
  - reflexivity.
  - reflexivity.
Defined.

(** X3. With an override (a port or an RPC program number other than 0)
    the constructor, once initialised, makes the port-setting call with
    both numbers, and its outcome is that call's: on failure it raises the
    error that names port, program number and server, with the call's
    diagnostics recorded; otherwise it returns.  The status list of each
    of the two calls is released. *)
Theorem constructor_sets_the_port_when_asked
    (arlib : NativeLayer) (server user password : string)
    (port rpc_program_number : Z)
    (r : Z) (st : ARStatusList) (r2 : Z) (st2 : ARStatusList) :
  port ≠ 0 \/ rpc_program_number ≠ 0 ->
  reply_ARInitialization arlib [] (mkControl server user password) = (r, st) ->
  failed r = false ->
  reply_ARSetServerPort arlib (initialization_events r st)
    (mkControl server user password) port rpc_program_number = (r2, st2) ->
  exists s,
    __init__ arlib server user password port rpc_program_number
    = (s, if failed r2
          then Raise (ARSError ("Unable to set the port to " +:+ pretty port
                                +:+ " and RPC program number to "
                                +:+ pretty rpc_program_number
                                +:+ " for server " +:+ server))
          else Ok tt)
    /\ trace s
       = initialization_events r st
         ++ [Call ARSetServerPort r2 st2; Alloc KStatusList; Free KStatusList]
    /\ errors s = (if failed r2 then map error_tuple st2 else []).
Proof.
  intros Hover Hinit Hr Hport. unfold __init__, bind, get. simpl.
  rewrite Hinit. simpl. rewrite Hr. simpl.
  assert (bool_decide (port ≠ 0) || bool_decide (rpc_program_number ≠ 0) = true)
    as ->.
  { apply orb_true_iff. destruct Hover; [left | right];
      by apply bool_decide_eq_true_2. }
  unfold initialization_events in Hport. cbn. cbn in Hport. rewrite Hport. simpl.
  destruct (failed r2); simpl; eexists; (split; [reflexivity|]); by simpl.
Qed.

Lemma constructor_sets_the_port_when_asked_witness :
  exists s,
    __init__ help_desk_no_port "remedy" "Demo" "secret" 2020 0
    = (s, if failed 2
          then Raise (ARSError ("Unable to set the port to " +:+ pretty 2020
                                +:+ " and RPC program number to "
                                +:+ pretty 0
                                +:+ " for server " +:+ "remedy"))
          else Ok tt)
    /\ trace s
       = initialization_events 0 []
         ++ [Call ARSetServerPort 2 [mkStatus 91 (Some "RPC call failed") None];
             Alloc KStatusList; Free KStatusList]
    /\ errors s
       = (if failed 2
          then map error_tuple [mkStatus 91 (Some "RPC call failed") None]
          else []).
Proof.
  apply (constructor_sets_the_port_when_asked
           help_desk_no_port "remedy" "Demo" "secret" 2020 0 0 []).
  - left. lia.
  - reflexivity.
  - reflexivity.
  - reflexivity.
Defined.

(** ** Diagnostics *)




(** ** [terminate] and [schemas] *)

(** X5. Whatever the native layer answers, [terminate] makes the one
    termination call and releases its status list; it raises its error
    exactly when the call failed, recording the call's diagnostics then
    and leaving the recorded ones otherwise; the caches are untouched. *)
Theorem terminate_makes_one_call_and_releases_its_status
    (arlib : NativeLayer) (s : ARS) :
  let r := fst (reply_ARTermination arlib (trace s)) in
  let st := snd (reply_ARTermination arlib (trace s)) in
  let s' := fst (terminate arlib s) in
  snd (terminate arlib s)
  = (if failed r
     then Raise (ARSError "Enable to terminate the server connection")
     else Ok tt)
  /\ appended s s' = [Call ARTermination r st; Alloc KStatusList; Free KStatusList]
  /\ errors s' = (if failed r then map error_tuple st else errors s)
  /\ schema_cache s' = schema_cache s
  /\ field_name_cache s' = field_name_cache s
  /\ field_name_cache_rev s' = field_name_cache_rev s
  /\ field_enum_cache s' = field_enum_cache s.
Proof.
  unfold terminate, bind, get. simpl.
  destruct (reply_ARTermination arlib (trace s)) as [r st]. simpl.
  destruct (failed r); simpl.
  all: split; [done|].
  all: split; [apply appended_app; simpl; by rewrite <- app_assoc | done].
Qed.

(** X6. [schemas] on an object that has no schema list cached makes the one
    listing call and releases the name list and the status list on both
    outcomes.  When the call failed it raises its error, records the call's
    diagnostics and caches nothing, so that the next call asks the server
    again; otherwise it returns the names as the server listed them and
    caches exactly that list.  The field caches are untouched. *)
Theorem schemas_caches_the_listing_only_when_it_succeeds
    (arlib : NativeLayer) (s : ARS) (r : Z) (names : list string)
    (st : ARStatusList) :
  schema_cache s = None ->
  reply_ARGetListSchema arlib (trace s) = (r, names, st) ->
  exists s',
    schemas arlib s
    = (s', if failed r
           then Raise (ARSError "Unable to obtain a list of schemas")
           else Ok names)
    /\ schema_cache s' = (if failed r then None else Some names)
    /\ errors s' = (if failed r then map error_tuple st else errors s)
    /\ appended s s'
       = [Call ARGetListSchema r st; Alloc KNameList; Alloc KStatusList;
          Free KNameList; Free KStatusList]
    /\ field_name_cache s' = field_name_cache s
    /\ field_name_cache_rev s' = field_name_cache_rev s
    /\ field_enum_cache s' = field_enum_cache s.
Proof.
  intros Hc Hreply. unfold schemas, bind, get. simpl.
  rewrite Hc, Hreply. simpl.
  destruct (failed r); simpl; eexists; (split; [reflexivity|]); simpl.
  all: rewrite ?Hc; split; [done|]; split; [done|].
  all: split; [apply appended_app; simpl; by rewrite <- !app_assoc | done].
Qed.

Lemma schemas_caches_the_listing_only_when_it_succeeds_witness :
  exists s',
    schemas help_desk_no_listing (connect help_desk_no_listing)
    = (s', if failed 2
           then Raise (ARSError "Unable to obtain a list of schemas")
           else Ok [])
    /\ schema_cache s' = (if failed 2 then None else Some [])
    /\ errors s'
       = (if failed 2
          then map error_tuple
                   [mkStatus 90 (Some "Cannot establish a network connection")
                             None]
          else errors (connect help_desk_no_listing))
    /\ appended (connect help_desk_no_listing) s'
       = [Call ARGetListSchema 2
               [mkStatus 90 (Some "Cannot establish a network connection") None];
          Alloc KNameList; Alloc KStatusList; Free KNameList; Free KStatusList]
    /\ field_name_cache s' = field_name_cache (connect help_desk_no_listing)
    /\ field_name_cache_rev s'
       = field_name_cache_rev (connect help_desk_no_listing)
    /\ field_enum_cache s' = field_enum_cache (connect help_desk_no_listing).
Proof.
  apply (schemas_caches_the_listing_only_when_it_succeeds
           help_desk_no_listing (connect help_desk_no_listing) 2 []
           [mkStatus 90 (Some "Cannot establish a network connection") None]).
  - reflexivity.
  - reflexivity.
Defined.

(** ** [update_fields] when a native call fails *)

(** X7. When the field-id listing fails for a schema that is not loaded,
    [update_fields] raises the error that names the schema, records the
    call's diagnostics, and releases the id list and the status list it
    was handed; the second native call is not made and the three dicts
    are exactly as before, so the schema is still not loaded. *)
Theorem update_fields_stops_at_a_failed_id_listing
    (arlib : NativeLayer) (schema : string) (s : ARS)
    (r : Z) (ids : list Z) (st : ARStatusList) :
  ~ cached schema s ->
  reply_ARGetListField arlib (trace s) schema = (r, ids, st) ->
  failed r = true ->
  exists s',
    update_fields arlib schema s
    = (s', Raise (ARSError ("Unable to obtain field ids for schema "
                            +:+ schema)))
    /\ errors s' = map error_tuple st
    /\ appended s s'
       = [Call ARGetListField r st; Alloc KInternalIdList; Alloc KStatusList;
          Free KInternalIdList; Free KStatusList]
    /\ field_name_cache s' = field_name_cache s
    /\ field_name_cache_rev s' = field_name_cache_rev s
    /\ field_enum_cache s' = field_enum_cache s
    /\ ~ cached schema s'.
Proof.
  intros Hc Hreply Hr. unfold update_fields. unfold bind at 1, get at 1.
  change (bool_decide (is_Some (field_name_cache s !! schema))
          && bool_decide (is_Some (field_enum_cache s !! schema)))
    with (cachedb schema s).
  destruct (cachedb schema s) eqn:E; [by apply cachedb_cached in E|].
  rewrite Hreply. unfold bind, FreeARInternalIdList, free. simpl. rewrite Hr.
  simpl. eexists. split; [reflexivity|]. simpl.
  split; [done|].
  split; [apply appended_app; simpl; by rewrite <- !app_assoc |].
  by repeat split.
Qed.

Lemma update_fields_stops_at_a_failed_id_listing_witness :
  exists s',
    update_fields (help_desk_fields (2, [], no_such_form) (0, [], [], []))
                  "HPD:Help Desk" desk
    = (s', Raise (ARSError ("Unable to obtain field ids for schema "
                            +:+ "HPD:Help Desk")))
    /\ errors s' = map error_tuple no_such_form
    /\ appended desk s'
       = [Call ARGetListField 2 no_such_form; Alloc KInternalIdList;
          Alloc KStatusList; Free KInternalIdList; Free KStatusList]
    /\ field_name_cache s' = field_name_cache desk
    /\ field_name_cache_rev s' = field_name_cache_rev desk
    /\ field_enum_cache s' = field_enum_cache desk
    /\ ~ cached "HPD:Help Desk" s'.
Proof.
  apply (update_fields_stops_at_a_failed_id_listing
           (help_desk_fields (2, [], no_such_form) (0, [], [], []))
           "HPD:Help Desk" desk 2 [] no_such_form).
  - intros [H _]. vm_compute in H. destruct H as [x H]. discriminate H.
  - reflexivity.
  - reflexivity.
Defined.

(** X8. When the id listing succeeds and the multiple-fields call fails,
    [update_fields] raises the error that names the schema and records the
    diagnostics of the failed call; it releases the id list, the two lists
    of the failed call that it releases elsewhere and the status list, and
    the three dicts are exactly as before: nothing of the schema is cached
    and a later call asks the server again. *)
Theorem update_fields_stops_at_failed_field_metadata
    (arlib : NativeLayer) (schema : string) (s : ARS)
    (r1 : Z) (ids : list Z) (st1 : ARStatusList)
    (r2 : Z) (names : list string) (limits : list ARFieldLimitStruct)
    (st2 : ARStatusList) :
  ~ cached schema s ->
  reply_ARGetListField arlib (trace s) schema = (r1, ids, st1) ->
  failed r1 = false ->
  reply_ARGetMultipleFields arlib (trace s ++ list_field_events r1 st1) schema ids
  = (r2, names, limits, st2) ->
  failed r2 = true ->
  exists s',
    update_fields arlib schema s
    = (s', Raise (ARSError ("Unable to obtain field information for schema "
                            +:+ schema)))
    /\ errors s' = map error_tuple st2
    /\ appended s s'
       = list_field_events r1 st1
         ++ [Call ARGetMultipleFields r2 st2; Alloc KBooleanList;
             Alloc KNameList; Alloc KFieldLimitList; Alloc KStatusList;
             Free KInternalIdList; Free KBooleanList; Free KNameList;
             Free KStatusList]
    /\ field_name_cache s' = field_name_cache s
    /\ field_name_cache_rev s' = field_name_cache_rev s
    /\ field_enum_cache s' = field_enum_cache s
    /\ ~ cached schema s'.
Proof.
  intros Hc H1 Hr1 H2 Hr2. unfold update_fields. unfold bind at 1, get at 1.
  change (bool_decide (is_Some (field_name_cache s !! schema))
          && bool_decide (is_Some (field_enum_cache s !! schema)))
    with (cachedb schema s).
  destruct (cachedb schema s) eqn:E; [by apply cachedb_cached in E|].
  rewrite H1.
  unfold bind at 1. simpl. rewrite Hr1.
  unfold bind at 1. simpl.
  unfold bind at 1, get at 1. simpl.
  rewrite <- app_assoc. simpl.
  unfold list_field_events in H2. rewrite H2.
  unfold bind, FreeARInternalIdList, FreeARBooleanList, FreeARNameList, free.
  simpl. rewrite Hr2. simpl.
  eexists. split; [reflexivity|]. simpl.
  split; [done|].
  split; [apply appended_app; simpl; by rewrite <- !app_assoc |].
  by repeat split.
Qed.

Lemma update_fields_stops_at_failed_field_metadata_witness :
  exists s',
    update_fields (help_desk_fields (0, [1; 7], []) (2, [], [], no_such_form))
                  "HPD:Help Desk" desk
    = (s', Raise (ARSError ("Unable to obtain field information for schema "
                            +:+ "HPD:Help Desk")))
    /\ errors s' = map error_tuple no_such_form
    /\ appended desk s'
       = list_field_events 0 []
         ++ [Call ARGetMultipleFields 2 no_such_form; Alloc KBooleanList;
             Alloc KNameList; Alloc KFieldLimitList; Alloc KStatusList;
             Free KInternalIdList; Free KBooleanList; Free KNameList;
             Free KStatusList]
    /\ field_name_cache s' = field_name_cache desk
    /\ field_name_cache_rev s' = field_name_cache_rev desk
    /\ field_enum_cache s' = field_enum_cache desk
    /\ ~ cached "HPD:Help Desk" s'.
Proof.
  apply (update_fields_stops_at_failed_field_metadata
           (help_desk_fields (0, [1; 7], []) (2, [], [], no_such_form))
           "HPD:Help Desk" desk 0 [1; 7] [] 2 [] [] no_such_form).
  - intros [H _]. vm_compute in H. destruct H as [x H]. discriminate H.
  - reflexivity.
  - reflexivity.
  - reflexivity.
  - reflexivity.
Defined.

(** ** What the operations on one schema leave alone *)

(** An invariant that survives every assignment the methods make when they
    work on [schema]: trace, status list and diagnostics, the cached
    schema list, and the entries of [schema] in the three dicts. *)
Section Stable.

Variable arlib : NativeLayer.
Variable schema : string.
Variable I : ARS -> Prop.

Hypothesis I_log : forall es s, I s -> I (log es s).
Hypothesis I_status : forall v s, I s -> I (set_status v s).
Hypothesis I_errors : forall v s, I s -> I (set_errors v s).
Hypothesis I_schemas : forall v s, I s -> I (set_schema_cache (Some v) s).
Hypothesis I_name :
  forall v s, I s -> I (set_field_name_cache (<[schema := v]> (field_name_cache s)) s).
Hypothesis I_rev :
  forall v s,
    I s -> I (set_field_name_cache_rev (<[schema := v]> (field_name_cache_rev s)) s).
Hypothesis I_enum :
  forall v s, I s -> I (set_field_enum_cache (<[schema := v]> (field_enum_cache s)) s).

Lemma stable_native_call f outs r st : preserves I (native_call f outs r st).
Proof. intros s Hs. simpl. by apply I_status, I_log. Qed.

Lemma stable_free k : preserves I (free k).
Proof. intros s Hs. simpl. by apply I_log. Qed.

Lemma stable_FreeARStatusList : preserves I FreeARStatusList.
Proof. intros s Hs. simpl. by apply I_status, I_log. Qed.

Lemma stable_update_errors : preserves I _update_errors.
Proof. intros s Hs. simpl. by apply I_errors. Qed.

Lemma stable_release_query : preserves I release_query.
Proof.
  unfold release_query, FreeARQualifierStruct, FreeAREntryListFieldList,
    FreeAREntryListFieldValueList.
  repeat (apply preserves_bind; [apply stable_free | intros _]).
  apply stable_FreeARStatusList.
Qed.

Lemma stable_store_field_name n i : preserves I (store_field_name schema n i).
Proof.
  intros s Hs. unfold store_field_name, bind, get, subscript, modify. simpl.
  destruct (field_name_cache s !! schema); simpl; [by apply I_name | done].
Qed.

Lemma stable_init_field_enum i : preserves I (init_field_enum schema i).
Proof.
  intros s Hs. unfold init_field_enum, bind, get, subscript, modify. simpl.
  destruct (field_enum_cache s !! schema); simpl; [by apply I_enum | done].
Qed.

Lemma stable_store_enum i o v : preserves I (store_enum schema i o v).
Proof.
  intros s Hs. unfold store_enum, bind, get, subscript, modify. simpl.
  destruct (field_enum_cache s !! schema) as [d|]; simpl; [| done].
  destruct (d !! i); simpl; [by apply I_enum | done].
Qed.

Lemma stable_regular_loop i names :
  forall j, preserves I (regular_loop schema i j names).
Proof.
  induction names as [|n names IH]; intros j; simpl; [apply preserves_ret|].
  apply preserves_bind; [apply stable_store_enum | intros _; apply IH].
Qed.

Lemma stable_custom_loop i items : preserves I (custom_loop schema i items).
Proof.
  induction items as [|[num name] items IH]; simpl; [apply preserves_ret|].
  apply preserves_bind; [apply stable_store_enum | intros _; apply IH].
Qed.

Lemma stable_fields_loop ids :
  forall names limits, preserves I (fields_loop schema ids names limits).
Proof.
  induction ids as [|i ids IH]; intros names limits; simpl;
    [apply preserves_ret|].
  destruct names as [|n names]; [apply preserves_raise|].
  destruct limits as [|l limits]; [apply preserves_raise|].
  apply preserves_bind; [apply stable_store_field_name | intros _].
  apply preserves_bind; [| intros _; apply IH].
  destruct l as [[regular_list|custom_list|]|]; [| | |apply preserves_ret].
  - apply preserves_bind; [apply stable_init_field_enum | intros _].
    apply stable_regular_loop.
  - apply preserves_bind; [apply stable_init_field_enum | intros _].
    apply stable_custom_loop.
  - apply preserves_bind; [apply stable_init_field_enum | intros _].
    unfold FreeARInternalIdList, FreeARBooleanList, FreeARNameList.
    repeat (apply preserves_bind; [apply stable_free | intros _]).
    apply preserves_bind; [apply stable_FreeARStatusList | intros _].
    apply preserves_raise.
Qed.

Lemma stable_update_fields : preserves I (update_fields arlib schema).
Proof.
  unfold update_fields, FreeARInternalIdList, FreeARBooleanList,
    FreeARNameList.
  apply preserves_bind; [apply preserves_get | intros s0].
  destruct (_ && _); [apply preserves_ret|].
  destruct (reply_ARGetListField _ _ _) as [[r ids] st].
  apply preserves_bind; [apply stable_native_call | intros _].
  destruct (failed r).
  { apply preserves_bind; [apply stable_update_errors | intros _].
    apply preserves_bind; [apply stable_free | intros _].
    apply preserves_bind; [apply stable_FreeARStatusList | intros _].
    apply preserves_raise. }
  apply preserves_bind; [apply stable_FreeARStatusList | intros _].
  apply preserves_bind; [apply preserves_get | intros s1].
  destruct (reply_ARGetMultipleFields _ _ _ _) as [[[r2 names] limits] st2].
  apply preserves_bind; [apply stable_native_call | intros _].
  destruct (failed r2).
  { apply preserves_bind; [apply stable_update_errors | intros _].
    repeat (apply preserves_bind; [apply stable_free | intros _]).
    apply preserves_bind; [apply stable_FreeARStatusList | intros _].
    apply preserves_raise. }
  apply preserves_bind; [intros s Hs; by apply I_name | intros _].
  apply preserves_bind; [intros s Hs; by apply I_rev | intros _].
  apply preserves_bind; [intros s Hs; by apply I_enum | intros _].
  apply preserves_bind; [apply stable_fields_loop | intros _].
  repeat (apply preserves_bind; [apply stable_free | intros _]).
  apply preserves_bind; [apply stable_FreeARStatusList | intros _].
  intros s Hs. unfold bind, get, subscript, modify. simpl.
  destruct (field_name_cache s !! schema); simpl; [by apply I_rev | done].
Qed.

Lemma stable_fields : preserves I (fields arlib schema).
Proof.
  unfold fields.
  apply preserves_bind; [apply stable_update_fields | intros _]. keep.
Qed.

Lemma stable_validate_fields fs : preserves I (validate_fields schema fs).
Proof. intros s Hs. by rewrite validate_fields_pure. Qed.

Lemma stable_build_field_list fs : preserves I (build_field_list schema fs).
Proof.
  induction fs as [|f fs IH]; simpl; [apply preserves_ret|].
  do 3 (apply preserves_bind; [keep | intros ?]).
  apply preserves_bind; [apply IH | intros ?]. keep.
Qed.

Lemma stable_values_loop entry_id ref vals :
  forall l, preserves I (values_loop schema entry_id ref vals l).
Proof.
  induction vals as [|fv vals IH]; intros l; simpl; [apply preserves_ret|].
  do 3 (apply preserves_bind; [keep | intros ?]).
  apply preserves_bind; [| intros ?; apply IH].
  destruct (value fv); try solve [keep].
  apply preserves_bind; [apply stable_release_query | intros _].
  apply preserves_raise.
Qed.

Lemma stable_entries_loop es :
  forall l, preserves I (entries_loop schema es l).
Proof.
  induction es as [|e es IH]; intros l; simpl; [apply preserves_ret|].
  destruct (entryId e) as [|entry_id [|? ?]].
  - apply preserves_bind; [apply stable_release_query | intros _].
    apply preserves_raise.
  - apply preserves_bind; [apply stable_values_loop | intros ?]. apply IH.
  - apply preserves_bind; [apply stable_release_query | intros _].
    apply preserves_raise.
Qed.

(** What follows [update_fields] in [query]. *)
Ltac stable_query_tail :=
  apply preserves_bind; [apply stable_validate_fields | intros _];
  apply preserves_bind; [apply preserves_get | intros ?];
  destruct (reply_ARLoadARQualifierStruct _ _ _ _) as [[? ?] ?];
  apply preserves_bind; [apply stable_native_call | intros _];
  match goal with
  | |- preserves _ (if failed ?r then _ else _) => destruct (failed r)
  end;
  [ apply preserves_bind; [apply stable_update_errors | intros _];
    apply preserves_bind; [apply stable_free | intros _];
    apply preserves_bind; [apply stable_FreeARStatusList | intros _];
    apply preserves_raise
  | apply preserves_bind; [apply stable_FreeARStatusList | intros _];
    apply preserves_bind; [intros ? ?; by apply I_log | intros _];
    apply preserves_bind; [apply stable_build_field_list | intros ?];
    apply preserves_bind; [apply preserves_get | intros ?];
    destruct (reply_ARGetListEntryWithFields _ _ _ _ _) as [[? ?] ?];
    apply preserves_bind; [apply stable_native_call | intros _];
    match goal with
    | |- preserves _ (if failed ?r then _ else _) => destruct (failed r)
    end;
    [ apply preserves_bind; [apply stable_update_errors | intros _];
      apply preserves_bind; [apply stable_release_query | intros _];
      apply preserves_raise
    | apply preserves_bind; [apply stable_entries_loop | intros ?];
      apply preserves_bind; [apply stable_release_query | intros _];
      apply preserves_ret ] ].

Lemma stable_query qual fs : preserves I (query arlib schema qual fs).
Proof.
  unfold query, FreeARQualifierStruct.
  apply preserves_bind; [apply stable_update_fields | intros _].
  stable_query_tail.
Qed.

(** On a loaded schema [query] assigns to no dict. *)
Lemma stable_query_cached qual fs s :
  cached schema s -> I s -> I (fst (query arlib schema qual fs s)).
Proof.
  intros Hc Hs. unfold query, FreeARQualifierStruct.
  rewrite (bind_Ok _ _ _ _ _ (update_fields_cached arlib schema s Hc)).
  match goal with
  | |- I (fst (?m s)) => assert (preserves I m) as Hp
  end.
  { stable_query_tail. }
  by apply Hp.
Qed.

Lemma stable_terminate : preserves I (terminate arlib).
Proof.
  unfold terminate.
  apply preserves_bind; [apply preserves_get | intros s0].
  destruct (reply_ARTermination _ _) as [r st].
  apply preserves_bind; [apply stable_native_call | intros _].
  destruct (failed r); [| apply stable_FreeARStatusList].
  apply preserves_bind; [apply stable_update_errors | intros _].
  apply preserves_bind; [apply stable_FreeARStatusList | intros _].
  apply preserves_raise.
Qed.

Lemma stable_schemas : preserves I (schemas arlib).
Proof.
  unfold schemas, FreeARNameList.
  apply preserves_bind; [apply preserves_get | intros s0].
  destruct (schema_cache s0); [apply preserves_ret|].
  destruct (reply_ARGetListSchema _ _) as [[r names] st].
  apply preserves_bind; [apply stable_native_call | intros _].
  destruct (failed r).
  { apply preserves_bind; [apply stable_update_errors | intros _].
    apply preserves_bind; [apply stable_free | intros _].
    apply preserves_bind; [apply stable_FreeARStatusList | intros _].
    apply preserves_raise. }
  apply preserves_bind; [intros s Hs; by apply I_schemas | intros _].
  apply preserves_bind; [apply stable_free | intros _].
  apply preserves_bind; [apply stable_FreeARStatusList | intros _].
  apply preserves_ret.
Qed.

End Stable.

Lemma same_entries_refl schema s : same_entries schema s s.
Proof. by repeat split. Qed.

Lemma same_entries_stable_other other schema s0 :
  other ≠ schema ->
  let I := fun s' => same_entries other s0 s'
                     /\ schema_cache s' = schema_cache s0 in
  (forall es s, I s -> I (log es s))
  /\ (forall v s, I s -> I (set_status v s))
  /\ (forall v s, I s -> I (set_errors v s))
  /\ (forall v s,
        I s -> I (set_field_name_cache (<[schema := v]> (field_name_cache s)) s))
  /\ (forall v s,
        I s -> I (set_field_name_cache_rev
                    (<[schema := v]> (field_name_cache_rev s)) s))
  /\ (forall v s,
        I s -> I (set_field_enum_cache (<[schema := v]> (field_enum_cache s)) s)).
Proof.
  intros Hne I. unfold I, same_entries. split_and!; try done.
  - intros v s [(H1 & H2 & H3) H4]. simpl.
    by rewrite lookup_insert_ne.
  - intros v s [(H1 & H2 & H3) H4]. simpl.
    by rewrite lookup_insert_ne.
  - intros v s [(H1 & H2 & H3) H4]. simpl.
    by rewrite lookup_insert_ne.
Qed.

(** X9. Loading, listing or querying one schema changes nothing that is
    cached for another: whatever the outcome of [update_fields], [fields]
    or [query] on [schema], the entries of any other schema in the three
    dicts, and the cached schema list, are as before. *)
Theorem operations_on_a_schema_leave_the_others_cached_as_they_were
    (arlib : NativeLayer) (schema other qual : string) (fs : list string)
    (s : ARS) :
  other ≠ schema ->
  (same_entries other s (fst (update_fields arlib schema s))
   /\ schema_cache (fst (update_fields arlib schema s)) = schema_cache s)
  /\ (same_entries other s (fst (fields arlib schema s))
      /\ schema_cache (fst (fields arlib schema s)) = schema_cache s)
  /\ (same_entries other s (fst (query arlib schema qual fs s))
      /\ schema_cache (fst (query arlib schema qual fs s)) = schema_cache s).
Proof.
  intros Hne.
  destruct (same_entries_stable_other other schema s Hne)
    as (Hl & Hst & He & Hn & Hr & Hen).
  set (I := fun s' => same_entries other s s'
                      /\ schema_cache s' = schema_cache s) in *.
  assert (I s) as Hs by (split; [apply same_entries_refl | done]).
  split; [| split].
  - exact (stable_update_fields arlib schema I Hl Hst He Hn Hr Hen s Hs).
  - exact (stable_fields arlib schema I Hl Hst He Hn Hr Hen s Hs).
  - exact (stable_query arlib schema I Hl Hst He Hn Hr Hen qual fs s Hs).
Qed.

Lemma operations_on_a_schema_leave_the_others_cached_as_they_were_witness :
  (same_entries "HPD:Help Desk" desk_loaded
                (fst (update_fields help_desk_query_enum "CHG:Change" desk_loaded))
   /\ schema_cache (fst (update_fields help_desk_query_enum "CHG:Change"
                                       desk_loaded))
      = schema_cache desk_loaded)
  /\ (same_entries "HPD:Help Desk" desk_loaded
                   (fst (fields help_desk_query_enum "CHG:Change" desk_loaded))
      /\ schema_cache (fst (fields help_desk_query_enum "CHG:Change" desk_loaded))
         = schema_cache desk_loaded)
  /\ (same_entries "HPD:Help Desk" desk_loaded
                   (fst (query help_desk_query_enum "CHG:Change" "1=1" []
                               desk_loaded))
      /\ schema_cache (fst (query help_desk_query_enum "CHG:Change" "1=1" []
                                  desk_loaded))
         = schema_cache desk_loaded).
Proof.
  apply (operations_on_a_schema_leave_the_others_cached_as_they_were
           help_desk_query_enum "CHG:Change" "HPD:Help Desk" "1=1" []
           desk_loaded).
  intros H. discriminate H.
Defined.

(** X10. A schema that is loaded stays as it was loaded: whatever operation
    follows, on this schema or another, with whatever outcome, the entries
    of the schema in the three dicts do not change (there is no
    invalidation and no reload). *)
Theorem a_loaded_schema_stays_as_loaded
    (arlib : NativeLayer) (op : operation) (schema : string) (s : ARS) :
  cached schema s ->
  same_entries schema s (fst (run arlib op s))
  /\ cached schema (fst (run arlib op s)).
Proof.
  intros Hc.
  assert (same_entries schema s (fst (run arlib op s))) as Hsame.
  { rewrite run_fst.
    set (I := fun s' => same_entries schema s s').
    assert (Hl : forall es s', I s' -> I (log es s')) by done.
    assert (Hst : forall v s', I s' -> I (set_status v s')) by done.
    assert (He : forall v s', I s' -> I (set_errors v s')) by done.
    assert (Hsc : forall v s', I s' -> I (set_schema_cache (Some v) s')) by done.
    assert (Hother : forall sc, sc ≠ schema ->
              (forall v s',
                 I s' -> I (set_field_name_cache
                              (<[sc := v]> (field_name_cache s')) s'))
              /\ (forall v s',
                    I s' -> I (set_field_name_cache_rev
                                 (<[sc := v]> (field_name_cache_rev s')) s'))
              /\ (forall v s',
                    I s' -> I (set_field_enum_cache
                                 (<[sc := v]> (field_enum_cache s')) s'))).
    { intros sc Hne. unfold I, same_entries. split_and!.
      all: intros v s' (H1 & H2 & H3); simpl; by rewrite lookup_insert_ne. }
    destruct op as [| |sc|sc qual fs|sc].
    - apply (stable_terminate arlib I Hl Hst He s), same_entries_refl.
    - apply (stable_schemas arlib I Hl Hst He Hsc s), same_entries_refl.
    - destruct (decide (sc = schema)) as [->|Hne].
      + destruct Hc as [[d Hd] Hen].
        rewrite (fields_cached arlib schema s d); [| by split; eauto | done].
        apply same_entries_refl.
      + destruct (Hother sc Hne) as (Hn & Hr & Hen).
        apply (stable_fields arlib sc I Hl Hst He Hn Hr Hen s),
          same_entries_refl.
    - destruct (decide (sc = schema)) as [->|Hne].
      + apply (stable_query_cached arlib schema I Hl Hst He qual fs s Hc),
          same_entries_refl.
      + destruct (Hother sc Hne) as (Hn & Hr & Hen).
        apply (stable_query arlib sc I Hl Hst He Hn Hr Hen qual fs s),
          same_entries_refl.
    - destruct (decide (sc = schema)) as [->|Hne].
      + rewrite (update_fields_cached arlib schema s Hc).
        apply same_entries_refl.
      + destruct (Hother sc Hne) as (Hn & Hr & Hen).
        apply (stable_update_fields arlib sc I Hl Hst He Hn Hr Hen s),
          same_entries_refl. }
  split; [done|].
  destruct Hsame as (H1 & _ & H3). destruct Hc as [Hc1 Hc2].
  split; [by rewrite H1 | by rewrite H3].
Qed.

Lemma a_loaded_schema_stays_as_loaded_witness :
  same_entries "HPD:Help Desk" desk_loaded
               (fst (run help_desk_stale_enum
                         (OpQuery "HPD:Help Desk" "1=1" ["Status"]) desk_loaded))
  /\ cached "HPD:Help Desk"
            (fst (run help_desk_stale_enum
                      (OpQuery "HPD:Help Desk" "1=1" ["Status"]) desk_loaded)).
Proof.
  apply (a_loaded_schema_stays_as_loaded
           help_desk_stale_enum (OpQuery "HPD:Help Desk" "1=1" ["Status"])
           "HPD:Help Desk" desk_loaded).
  split; vm_compute; eauto.
Defined.

(** ** What [update_fields] caches when it succeeds *)

Lemma regular_loop_exact schema fid names :
  forall j s es e,
    field_enum_cache s !! schema = Some es ->
    es !! fid = Some e ->
    regular_loop schema fid j names s
    = (set_field_enum_cache
         (<[schema :=
              <[fid := foldl (fun acc p => <[fst p := snd p]> acc) e
                             (imap (fun k label => (j + Z.of_nat k, label)) names)]>
                es]> (field_enum_cache s)) s,
       Ok tt).
Proof.
  induction names as [|n names IH]; intros j s es e Hes He; simpl.
  - rewrite (insert_id es fid e He), (insert_id _ schema es Hes).
    by rewrite set_field_enum_cache_id.
  - rewrite (bind_Ok _ _ _ _ _ (store_enum_run schema fid j n s es e Hes He)).
    erewrite IH; [| simpl; apply lookup_insert_eq | apply lookup_insert_eq].
    simpl. rewrite !insert_insert_eq.
    assert (imap (fun k label => (j + 1 + Z.of_nat k, label)) names
            = imap ((fun k label => (j + Z.of_nat k, label)) ∘ S) names) as ->.
    { apply imap_ext. intros k x _. simpl. f_equal. lia. }
    by rewrite Z.add_0_r.
Qed.

Lemma custom_loop_exact schema fid items :
  forall s es e,
    field_enum_cache s !! schema = Some es ->
    es !! fid = Some e ->
    custom_loop schema fid items s
    = (set_field_enum_cache
         (<[schema :=
              <[fid := foldl (fun acc p => <[fst p := snd p]> acc) e items]>
                es]> (field_enum_cache s)) s,
       Ok tt).
Proof.
  induction items as [|[num name] items IH]; intros s es e Hes He; simpl.
  - rewrite (insert_id es fid e He), (insert_id _ schema es Hes).
    by rewrite set_field_enum_cache_id.
  - rewrite (bind_Ok _ _ _ _ _ (store_enum_run schema fid num name s es e Hes He)).
    erewrite IH; [| simpl; apply lookup_insert_eq | apply lookup_insert_eq].
    simpl. by rewrite !insert_insert_eq.
Qed.

Lemma fields_loop_exact schema ids :
  forall names limits s d es,
    field_name_cache s !! schema = Some d ->
    field_enum_cache s !! schema = Some es ->
    length names = length ids ->
    length limits = length ids ->
    forallb supported limits = true ->
    fields_loop schema ids names limits s
    = (set_field_enum_cache
         (<[schema := loaded_enums es ids limits]> (field_enum_cache s))
         (set_field_name_cache
            (<[schema := loaded_names d names ids]> (field_name_cache s)) s),
       Ok tt).
Proof.
  induction ids as [|i ids IH]; intros names limits s d es Hd Hes Hn Hl Hsup.
  - simpl. destruct names; [| done]. destruct limits; [| done].
    unfold loaded_names, loaded_enums. simpl.
    rewrite (insert_id _ _ _ Hd), (insert_id _ _ _ Hes).
    by rewrite set_field_name_cache_id, set_field_enum_cache_id.
  - destruct names as [|n names]; [done|].
    destruct limits as [|l limits]; [done|].
    simpl in Hn, Hl, Hsup. apply andb_prop in Hsup as [Hsl Hsup].
    injection Hn as Hn. injection Hl as Hl.
    simpl fields_loop.
    rewrite (bind_Ok _ _ _ _ _ (store_field_name_run schema n i s d Hd)).
    set (s1 := set_field_name_cache _ s).
    assert (Hes1 : field_enum_cache s1 !! schema = Some es) by done.
    set (es2 := match l with
                | LimitEnum el => <[i := enum_table el]> es
                | LimitOther => es
                end).
    match goal with
    | |- bind ?m _ s1 = _ =>
      assert (m s1 = (set_field_enum_cache
                        (<[schema := es2]> (field_enum_cache s)) s1, Ok tt))
        as Hstep
    end.
    { destruct l as [[regular_list|custom_list|]|]; [| | done |].
      - rewrite (bind_Ok _ _ _ _ _ (init_field_enum_run schema i s1 es Hes1)).
        erewrite regular_loop_exact;
          [| simpl; apply lookup_insert_eq | apply lookup_insert_eq].
        simpl. rewrite !insert_insert_eq. unfold es2, enum_table. simpl.
        done.
      - rewrite (bind_Ok _ _ _ _ _ (init_field_enum_run schema i s1 es Hes1)).
        erewrite custom_loop_exact;
          [| simpl; apply lookup_insert_eq | apply lookup_insert_eq].
        simpl. by rewrite !insert_insert_eq.
      - unfold es2. simpl. rewrite (insert_id _ _ _ Hes).
        change (field_enum_cache s) with (field_enum_cache s1).
        by rewrite set_field_enum_cache_id. }
    rewrite (bind_Ok _ _ _ _ _ Hstep).
    rewrite (IH names limits _ (<[n := i]> d) es2);
      [| apply lookup_insert_eq | simpl; apply lookup_insert_eq
       | done | done | done].
    unfold s1, loaded_names, loaded_enums. simpl.
    by rewrite !insert_insert_eq.
Qed.

Section LoadingAll.

Variable arlib : NativeLayer.

(** [update_fields] on a schema that is not cached, when both native calls
    succeed, the three arrays have one length and no field is a
    query-style enumeration: the object that results. *)
Lemma update_fields_loads_all schema s r1 ids st1 r2 names limits st2 :
  ~ cached schema s ->
  reply_ARGetListField arlib (trace s) schema = (r1, ids, st1) ->
  failed r1 = false ->
  reply_ARGetMultipleFields arlib (trace s ++ list_field_events r1 st1) schema ids
  = (r2, names, limits, st2) ->
  failed r2 = false ->
  length names = length ids ->
  length limits = length ids ->
  forallb supported limits = true ->
  exists s1,
    update_fields arlib schema s = (s1, Ok tt)
    /\ field_name_cache s1
       = <[schema := loaded_names ∅ names ids]> (field_name_cache s)
    /\ field_name_cache_rev s1
       = <[schema := invert_dict (loaded_names ∅ names ids)]>
           (field_name_cache_rev s)
    /\ field_enum_cache s1
       = <[schema := loaded_enums ∅ ids limits]> (field_enum_cache s)
    /\ trace s1
       = trace s ++ list_field_events r1 st1 ++ multiple_fields_events r2 st2
    /\ errors s1 = errors s
    /\ schema_cache s1 = schema_cache s.
Proof.
  intros Hc H1 Hr1 H2 Hr2 Hn Hl Hsup.
  unfold update_fields. unfold bind at 1, get at 1.
  change (bool_decide (is_Some (field_name_cache s !! schema))
          && bool_decide (is_Some (field_enum_cache s !! schema)))
    with (cachedb schema s).
  destruct (cachedb schema s) eqn:E; [by apply cachedb_cached in E|].
  rewrite H1.
  unfold bind at 1. simpl. rewrite Hr1.
  unfold bind at 1. simpl.
  unfold bind at 1, get at 1. simpl.
  rewrite <- app_assoc. simpl.
  unfold list_field_events in H2. rewrite H2.
  unfold bind at 1. simpl. rewrite Hr2.
  do 3 (unfold bind at 1; simpl).
  match goal with
  | |- context [bind (fields_loop _ _ _ _) _ ?s2] =>
    pose proof (fields_loop_exact schema ids names limits s2 ∅ ∅) as Hrun
  end.
  rewrite (bind_Ok _ _ _ _ _
             (Hrun (lookup_insert_eq _ _ _) (lookup_insert_eq _ _ _) Hn Hl Hsup)).
  unfold FreeARInternalIdList, FreeARBooleanList, FreeARNameList,
    FreeARStatusList, free.
  do 4 (unfold bind at 1; simpl).
  unfold bind at 1, get at 1. simpl.
  unfold bind at 1, subscript at 1. rewrite lookup_insert_eq.
  eexists. split; [reflexivity|]. simpl.
  rewrite !insert_insert_eq. split_and!; try done.
  by rewrite <- !app_assoc.
Qed.

End LoadingAll.

(** *** Dicts built by successive stores *)

Section Stores.

Context {K : Type} `{Countable K} {V : Type}.

Lemma stores_other (d : gmap K V) (l : list (K * V)) k :
  (forall x, x ∈ l -> fst x ≠ k) ->
  foldl (fun acc p => <[fst p := snd p]> acc) d l !! k = d !! k.
Proof.
  revert d. induction l as [|x l IH]; intros d Hl; simpl; [done|].
  rewrite IH.
  - apply lookup_insert_ne. apply Hl. by left.
  - intros y Hy. apply Hl. by right.
Qed.

Lemma stores_last (d : gmap K V) (l : list (K * V)) p k v :
  l !! p = Some (k, v) ->
  (forall q x, (p < q)%nat -> l !! q = Some x -> fst x ≠ k) ->
  foldl (fun acc p => <[fst p := snd p]> acc) d l !! k = Some v.
Proof.
  revert d p. induction l as [|x l IH]; intros d p Hp Hlast; [done|].
  destruct p as [|p]; simpl in *.
  - injection Hp as ->. simpl. rewrite stores_other.
    + apply lookup_insert_eq.
    + intros y Hy. apply list_elem_of_lookup in Hy as [q Hq].
      apply (Hlast (S q)); [lia | done].
  - apply (IH _ p); [done|].
    intros q y Hq Hy. apply (Hlast (S q)); [lia | done].
Qed.

End Stores.

(** *** The enum table of a schema *)

Lemma loaded_enums_notin es ids :
  forall limits i,
    i ∉ ids -> loaded_enums es ids limits !! i = es !! i.
Proof.
  revert es. induction ids as [|j ids IH]; intros es limits i Hi; [done|].
  destruct limits as [|l limits]; [done|].
  apply not_elem_of_cons in Hi as [Hne Hi].
  unfold loaded_enums. simpl. fold (loaded_enums
    (match l with LimitEnum el => <[j := enum_table el]> es | LimitOther => es end)
    ids limits).
  rewrite IH by done.
  destruct l; [by rewrite lookup_insert_ne | done].
Qed.

Lemma loaded_enums_at es ids :
  forall limits p i l,
    NoDup ids -> ids !! p = Some i -> limits !! p = Some l ->
    loaded_enums es ids limits !! i
    = match l with
      | LimitEnum el => Some (enum_table el)
      | LimitOther => es !! i
      end.
Proof.
  revert es. induction ids as [|j ids IH]; intros es limits p i l Hnd Hi Hl;
    [done|].
  destruct limits as [|l0 limits]; [done|].
  apply NoDup_cons in Hnd as [Hj Hnd].
  unfold loaded_enums. simpl. fold (loaded_enums
    (match l0 with LimitEnum el => <[j := enum_table el]> es | LimitOther => es end)
    ids limits).
  destruct p as [|p]; simpl in Hi, Hl.
  - injection Hi as ->. injection Hl as ->.
    rewrite loaded_enums_notin by done.
    destruct l; [apply lookup_insert_eq | done].
  - rewrite (IH _ limits p i l Hnd Hi Hl).
    destruct l; [done|].
    destruct l0; [| done].
    apply lookup_insert_ne. intros ->. apply Hj.
    by eapply list_elem_of_lookup_2.
Qed.

Lemma loaded_enums_keys es ids :
  forall limits i,
    is_Some (loaded_enums es ids limits !! i)
    <-> is_Some (es !! i)
        \/ exists p el, ids !! p = Some i /\ limits !! p = Some (LimitEnum el).
Proof.
  revert es. induction ids as [|j ids IH]; intros es limits i.
  - unfold loaded_enums. simpl. split; [by left|].
    intros [H | (p & el & Hp & _)]; [done | by destruct p].
  - destruct limits as [|l limits].
    + unfold loaded_enums. simpl. split; [by left|].
      intros [H | (p & el & _ & Hp)]; [done | by destruct p].
    + unfold loaded_enums. simpl. fold (loaded_enums
        (match l with LimitEnum el => <[j := enum_table el]> es | LimitOther => es end)
        ids limits).
      rewrite IH. split.
      * intros [Hes | (p & el & Hp & Hl)].
        -- destruct l as [el|]; [| by left].
           destruct (decide (j = i)) as [->|Hne].
           ++ right. by exists 0%nat, el.
           ++ left. by rewrite lookup_insert_ne in Hes.
        -- right. by exists (S p), el.
      * intros [Hes | (p & el & Hp & Hl)].
        -- left. destruct l; [| done].
           apply lookup_insert_is_Some. destruct (decide (j = i)); auto.
        -- destruct p as [|p]; simpl in Hp, Hl.
           ++ injection Hp as ->. injection Hl as ->.
              left. rewrite lookup_insert_eq. eauto.
           ++ right. by exists p, el.
Qed.

Lemma regular_table_lookup labels ord :
  enum_table (AR_ENUM_STYLE_REGULAR labels) !! ord
  = if decide (0 <= ord) then labels !! Z.to_nat ord else None.
Proof.
  unfold enum_table. simpl.
  destruct (decide (0 <= ord)) as [Hord|Hord].
  - destruct (labels !! Z.to_nat ord) as [label|] eqn:Hl.
    + apply (stores_last _ _ (Z.to_nat ord)).
      * rewrite list_lookup_imap, Hl. simpl. f_equal. f_equal. lia.
      * intros q x Hq Hx. apply list_lookup_imap_Some in Hx as (y & _ & ->).
        simpl. lia.
    + rewrite stores_other; [done|].
      intros x Hx. apply list_elem_of_lookup in Hx as [q Hq].
      apply list_lookup_imap_Some in Hq as (y & Hy & ->). simpl.
      intros <-. rewrite Nat2Z.id in Hl. congruence.
  - rewrite stores_other; [done|].
    intros x Hx. apply list_elem_of_lookup in Hx as [q Hq].
    apply list_lookup_imap_Some in Hq as (y & Hy & ->). simpl. lia.
Qed.

Lemma desk_not_loaded : ~ cached "HPD:Help Desk" desk.
Proof. intros [H _]. vm_compute in H. destruct H as [x H]. discriminate H. Defined.

Lemma loaded_names_keys (d : gmap string Z) (l : list (string * Z)) n :
  is_Some (foldl (fun acc p => <[fst p := snd p]> acc) d l !! n)
  <-> is_Some (d !! n) \/ n ∈ l.*1.
Proof.
  revert d. induction l as [|[m j] l IH]; intros d; simpl.
  - split; [by left | intros [H | H]; [done | by apply elem_of_nil in H]].
  - rewrite IH. rewrite lookup_insert_is_Some, elem_of_cons. split.
    + intros [[-> | [_ Hd]] | Hl]; auto.
    + intros [Hd | [-> | Hl]]; auto.
      destruct (decide (m = n)); auto.
Qed.

(** X11. When [update_fields] loads a schema whose field ids are distinct,
    the forward dict has exactly the listed names as keys, and the reverse
    dict is its exact inverse: a name maps to an id if and only if the id
    maps back to that name. *)
Theorem loaded_reverse_dict_inverts_the_forward_dict
    (arlib : NativeLayer) (schema : string) (s : ARS)
    (r1 : Z) (ids : list Z) (st1 : ARStatusList)
    (r2 : Z) (names : list string) (limits : list ARFieldLimitStruct)
    (st2 : ARStatusList) :
  ~ cached schema s ->
  reply_ARGetListField arlib (trace s) schema = (r1, ids, st1) ->
  failed r1 = false ->
  reply_ARGetMultipleFields arlib (trace s ++ list_field_events r1 st1) schema ids
  = (r2, names, limits, st2) ->
  failed r2 = false ->
  length names = length ids ->
  length limits = length ids ->
  forallb supported limits = true ->
  NoDup ids ->
  exists s1 d rev,
    update_fields arlib schema s = (s1, Ok tt)
    /\ field_name_cache s1 !! schema = Some d
    /\ field_name_cache_rev s1 !! schema = Some rev
    /\ (forall n i, d !! n = Some i <-> rev !! i = Some n)
    /\ (forall n, is_Some (d !! n) <-> n ∈ names).
Proof.
  intros Hc H1 Hr1 H2 Hr2 Hn Hl Hsup Hnd.
  destruct (update_fields_loads_all arlib schema s r1 ids st1 r2 names limits st2
              Hc H1 Hr1 H2 Hr2 Hn Hl Hsup)
    as (s1 & Hup & Hfwd & Hrev & _).
  set (d := loaded_names ∅ names ids) in *.
  assert (Horigin : forall m j, d !! m = Some j ->
                                exists q, names !! q = Some m /\ ids !! q = Some j).
  { intros m j Hm. apply loaded_names_origin in Hm as [Hm | Hm].
    - by rewrite lookup_empty in Hm.
    - apply list_elem_of_lookup in Hm as [q Hq].
      apply zip_lookup_inv in Hq. eauto. }
  exists s1, d, (invert_dict d). split_and!.
  - done.
  - rewrite Hfwd. apply lookup_insert_eq.
  - rewrite Hrev. apply lookup_insert_eq.
  - intros n i. split; [| apply invert_dict_sound].
    intros Hd. destruct (invert_dict_complete d i n Hd) as [m Hm].
    rewrite Hm. f_equal.
    apply invert_dict_sound in Hm.
    destruct (Horigin m i Hm) as (q & Hqn & Hqi).
    destruct (Horigin n i Hd) as (q' & Hqn' & Hqi').
    pose proof (NoDup_lookup _ _ _ _ Hnd Hqi Hqi') as ->. congruence.
  - intros n. unfold d, loaded_names. rewrite loaded_names_keys.
    rewrite fst_zip by lia. rewrite lookup_empty. split.
    + intros [[x Hx] | Hin]; [done | done].
    + by right.
Qed.

Lemma loaded_reverse_dict_inverts_the_forward_dict_witness :
  exists s1 d rev,
    update_fields help_desk_priority "HPD:Help Desk" desk = (s1, Ok tt)
    /\ field_name_cache s1 !! "HPD:Help Desk" = Some d
    /\ field_name_cache_rev s1 !! "HPD:Help Desk" = Some rev
    /\ (forall n i, d !! n = Some i <-> rev !! i = Some n)
    /\ (forall n, is_Some (d !! n)
                  <-> n ∈ ["Entry ID"; "Status"; "Priority"]).
Proof.
  apply (loaded_reverse_dict_inverts_the_forward_dict
           help_desk_priority "HPD:Help Desk" desk 0 [1; 7; 9] [] 0
           ["Entry ID"; "Status"; "Priority"]
           [LimitOther; LimitEnum (AR_ENUM_STYLE_REGULAR ["New"; "Closed"]);
            LimitEnum (AR_ENUM_STYLE_CUSTOM [(5, "Urgent"); (1, "Low")])] []).
  - exact desk_not_loaded.
  - reflexivity.
  - reflexivity.
  - reflexivity.
  - reflexivity.
  - reflexivity.
  - reflexivity.
  - reflexivity.
  - apply (bool_decide_eq_true_1 (NoDup [1; 7; 9])). vm_compute. reflexivity.
Defined.

(** X12. For a field that the metadata gives as a regular enumeration,
    [update_fields] caches a table in which the ordinal of a label is its
    position in the list, counted from 0; no other ordinal is in the
    table. *)
Theorem regular_enum_is_cached_by_position
    (arlib : NativeLayer) (schema : string) (s : ARS)
    (r1 : Z) (ids : list Z) (st1 : ARStatusList)
    (r2 : Z) (names : list string) (limits : list ARFieldLimitStruct)
    (st2 : ARStatusList) (p : nat) (i : Z) (labels : list string) :
  ~ cached schema s ->
  reply_ARGetListField arlib (trace s) schema = (r1, ids, st1) ->
  failed r1 = false ->
  reply_ARGetMultipleFields arlib (trace s ++ list_field_events r1 st1) schema ids
  = (r2, names, limits, st2) ->
  failed r2 = false ->
  length names = length ids ->
  length limits = length ids ->
  forallb supported limits = true ->
  NoDup ids ->
  ids !! p = Some i ->
  limits !! p = Some (LimitEnum (AR_ENUM_STYLE_REGULAR labels)) ->
  exists s1 es t,
    update_fields arlib schema s = (s1, Ok tt)
    /\ field_enum_cache s1 !! schema = Some es
    /\ es !! i = Some t
    /\ forall ord,
        t !! ord = if decide (0 <= ord) then labels !! Z.to_nat ord else None.
Proof.
  intros Hc H1 Hr1 H2 Hr2 Hn Hl Hsup Hnd Hi Hlim.
  destruct (update_fields_loads_all arlib schema s r1 ids st1 r2 names limits st2
              Hc H1 Hr1 H2 Hr2 Hn Hl Hsup)
    as (s1 & Hup & _ & _ & Henum & _).
  exists s1, (loaded_enums ∅ ids limits),
    (enum_table (AR_ENUM_STYLE_REGULAR labels)).
  split_and!.
  - done.
  - rewrite Henum. apply lookup_insert_eq.
  - by rewrite (loaded_enums_at ∅ ids limits p i _ Hnd Hi Hlim).
  - apply regular_table_lookup.
Qed.

Lemma regular_enum_is_cached_by_position_witness :
  exists s1 es t,
    update_fields help_desk_priority "HPD:Help Desk" desk = (s1, Ok tt)
    /\ field_enum_cache s1 !! "HPD:Help Desk" = Some es
    /\ es !! 7 = Some t
    /\ forall ord,
        t !! ord = if decide (0 <= ord)
                   then ["New"; "Closed"] !! Z.to_nat ord else None.
Proof.
  apply (regular_enum_is_cached_by_position
           help_desk_priority "HPD:Help Desk" desk 0 [1; 7; 9] [] 0
           ["Entry ID"; "Status"; "Priority"]
           [LimitOther; LimitEnum (AR_ENUM_STYLE_REGULAR ["New"; "Closed"]);
            LimitEnum (AR_ENUM_STYLE_CUSTOM [(5, "Urgent"); (1, "Low")])] []
           1 7 ["New"; "Closed"]).
  - exact desk_not_loaded.
  - reflexivity.
  - reflexivity.
  - reflexivity.
  - reflexivity.
  - reflexivity.
  - reflexivity.
  - reflexivity.
  - apply (bool_decide_eq_true_1 (NoDup [1; 7; 9])). vm_compute. reflexivity.
  - reflexivity.
  - reflexivity.
Defined.

(** X13. For a field that the metadata gives as a custom enumeration,
    [update_fields] caches a table that maps the number of an item to its
    name, the item listed last winning when a number is listed twice; a
    number that no item carries is not in the table. *)
Theorem custom_enum_is_cached_by_item_number
    (arlib : NativeLayer) (schema : string) (s : ARS)
    (r1 : Z) (ids : list Z) (st1 : ARStatusList)
    (r2 : Z) (names : list string) (limits : list ARFieldLimitStruct)
    (st2 : ARStatusList) (p : nat) (i : Z) (items : list (Z * string))
    (q : nat) (number : Z) (name : string) :
  ~ cached schema s ->
  reply_ARGetListField arlib (trace s) schema = (r1, ids, st1) ->
  failed r1 = false ->
  reply_ARGetMultipleFields arlib (trace s ++ list_field_events r1 st1) schema ids
  = (r2, names, limits, st2) ->
  failed r2 = false ->
  length names = length ids ->
  length limits = length ids ->
  forallb supported limits = true ->
  NoDup ids ->
  ids !! p = Some i ->
  limits !! p = Some (LimitEnum (AR_ENUM_STYLE_CUSTOM items)) ->
  items !! q = Some (number, name) ->
  (forall q' x, (q < q')%nat -> items !! q' = Some x -> fst x ≠ number) ->
  exists s1 es t,
    update_fields arlib schema s = (s1, Ok tt)
    /\ field_enum_cache s1 !! schema = Some es
    /\ es !! i = Some t
    /\ t !! number = Some name
    /\ forall other, (forall x, x ∈ items -> fst x ≠ other) -> t !! other = None.
Proof.
  intros Hc H1 Hr1 H2 Hr2 Hn Hl Hsup Hnd Hi Hlim Hq Hlast.
  destruct (update_fields_loads_all arlib schema s r1 ids st1 r2 names limits st2
              Hc H1 Hr1 H2 Hr2 Hn Hl Hsup)
    as (s1 & Hup & _ & _ & Henum & _).
  exists s1, (loaded_enums ∅ ids limits),
    (enum_table (AR_ENUM_STYLE_CUSTOM items)).
  split_and!.
  - done.
  - rewrite Henum. apply lookup_insert_eq.
  - by rewrite (loaded_enums_at ∅ ids limits p i _ Hnd Hi Hlim).
  - unfold enum_table. simpl. by apply (stores_last _ _ q).
  - intros other Hother. unfold enum_table. simpl.
    by rewrite stores_other.
Qed.

Lemma custom_enum_is_cached_by_item_number_witness :
  exists s1 es t,
    update_fields help_desk_priority "HPD:Help Desk" desk = (s1, Ok tt)
    /\ field_enum_cache s1 !! "HPD:Help Desk" = Some es
    /\ es !! 9 = Some t
    /\ t !! 5 = Some "Urgent"
    /\ forall other,
        (forall x, x ∈ [(5, "Urgent"); (1, "Low")] -> fst x ≠ other) ->
        t !! other = None.
Proof.
  apply (custom_enum_is_cached_by_item_number
           help_desk_priority "HPD:Help Desk" desk 0 [1; 7; 9] [] 0
           ["Entry ID"; "Status"; "Priority"]
           [LimitOther; LimitEnum (AR_ENUM_STYLE_REGULAR ["New"; "Closed"]);
            LimitEnum (AR_ENUM_STYLE_CUSTOM [(5, "Urgent"); (1, "Low")])] []
           2 9 [(5, "Urgent"); (1, "Low")] 0 5 "Urgent").
  - exact desk_not_loaded.
  - reflexivity.
  - reflexivity.
  - reflexivity.
  - reflexivity.
  - reflexivity.
  - reflexivity.
  - reflexivity.
  - apply (bool_decide_eq_true_1 (NoDup [1; 7; 9])). vm_compute. reflexivity.
  - reflexivity.
  - reflexivity.
  - reflexivity.
  - intros [|[|[|q']]] x Hq' Hx; simpl in Hx; try lia; try discriminate.
    injection Hx as <-. simpl. lia.
Defined.

(** X14. The enum table that [update_fields] caches for a schema has an
    entry for a field id exactly when the metadata gives a field of that
    id as an enumeration: other fields get none. *)
Theorem enum_table_holds_exactly_the_enum_fields
    (arlib : NativeLayer) (schema : string) (s : ARS)
    (r1 : Z) (ids : list Z) (st1 : ARStatusList)
    (r2 : Z) (names : list string) (limits : list ARFieldLimitStruct)
    (st2 : ARStatusList) :
  ~ cached schema s ->
  reply_ARGetListField arlib (trace s) schema = (r1, ids, st1) ->
  failed r1 = false ->
  reply_ARGetMultipleFields arlib (trace s ++ list_field_events r1 st1) schema ids
  = (r2, names, limits, st2) ->
  failed r2 = false ->
  length names = length ids ->
  length limits = length ids ->
  forallb supported limits = true ->
  exists s1 es,
    update_fields arlib schema s = (s1, Ok tt)
    /\ field_enum_cache s1 !! schema = Some es
    /\ forall i,
        is_Some (es !! i)
        <-> exists p el, ids !! p = Some i /\ limits !! p = Some (LimitEnum el).
Proof.
  intros Hc H1 Hr1 H2 Hr2 Hn Hl Hsup.
  destruct (update_fields_loads_all arlib schema s r1 ids st1 r2 names limits st2
              Hc H1 Hr1 H2 Hr2 Hn Hl Hsup)
    as (s1 & Hup & _ & _ & Henum & _).
  exists s1, (loaded_enums ∅ ids limits). split_and!.
  - done.
  - rewrite Henum. apply lookup_insert_eq.
  - intros i. rewrite loaded_enums_keys, lookup_empty. split.
    + intros [[x Hx] | H]; [done | done].
    + by right.
Qed.

Lemma enum_table_holds_exactly_the_enum_fields_witness :
  exists s1 es,
    update_fields help_desk_priority "HPD:Help Desk" desk = (s1, Ok tt)
    /\ field_enum_cache s1 !! "HPD:Help Desk" = Some es
    /\ forall i,
        is_Some (es !! i)
        <-> exists p el,
            [1; 7; 9] !! p = Some i
            /\ [LimitOther; LimitEnum (AR_ENUM_STYLE_REGULAR ["New"; "Closed"]);
                LimitEnum (AR_ENUM_STYLE_CUSTOM [(5, "Urgent"); (1, "Low")])]
               !! p = Some (LimitEnum el).
Proof.
  apply (enum_table_holds_exactly_the_enum_fields
           help_desk_priority "HPD:Help Desk" desk 0 [1; 7; 9] [] 0
           ["Entry ID"; "Status"; "Priority"]
           [LimitOther; LimitEnum (AR_ENUM_STYLE_REGULAR ["New"; "Closed"]);
            LimitEnum (AR_ENUM_STYLE_CUSTOM [(5, "Urgent"); (1, "Low")])] []).
  - exact desk_not_loaded.
  - reflexivity.
  - reflexivity.
  - reflexivity.
  - reflexivity.
  - reflexivity.
  - reflexivity.
  - reflexivity.
Defined.

(** ** [query] when one of its native calls fails *)

(** X15. When the qualifier does not compile, [query] raises the error
    that names the schema and records the call's diagnostics; it releases
    the qualifier structure and the status list, and stops there: no
    field-selection list is allocated and the entry retrieval is not
    called. *)
Theorem query_stops_at_a_failed_qualifier
    (arlib : NativeLayer) (schema qual : string) (fs : list string)
    (s s1 : ARS) (r1 : Z) (q : string) (st1 : ARStatusList) :
  update_fields arlib schema s = (s1, Ok tt) ->
  forallb (in_field_cache s1 schema) fs = true ->
  reply_ARLoadARQualifierStruct arlib (trace s1) schema qual = (r1, q, st1) ->
  failed r1 = true ->
  exists s2,
    query arlib schema qual fs s
    = (s2, Raise (ARSError ("Unable to load the qualifier using the provided "
                            +:+ "qualification string for schema " +:+ schema)))
    /\ errors s2 = map error_tuple st1
    /\ appended s1 s2
       = [Call ARLoadARQualifierStruct r1 st1; Alloc KQualifierStruct;
          Alloc KStatusList; Free KQualifierStruct; Free KStatusList]
    /\ same_entries schema s1 s2.
Proof.
  intros Hup Hfs Hq Hr1.
  pose proof (update_fields_Ok_cached arlib schema s s1 Hup) as Hc.
  unfold query. rewrite (bind_Ok _ _ _ _ _ Hup).
  rewrite (bind_Ok _ _ _ _ _ (validate_fields_Ok schema fs s1 Hfs Hc)).
  unfold bind at 1, get at 1. rewrite Hq.
  unfold bind, FreeARQualifierStruct, free. simpl. rewrite Hr1. simpl.
  eexists. split; [reflexivity|]. simpl.
  split; [done|].
  split; [apply appended_app; simpl; by rewrite <- !app_assoc |].
  by repeat split.
Qed.

Lemma query_stops_at_a_failed_qualifier_witness :
  exists s2,
    query (help_desk_query (2, "1=", bad_qualification) (0, [], []))
          "HPD:Help Desk" "1=" ["Status"] desk
    = (s2, Raise (ARSError ("Unable to load the qualifier using the provided "
                            +:+ "qualification string for schema "
                            +:+ "HPD:Help Desk")))
    /\ errors s2 = map error_tuple bad_qualification
    /\ appended desk_loaded s2
       = [Call ARLoadARQualifierStruct 2 bad_qualification;
          Alloc KQualifierStruct; Alloc KStatusList;
          Free KQualifierStruct; Free KStatusList]
    /\ same_entries "HPD:Help Desk" desk_loaded s2.
Proof.
  apply (query_stops_at_a_failed_qualifier
           (help_desk_query (2, "1=", bad_qualification) (0, [], []))
           "HPD:Help Desk" "1=" ["Status"] desk desk_loaded
           2 "1=" bad_qualification).
  - vm_compute. reflexivity.
  - vm_compute. reflexivity.
  - reflexivity.
  - reflexivity.
Defined.

(** X16. When the qualifier compiles and the entry retrieval fails, [query]
    raises the error that names the schema and records the diagnostics of
    the retrieval; before that it releases the qualifier, the
    field-selection list, the entry list and the status list, each
    once. *)
Theorem query_releases_all_at_a_failed_retrieval
    (arlib : NativeLayer) (schema qual : string) (fs : list string)
    (s s1 : ARS) (r1 : Z) (q : string) (st1 : ARStatusList)
    (r2 : Z) (entry_list : list AREntryListFieldValueStruct)
    (st2 : ARStatusList) :
  update_fields arlib schema s = (s1, Ok tt) ->
  forallb (in_field_cache s1 schema) fs = true ->
  reply_ARLoadARQualifierStruct arlib (trace s1) schema qual = (r1, q, st1) ->
  failed r1 = false ->
  reply_ARGetListEntryWithFields arlib (trace s1 ++ qualifier_events r1 st1)
    schema q (field_selection (field_name_cache s1) schema fs)
  = (r2, entry_list, st2) ->
  failed r2 = true ->
  exists s2,
    query arlib schema qual fs s
    = (s2, Raise (ARSError ("Unable to obtain a list of entries using the "
                            +:+ "provided qualification string for schema "
                            +:+ schema)))
    /\ errors s2 = map error_tuple st2
    /\ appended s1 s2
       = qualifier_events r1 st1 ++ retrieval_events r2 st2
         ++ [Free KQualifierStruct; Free KEntryListFieldList;
             Free KEntryListFieldValueList; Free KStatusList]
    /\ same_entries schema s1 s2.
Proof.
  intros Hup Hfs Hq Hr1 Hget Hr2.
  pose proof (update_fields_Ok_cached arlib schema s s1 Hup) as Hc.
  unfold query. rewrite (bind_Ok _ _ _ _ _ Hup).
  rewrite (bind_Ok _ _ _ _ _ (validate_fields_Ok schema fs s1 Hfs Hc)).
  unfold bind at 1, get at 1. rewrite Hq.
  unfold bind at 1. simpl. rewrite Hr1.
  unfold bind at 1. simpl.
  unfold bind at 1. simpl.
  match goal with
  | |- context [bind (build_field_list _ _) _ ?s2] =>
    assert (Hb : build_field_list schema fs s2
                 = (s2, Ok (field_selection (field_name_cache s1) schema fs)))
      by (apply (build_field_list_Ok schema fs s2); [exact Hfs | exact Hc])
  end.
  rewrite (bind_Ok _ _ _ _ _ Hb).
  unfold bind at 1, get at 1. simpl.
  rewrite <- !app_assoc. simpl.
  unfold qualifier_events in Hget. rewrite Hget.
  unfold bind at 1. simpl. rewrite Hr2.
  unfold bind at 1. simpl.
  match goal with
  | |- context [bind release_query _ ?s3] =>
    rewrite (bind_Ok _ _ _ _ _ (release_query_run s3))
  end.
  eexists. split; [reflexivity|]. simpl.
  split; [done|].
  split; [apply appended_app; simpl; by rewrite <- !app_assoc |].
  by repeat split.
Qed.

Lemma query_releases_all_at_a_failed_retrieval_witness :
  exists s2,
    query (help_desk_query (0, "1=1", []) (2, [], no_such_form))
          "HPD:Help Desk" "1=1" ["Status"] desk
    = (s2, Raise (ARSError ("Unable to obtain a list of entries using the "
                            +:+ "provided qualification string for schema "
                            +:+ "HPD:Help Desk")))
    /\ errors s2 = map error_tuple no_such_form
    /\ appended desk_loaded s2
       = qualifier_events 0 [] ++ retrieval_events 2 no_such_form
         ++ [Free KQualifierStruct; Free KEntryListFieldList;
             Free KEntryListFieldValueList; Free KStatusList]
    /\ same_entries "HPD:Help Desk" desk_loaded s2.
Proof.
  apply (query_releases_all_at_a_failed_retrieval
           (help_desk_query (0, "1=1", []) (2, [], no_such_form))
           "HPD:Help Desk" "1=1" ["Status"] desk desk_loaded
           0 "1=1" [] 2 [] no_such_form).
  - vm_compute. reflexivity.
  - vm_compute. reflexivity.
  - reflexivity.
  - reflexivity.
  - reflexivity.
  - reflexivity.
Defined.

(** ** The decoding loop of [query], value by value *)

Lemma value_decodes_decode s schema fv :
  value_decodes s schema fv = true ->
  exists field_name v, decode s schema fv = Some (field_name, v).
Proof.
  unfold value_decodes, decode.
  destruct (field_name_cache_rev s !! schema) as [rev|]; [| done].
  intros [Hname Hval]%andb_prop.
  apply bool_decide_eq_true_1 in Hname as [name Hname]. rewrite Hname.
  destruct (value fv) as [|c|o|t|tag]; try done; eauto.
  destruct (field_enum_cache s !! schema) as [es|]; [| done].
  destruct (es !! fieldId fv) as [e|]; [| done].
  apply bool_decide_eq_true_1 in Hval as [label Hlabel]. rewrite Hlabel. eauto.
Qed.

Lemma values_loop_step s schema fv field_name v :
  decode s schema fv = Some (field_name, v) ->
  forall entry_id ref rest l,
    values_loop schema entry_id ref (fv :: rest) l s
    = values_loop schema entry_id ref rest
        (entries_append (entry_id, ref) (dict_setitem ref field_name v l)) s.
Proof.
  unfold decode. intros Hdec entry_id ref rest l. simpl.
  destruct (field_name_cache_rev s !! schema) as [rev|] eqn:Hrev; [| done].
  destruct (rev !! fieldId fv) as [name|] eqn:Hname; [| done].
  unfold bind at 1, get at 1. simpl.
  unfold bind at 1, subscript at 1. rewrite Hrev. simpl.
  unfold bind at 1, subscript at 1. rewrite Hname. simpl.
  destruct (value fv) as [|c|o|t|tag]; try done.
  - injection Hdec as <- <-. by unfold bind at 1.
  - injection Hdec as <- <-. by unfold bind at 1.
  - destruct (field_enum_cache s !! schema) as [es|] eqn:Hes; [| done].
    destruct (es !! fieldId fv) as [e|] eqn:He; [| done].
    destruct (e !! o) as [label|] eqn:Hlabel; [| done].
    injection Hdec as <- <-.
    unfold bind at 1. unfold bind at 1, subscript at 1. rewrite Hes. simpl.
    unfold bind at 1, subscript at 1. rewrite He. simpl.
    unfold bind at 1, subscript at 1. rewrite Hlabel. done.
  - injection Hdec as <- <-. by unfold bind at 1.
Qed.

Lemma values_loop_unknown schema entry_id ref before fv after s rev name tag :
  forallb (value_decodes s schema) before = true ->
  field_name_cache_rev s !! schema = Some rev ->
  rev !! fieldId fv = Some name ->
  value fv = AR_DATA_TYPE_OTHER tag ->
  forall l,
    values_loop schema entry_id ref (before ++ fv :: after) l s
    = (set_status [] (log query_releases s),
       Raise (unknown_data_type name schema)).
Proof.
  intros Hall Hrev Hname Htag.
  induction before as [|fv0 before IH]; intros l; simpl in Hall.
  - simpl.
    unfold bind at 1, get at 1. simpl.
    unfold bind at 1, subscript at 1. rewrite Hrev. simpl.
    unfold bind at 1, subscript at 1. rewrite Hname. simpl.
    rewrite Htag. unfold bind at 1.
    by rewrite (bind_Ok _ _ _ _ _ (release_query_run s)).
  - apply andb_prop in Hall as [Hfv0 Hall].
    destruct (value_decodes_decode s schema fv0 Hfv0) as (n0 & v0 & Hdec).
    simpl app. rewrite (values_loop_step s schema fv0 n0 v0 Hdec).
    by apply IH.
Qed.

Lemma entries_loop_unknown schema before e after s entry_id vbefore fv vafter
    rev name tag :
  forallb (entry_decodes s schema) before = true ->
  entryId e = [entry_id] ->
  entryValues e = vbefore ++ fv :: vafter ->
  forallb (value_decodes s schema) vbefore = true ->
  field_name_cache_rev s !! schema = Some rev ->
  rev !! fieldId fv = Some name ->
  value fv = AR_DATA_TYPE_OTHER tag ->
  forall l,
    entries_loop schema (before ++ e :: after) l s
    = (set_status [] (log query_releases s),
       Raise (unknown_data_type name schema)).
Proof.
  intros Hall Hid Hvals Hvb Hrev Hname Htag.
  induction before as [|e0 before IH]; intros l; simpl in Hall.
  - simpl. rewrite Hid, Hvals.
    apply bind_Raise. by eapply values_loop_unknown.
  - apply andb_prop in Hall as [He0 Hall].
    apply andb_prop in He0 as [Hid0 Hvals0].
    apply bool_decide_eq_true_1 in Hid0.
    simpl. destruct (entryId e0) as [|id0 [|? ?]]; try done.
    destruct (values_loop_Ok schema id0 (length (heap l)) _ s Hvals0
                             (new_dict l)) as [l' Hl'].
    rewrite (bind_Ok _ _ _ _ _ Hl'). by apply IH.
Qed.

(** X17. When the decoding loop of [query] comes to a value whose data type
    is not NULL, CHAR, ENUM or TIME (what precedes it having decoded), it
    releases the qualifier, the field-selection list, the entry list and
    the status list, and raises the error that names the field, by the
    name the reverse dict gives its id, and the schema. *)
Theorem query_releases_all_before_raising_on_a_data_type
    (arlib : NativeLayer) (schema qual : string) (fs : list string)
    (s s1 : ARS) (r1 : Z) (q : string) (st1 : ARStatusList)
    (r2 : Z) (st2 : ARStatusList)
    (before after : list AREntryListFieldValueStruct)
    (e : AREntryListFieldValueStruct) (entry_id : string)
    (vbefore vafter : list ARFieldValueStruct) (fv : ARFieldValueStruct)
    (rev : gmap Z string) (name : string) (tag : Z) :
  update_fields arlib schema s = (s1, Ok tt) ->
  forallb (in_field_cache s1 schema) fs = true ->
  reply_ARLoadARQualifierStruct arlib (trace s1) schema qual = (r1, q, st1) ->
  failed r1 = false ->
  reply_ARGetListEntryWithFields arlib (trace s1 ++ qualifier_events r1 st1)
    schema q (field_selection (field_name_cache s1) schema fs)
  = (r2, before ++ e :: after, st2) ->
  failed r2 = false ->
  forallb (entry_decodes s1 schema) before = true ->
  entryId e = [entry_id] ->
  entryValues e = vbefore ++ fv :: vafter ->
  forallb (value_decodes s1 schema) vbefore = true ->
  field_name_cache_rev s1 !! schema = Some rev ->
  rev !! fieldId fv = Some name ->
  value fv = AR_DATA_TYPE_OTHER tag ->
  exists s2,
    query arlib schema qual fs s
    = (s2, Raise (ARSError ("An unknown data type was encountered for "
                            +:+ "field name " +:+ name
                            +:+ " on schema " +:+ schema)))
    /\ appended s1 s2
       = qualifier_events r1 st1 ++ retrieval_events r2 st2
         ++ [Free KQualifierStruct; Free KEntryListFieldList;
             Free KEntryListFieldValueList; Free KStatusList]
    /\ errors s2 = errors s1.
Proof.
  intros Hup Hfs Hq Hr1 Hget Hr2 Hbefore Hid Hvals Hvb Hrev Hname Htag.
  rewrite (query_reaches_decoding arlib schema qual fs s s1 r1 q st1 r2 _ st2
             Hup Hfs Hq Hr1 Hget Hr2).
  eexists. split.
  - apply bind_Raise.
    by apply (entries_loop_unknown schema before e after _ entry_id
                vbefore fv vafter rev name tag).
  - split; [| done].
    apply appended_app. simpl. by rewrite <- !app_assoc.
Qed.

Lemma query_releases_all_before_raising_on_a_data_type_witness :
  exists s2,
    query (help_desk_query (0, "1=1", [])
                           (0, [ticket_one; ticket_with_integer], []))
          "HPD:Help Desk" "1=1" ["Entry ID"; "Status"] desk
    = (s2, Raise (ARSError ("An unknown data type was encountered for "
                            +:+ "field name " +:+ "Status"
                            +:+ " on schema " +:+ "HPD:Help Desk")))
    /\ appended desk_loaded s2
       = qualifier_events 0 [] ++ retrieval_events 0 []
         ++ [Free KQualifierStruct; Free KEntryListFieldList;
             Free KEntryListFieldValueList; Free KStatusList]
    /\ errors s2 = errors desk_loaded.
Proof.
  apply (query_releases_all_before_raising_on_a_data_type
           (help_desk_query (0, "1=1", [])
                            (0, [ticket_one; ticket_with_integer], []))
           "HPD:Help Desk" "1=1" ["Entry ID"; "Status"] desk desk_loaded
           0 "1=1" [] 0 [] [ticket_one] [] ticket_with_integer "000002"
           [mkFieldValue 1 (AR_DATA_TYPE_CHAR (Some "000002"))] []
           (mkFieldValue 7 (AR_DATA_TYPE_OTHER 2))
           {[1 := "Entry ID"; 7 := "Status"]} "Status" 2).
  - vm_compute. reflexivity.
  - vm_compute. reflexivity.
  - reflexivity.
  - reflexivity.
  - reflexivity.
  - reflexivity.
  - vm_compute. reflexivity.
  - reflexivity.
  - reflexivity.
  - vm_compute. reflexivity.
  - vm_compute. reflexivity.
  - vm_compute. reflexivity.
  - reflexivity.
Defined.

(** ** What [query] returns *)

Lemma map_replicate {A B} (f : A -> B) (n : nat) (x : A) :
  map f (replicate n x) = replicate n (f x).
Proof. induction n as [|n IH]; simpl; [done | by rewrite IH]. Qed.

Lemma values_loop_exact s schema entry_id ref vals :
  forallb (value_decodes s schema) vals = true ->
  forall l,
    values_loop schema entry_id ref vals l s
    = (s, Ok (mkLocals (entries l ++ replicate (length vals) (entry_id, ref))
                       (alter (fun d => foldl (store_value s schema) d vals)
                              ref (heap l)))).
Proof.
  induction vals as [|fv vals IH]; intros Hall l; simpl in Hall.
  - simpl. rewrite app_nil_r, list_alter_id by done. by destruct l.
  - apply andb_prop in Hall as [Hfv Hall].
    destruct (value_decodes_decode s schema fv Hfv) as (name & v & Hdec).
    rewrite (values_loop_step s schema fv name v Hdec).
    rewrite (IH Hall). simpl.
    rewrite list_alter_alter_eq, <- app_assoc. simpl.
    do 3 f_equal.
    apply list_alter_ext; [| done].
    intros d _. cbn [foldl compose]. f_equal.
    unfold store_value. by rewrite Hdec.
Qed.

Lemma entries_loop_deref s schema es :
  forallb (entry_decodes s schema) es = true ->
  forall l,
    Forall (fun x => (snd x < length (heap l))%nat) (entries l) ->
    exists l',
      entries_loop schema es l s = (s, Ok l')
      /\ deref l' = deref l ++ flat_map (returned_tuples s schema) es.
Proof.
  induction es as [|e es IH]; intros Hall l Hvalid; simpl in Hall.
  - exists l. simpl. by rewrite app_nil_r.
  - apply andb_prop in Hall as [He Hall].
    apply andb_prop in He as [Hid Hvals].
    apply bool_decide_eq_true_1 in Hid.
    simpl. destruct (entryId e) as [|entry_id [|? ?]] eqn:Hide; try done.
    rewrite (bind_Ok _ _ _ _ _
               (values_loop_exact s schema entry_id (length (heap l))
                                  (entryValues e) Hvals (new_dict l))).
    simpl.
    rewrite alter_app_r_alt by lia. rewrite Nat.sub_diag. simpl.
    set (l1 := mkLocals _ _).
    destruct (IH Hall l1) as (l' & Hrun & Hderef).
    { unfold l1. simpl. rewrite length_app. simpl.
      apply Forall_app. split.
      - eapply Forall_impl; [exact Hvalid |]. simpl. intros x Hx. lia.
      - apply Forall_replicate. simpl. lia. }
    exists l'. split; [done|]. rewrite Hderef. simpl. rewrite app_assoc. f_equal.
    unfold l1, deref. simpl. rewrite map_app. f_equal.
    + apply map_ext_in. intros x Hx. f_equal.
      rewrite lookup_app_l; [done|].
      apply list_elem_of_In in Hx.
      by apply (proj1 (Forall_forall _ _) Hvalid x).
    + rewrite map_replicate. simpl.
      rewrite (list_lookup_middle _ [] _ _ eq_refl). simpl.
      unfold returned_tuples. by rewrite Hide.
Qed.

(** X18. When [query] gets through (both native calls succeed and every
    returned entry has one id and values that decode), it returns, entry
    after entry in the order the server listed them, the entry's id with
    the entry's dict once for each value of the entry; every tuple of an
    entry holds the complete dict of the entry, which maps the name of each
    returned field to its decoded value.  The four structures of the query
    are released, each once, the recorded diagnostics and the caches of
    the schema are untouched. *)
Theorem query_returns_the_decoded_entries
    (arlib : NativeLayer) (schema qual : string) (fs : list string)
    (s s1 : ARS) (r1 : Z) (q : string) (st1 : ARStatusList)
    (r2 : Z) (entry_list : list AREntryListFieldValueStruct)
    (st2 : ARStatusList) :
  update_fields arlib schema s = (s1, Ok tt) ->
  forallb (in_field_cache s1 schema) fs = true ->
  reply_ARLoadARQualifierStruct arlib (trace s1) schema qual = (r1, q, st1) ->
  failed r1 = false ->
  reply_ARGetListEntryWithFields arlib (trace s1 ++ qualifier_events r1 st1)
    schema q (field_selection (field_name_cache s1) schema fs)
  = (r2, entry_list, st2) ->
  failed r2 = false ->
  forallb (entry_decodes s1 schema) entry_list = true ->
  exists s2,
    query arlib schema qual fs s
    = (s2, Ok (flat_map (returned_tuples s1 schema) entry_list))
    /\ appended s1 s2
       = qualifier_events r1 st1 ++ retrieval_events r2 st2
         ++ [Free KQualifierStruct; Free KEntryListFieldList;
             Free KEntryListFieldValueList; Free KStatusList]
    /\ errors s2 = errors s1
    /\ same_entries schema s1 s2.
Proof.
  intros Hup Hfs Hq Hr1 Hget Hr2 Hall.
  rewrite (query_reaches_decoding arlib schema qual fs s s1 r1 q st1 r2 _ st2
             Hup Hfs Hq Hr1 Hget Hr2).
  destruct (entries_loop_deref (at_decoding s1 r1 st1 r2 st2) schema entry_list
              Hall (mkLocals [] [])) as (l' & Hrun & Hderef).
  { simpl. constructor. }
  rewrite (bind_Ok _ _ _ _ _ Hrun).
  rewrite (bind_Ok _ _ _ _ _ (release_query_run _)).
  eexists. split.
  - unfold ret. rewrite Hderef. reflexivity.
  - split; [| by repeat split].
    apply appended_app. simpl. by rewrite <- !app_assoc.
Qed.

Lemma query_returns_the_decoded_entries_witness :
  exists s2,
    query (help_desk_query (0, "1=1", []) (0, [ticket_one; ticket_three], []))
          "HPD:Help Desk" "1=1" ["Entry ID"; "Status"] desk
    = (s2, Ok (flat_map (returned_tuples desk_loaded "HPD:Help Desk")
                        [ticket_one; ticket_three]))
    /\ appended desk_loaded s2
       = qualifier_events 0 [] ++ retrieval_events 0 []
         ++ [Free KQualifierStruct; Free KEntryListFieldList;
             Free KEntryListFieldValueList; Free KStatusList]
    /\ errors s2 = errors desk_loaded
    /\ same_entries "HPD:Help Desk" desk_loaded s2.
Proof.
  apply (query_returns_the_decoded_entries
           (help_desk_query (0, "1=1", []) (0, [ticket_one; ticket_three], []))
           "HPD:Help Desk" "1=1" ["Entry ID"; "Status"] desk desk_loaded
           0 "1=1" [] 0 [ticket_one; ticket_three] []).
  - vm_compute. reflexivity.
  - vm_compute. reflexivity.
  - reflexivity.
  - reflexivity.
  - reflexivity.
  - reflexivity.
  - vm_compute. reflexivity.
Defined.

(** ** [fields] *)

Lemma str_le_trans a b c : str_le a b -> str_le b c -> str_le a c.
Proof.
  unfold str_le, String.leb. revert b c.
  induction a as [|x a IH]; intros [|y b] [|z c]; cbn [String.compare];
    try done.
  unfold Ascii.compare.
  destruct (N.compare_spec (Ascii.N_of_ascii x) (Ascii.N_of_ascii y)) as [Hxy|Hxy|Hxy];
    destruct (N.compare_spec (Ascii.N_of_ascii y) (Ascii.N_of_ascii z)) as [Hyz|Hyz|Hyz];
    try done.
  - rewrite Hxy, Hyz, N.compare_refl. apply IH.
  - intros _ _. rewrite Hxy. by rewrite (proj2 (N.compare_lt_iff _ _) Hyz).
  - intros _ _. rewrite <- Hyz. by rewrite (proj2 (N.compare_lt_iff _ _) Hxy).
  - intros _ _.
    by rewrite (proj2 (N.compare_lt_iff _ _) (N.lt_trans _ _ _ Hxy Hyz)).
Qed.

Lemma str_le_total a b : str_le a b \/ str_le b a.
Proof. apply String.leb_total. Qed.

#[local] Instance str_le_transitive : Transitive str_le.
Proof. intros a b c. apply str_le_trans. Qed.

#[local] Instance str_le_is_total : Total str_le.
Proof. intros a b. apply str_le_total. Qed.

(** X19. When [fields] returns, its list holds exactly the keys of the
    schema's forward dict, each once, in ascending byte order. *)
Theorem fields_lists_the_cached_names_in_order
    (arlib : NativeLayer) (schema : string) (s s1 : ARS) (l : list string) :
  fields arlib schema s = (s1, Ok l) ->
  exists d,
    field_name_cache s1 !! schema = Some d
    /\ StronglySorted str_le l
    /\ NoDup l
    /\ forall n, n ∈ l <-> is_Some (d !! n).
Proof.
  unfold fields. intros H.
  apply bind_inv in H as [(s2 & [] & Hup & H) | (e & _ & [=])].
  unfold bind, get, subscript in H. simpl in H.
  destruct (field_name_cache s2 !! schema) as [d|] eqn:Hd; [| done].
  injection H as <- <-. exists d. split_and!.
  - done.
  - apply StronglySorted_merge_sort; apply _.
  - unfold sorted_keys. rewrite merge_sort_Permutation.
    apply NoDup_fst_map_to_list.
  - intros n. unfold sorted_keys. rewrite merge_sort_Permutation.
    rewrite list_elem_of_fmap. split.
    + intros [[m i] [-> Hin]]. apply elem_of_map_to_list in Hin. eauto.
    + intros [i Hi]. exists (n, i). split; [done|].
      by apply elem_of_map_to_list.
Qed.

Lemma fields_lists_the_cached_names_in_order_witness :
  exists d,
    field_name_cache
      (fst (fields help_desk_priority "HPD:Help Desk" desk)) !! "HPD:Help Desk"
    = Some d
    /\ StronglySorted str_le ["Entry ID"; "Priority"; "Status"]
    /\ NoDup ["Entry ID"; "Priority"; "Status"]
    /\ forall n, n ∈ ["Entry ID"; "Priority"; "Status"] <-> is_Some (d !! n).
Proof.
  apply (fields_lists_the_cached_names_in_order
           help_desk_priority "HPD:Help Desk" desk).
  vm_compute. reflexivity.
Defined.

(** ** The validation loop of [query] *)

Lemma validate_fields_first_missing schema known f rest s :
  cached schema s ->
  forallb (in_field_cache s schema) known = true ->
  in_field_cache s schema f = false ->
  validate_fields schema (known ++ f :: rest) s
  = (s, Raise (no_such_field f schema)).
Proof.
  intros [[d Hd] _] Hknown Hf.
  induction known as [|g known IH]; simpl in *.
  - unfold bind, get, subscript. simpl. rewrite Hd. simpl.
    unfold in_field_cache in Hf. rewrite Hd in Hf. by rewrite Hf.
  - apply andb_prop in Hknown as [Hg Hknown].
    unfold bind, get, subscript. simpl. rewrite Hd. simpl.
    unfold in_field_cache in Hg. rewrite Hd in Hg. rewrite Hg.
    by apply IH.
Qed.

(** X20. Of the requested names, [query] reports the first, in the order of
    the request, that is not a key of the schema's field cache: the names
    before it are in the cache, and whatever follows it is not looked
    at. *)
Theorem query_names_the_first_missing_field
    (arlib : NativeLayer) (schema qual : string)
    (known : list string) (f : string) (rest : list string) (s s1 : ARS) :
  update_fields arlib schema s = (s1, Ok tt) ->
  forallb (in_field_cache s1 schema) known = true ->
  in_field_cache s1 schema f = false ->
  query arlib schema qual (known ++ f :: rest) s
  = (s1, Raise (ARSError ("A field with name " +:+ f
                          +:+ " does not exist in schema " +:+ schema))).
Proof.
  intros Hup Hknown Hf.
  pose proof (update_fields_Ok_cached arlib schema s s1 Hup) as Hc.
  unfold query. rewrite (bind_Ok _ _ _ _ _ Hup).
  by rewrite (bind_Raise _ _ _ _ _
                (validate_fields_first_missing schema known f rest s1
                   Hc Hknown Hf)).
Qed.

Lemma query_names_the_first_missing_field_witness :
  query help_desk "HPD:Help Desk" "1=1"
        (["Status"] ++ "Priority" :: ["Entry ID"; "Urgency"]) desk
  = (desk_loaded,
     Raise (ARSError ("A field with name " +:+ "Priority"
                      +:+ " does not exist in schema " +:+ "HPD:Help Desk"))).
Proof.
  apply (query_names_the_first_missing_field
           help_desk "HPD:Help Desk" "1=1" ["Status"] "Priority"
           ["Entry ID"; "Urgency"] desk desk_loaded).
  - vm_compute. reflexivity.
  - vm_compute. reflexivity.
  - vm_compute. reflexivity.
Defined.
